(** * Snap state utilities: record locators, upserts, pruning and queries

    A shallow embedding of the state helpers of the wallet snap
    ([getAccount], [upsertAccount], [getNetwork], [getErc20Token],
    [getTransaction], [getTransactions], [upsertTransactions],
    [removeAcceptedTransaction], ...) together with the properties the
    specification states about them, and of the validations of request
    parameters ([validateAddErc20TokenParams], [validateAddNetworkParams])
    and [toMap], with further properties of the module.

    Conventions of the embedding:
    - a JavaScript string is a [string] of 8-bit characters;
    - a [bigint] is a [Z]; the result of [Number(s)] is a [number], an
      IEEE-754 binary64 value;
    - numeric record fields ([timestamp], [addressIndex], [decimals]) and the
      millisecond cutoffs hold integers and are modelled as [Z]; where the
      code computes with them ([txn.timestamp * 1000 >= minTimeStamp]) they
      are read as binary64 values ([JS.of_Z]) and the arithmetic is the one
      of binary64;
    - an exception is a [Throw] result; [undefined] is [None];
    - a reference to an array element (what [Array.prototype.find] returns)
      is the index of the element together with its current value; writing
      through the reference updates the array at that index. *)

From Stdlib Require Import ZArith List String Ascii Bool Lia.
From Stdlib Require Import DecimalString HexadecimalString DecimalN HexadecimalN.
From Stdlib Require Import Sorted Permutation.
Import ListNotations.

Set Implicit Arguments.

#[local] Open Scope Z_scope.

(** ** Exceptions *)

Inductive error : Type :=
| TypeError                        (* property access on [undefined] *)
| SyntaxError                      (* [BigInt(s)] on a string that is no integer literal *)
| HostError                        (* the host rejected a [snap_manageState] request *)
| NetworkNotFound (chainId : string). (* [Error("can't find the network in snap state ...")] *)

Inductive result (A : Type) : Type :=
| Ok (a : A)
| Throw (e : error).

Arguments Ok {A} a.
Arguments Throw {A} e.

Definition rbind {A B} (r : result A) (k : A -> result B) : result B :=
  match r with
  | Ok a => k a
  | Throw e => Throw e
  end.

Definition rmap {A B} (f : A -> B) (r : result A) : result B :=
  match r with
  | Ok a => Ok (f a)
  | Throw e => Throw e
  end.

Declare Scope result_scope.
Delimit Scope result_scope with result.
Notation "x <- r ;; k" := (rbind r (fun x => k))
  (at level 61, r at next level, right associativity) : result_scope.

(** ** String to number conversions of the JavaScript runtime *)

Module JS.

(** *** Characters *)

Definition code (c : ascii) : Z := Z.of_N (N_of_ascii c).

(** White space and line terminators that [Number], [BigInt] and
    [String.prototype.trim] strip (the 8-bit ones: TAB, LF, VT, FF, CR, SP
    and the no-break space U+00A0). *)
Definition is_space (c : ascii) : bool :=
  let n := code c in
  ((9 <=? n) && (n <=? 13)) || (n =? 32) || (n =? 160).

Definition digit_val (c : ascii) : option Z :=
  let n := code c in
  if (48 <=? n) && (n <=? 57) then Some (n - 48)
  else if (97 <=? n) && (n <=? 102) then Some (n - 87)
  else if (65 <=? n) && (n <=? 70) then Some (n - 55)
  else None.

Definition digit_in (base : Z) (c : ascii) : option Z :=
  match digit_val c with
  | Some d => if d <? base then Some d else None
  | None => None
  end.

Fixpoint drop_spaces (cs : list ascii) : list ascii :=
  match cs with
  | c :: cs' => if is_space c then drop_spaces cs' else cs
  | [] => []
  end.

Definition trim (cs : list ascii) : list ascii :=
  rev (drop_spaces (rev (drop_spaces cs))).

(** The value of a sequence of digits in [base], most significant first;
    [None] as soon as a character is not a digit of the base. *)
Fixpoint digits_acc (base acc : Z) (cs : list ascii) : option Z :=
  match cs with
  | [] => Some acc
  | c :: cs' =>
      match digit_in base c with
      | Some d => digits_acc base (acc * base + d) cs'
      | None => None
      end
  end.

(** A non-empty sequence of digits. *)
Definition digits (base : Z) (cs : list ascii) : option Z :=
  match cs with
  | [] => None
  | _ => digits_acc base 0 cs
  end.

(** The longest prefix of decimal digits, and the rest. *)
Fixpoint span_dec (cs : list ascii) : list ascii * list ascii :=
  match cs with
  | c :: cs' =>
      match digit_in 10 c with
      | Some _ => let '(ds, rest) := span_dec cs' in (c :: ds, rest)
      | None => ([], cs)
      end
  | [] => ([], [])
  end.

(** The radix announced by a [0x], [0o] or [0b] prefix. *)
Definition radix_prefix (cs : list ascii) : option (Z * list ascii) :=
  match cs with
  | "0"%char :: p :: rest =>
      if (p =? "x")%char || (p =? "X")%char then Some (16, rest)
      else if (p =? "o")%char || (p =? "O")%char then Some (8, rest)
      else if (p =? "b")%char || (p =? "B")%char then Some (2, rest)
      else None
  | _ => None
  end.

(** *** [BigInt(s)] (StringToBigInt)

    The trimmed string is empty (value 0), a prefixed hexadecimal, octal or
    binary literal, or a decimal literal with an optional sign; anything
    else is a [SyntaxError].  This is what [num.toBigInt] of starknet.js
    evaluates on a string. *)
Definition to_SyntaxError (o : option Z) : result Z :=
  match o with
  | Some z => Ok z
  | None => Throw SyntaxError
  end.

Definition BigInt_literal (cs : list ascii) : result Z :=
  match cs with
  | [] => Ok 0
  | _ =>
      match radix_prefix cs with
      | Some (base, rest) => to_SyntaxError (digits base rest)
      | None =>
          match cs with
          | "+"%char :: rest => to_SyntaxError (digits 10 rest)
          | "-"%char :: rest => to_SyntaxError (option_map Z.opp (digits 10 rest))
          | _ => to_SyntaxError (digits 10 cs)
          end
      end
  end.

Definition BigInt (s : string) : result Z :=
  BigInt_literal (trim (list_ascii_of_string s)).

(** *** Numbers

    A binary64 value: not-a-number, an infinity, or the finite value
    [m * 2^e] kept in canonical form ([m] odd, or [m = 0] and [e = 0]; the
    two zeros are identified, no operation of the program tells them
    apart).  Canonical forms make [===] on finite values structural. *)
Inductive number : Type :=
| NaN
| Inf (negative : bool)
| Fin (m e : Z).

Definition number_eqb (a b : number) : bool :=
  match a, b with
  | Fin m e, Fin m' e' => (m =? m') && (e =? e')
  | Inf s, Inf s' => Bool.eqb s s'
  | _, _ => false
  end.

Fixpoint strip2 (p : positive) (e : Z) : Z * Z :=
  match p with
  | xO p' => strip2 p' (e + 1)
  | _ => (Zpos p, e)
  end.

Definition mk_fin (neg : bool) (m e : Z) : number :=
  match m with
  | Zpos p => let '(m', e') := strip2 p e in Fin (if neg then - m' else m') e'
  | _ => Fin 0 0
  end.

Definition round_half_even (n d : Z) : Z :=
  let q := n / d in
  match (2 * (n mod d) ?= d) with
  | Lt => q
  | Gt => q + 1
  | Eq => if Z.even q then q else q + 1
  end.

(** Round the rational [n / d] ([0 <= n], [0 < d]) to the nearest binary64
    value, ties to even; [neg] is the sign of the result. *)
Definition round_double (neg : bool) (n d : Z) : number :=
  if n <=? 0 then Fin 0 0
  else
    let e0 := Z.log2 n - Z.log2 d in
    let ge := if 0 <=? e0 then d * 2 ^ e0 <=? n else d <=? n * 2 ^ (- e0) in
    let e := if ge then e0 else e0 - 1 in         (* 2^e <= n/d < 2^(e+1) *)
    let sh := Z.max (e - 52) (-1074) in           (* exponent of the last place *)
    let m := if 0 <=? sh then round_half_even n (d * 2 ^ sh)
             else round_half_even (n * 2 ^ (- sh)) d in
    if (0 <=? sh) && (2 ^ 1024 <=? m * 2 ^ sh) then Inf neg
    else mk_fin neg m sh.

Definition take_sign (cs : list ascii) : bool * list ascii :=
  match cs with
  | "+"%char :: rest => (false, rest)
  | "-"%char :: rest => (true, rest)
  | _ => (false, cs)
  end.

(** The exponent part of a decimal literal: nothing, or [e] or [E], an
    optional sign and at least one digit. *)
Definition exponent_part (cs : list ascii) : option Z :=
  match cs with
  | [] => Some 0
  | c :: rest =>
      if (c =? "e")%char || (c =? "E")%char then
        let '(neg, ds) := take_sign rest in
        option_map (fun v => if neg then - v else v) (digits 10 ds)
      else None
  end.

(** An unsigned decimal literal as [(mantissa, decimal exponent)]. *)
Definition decimal_literal (cs : list ascii) : option (Z * Z) :=
  let '(ip, r1) := span_dec cs in
  let '(fp, r2) :=
    match r1 with
    | "."%char :: r => span_dec r
    | _ => ([], r1)
    end in
  match ip ++ fp with
  | [] => None
  | ds =>
      match digits_acc 10 0 ds, exponent_part r2 with
      | Some mant, Some ex => Some (mant, ex - Z.of_nat (List.length fp))
      | _, _ => None
      end
  end.

(** *** [Number(s)] (StringToNumber) *)
Definition Number_literal (cs : list ascii) : number :=
  match cs with
  | [] => Fin 0 0
  | _ =>
      match radix_prefix cs with
      | Some (base, rest) =>
          match digits base rest with
          | Some v => round_double false v 1
          | None => NaN
          end
      | None =>
          let '(neg, body) := take_sign cs in
          if list_eq_dec ascii_dec body (list_ascii_of_string "Infinity")
          then Inf neg
          else
            match decimal_literal body with
            | Some (mant, ex) =>
                if 0 <=? ex then round_double neg (mant * 10 ^ ex) 1
                else round_double neg mant (10 ^ (- ex))
            | None => NaN
            end
      end
  end.

Definition Number (s : string) : number :=
  Number_literal (trim (list_ascii_of_string s)).

(** The integer [z] as a number. *)
Definition of_Z (z : Z) : number := round_double (z <? 0) (Z.abs z) 1.

(** [a <= b] and [a >= b]: false when an operand is not a number; two
    finite values are compared at their smaller exponent. *)
Definition leb (a b : number) : bool :=
  match a, b with
  | NaN, _ | _, NaN => false
  | Inf true, _ => true
  | _, Inf false => true
  | Inf false, _ => false
  | _, Inf true => false
  | Fin m e, Fin m' e' =>
      let k := Z.min e e' in
      m * 2 ^ (e - k) <=? m' * 2 ^ (e' - k)
  end.

Definition geb (a b : number) : bool := leb b a.

(** [a * b]: the exact product rounded to the nearest binary64 value. *)
Definition mul (a b : number) : number :=
  match a, b with
  | NaN, _ | _, NaN => NaN
  | Inf s, Inf s' => Inf (xorb s s')
  | Inf s, Fin m _ | Fin m _, Inf s =>
      if m =? 0 then NaN else Inf (xorb s (m <? 0))
  | Fin m e, Fin m' e' =>
      let neg := xorb (m <? 0) (m' <? 0) in
      let n := Z.abs m * Z.abs m' in
      if 0 <=? e + e' then round_double neg (n * 2 ^ (e + e')) 1
      else round_double neg n (2 ^ (- (e + e')))
  end.

(** Truthiness of a string: every string but the empty one. *)
Definition truthy (s : string) : bool :=
  match s with
  | EmptyString => false
  | _ => true
  end.

(** Decimal and [0x]-prefixed hexadecimal spellings of a natural number. *)
Definition decimal (n : N) : string :=
  DecimalString.NilEmpty.string_of_uint (N.to_uint n).

Definition hexadecimal (n : N) : string :=
  String "0" (String "x" (HexadecimalString.NilEmpty.string_of_uint (N.to_hex_uint n))).

End JS.

(** ** The persisted document

    The record types of [types/snapState]: the fields are the ones the
    state helpers read and write. *)

Module AccContract.
Record t : Type := mk {
  addressSalt : string;
  publicKey : string;
  address : string;
  addressIndex : Z;
  derivationPath : string;
  deployTxnHash : string;
  chainId : string
}.

Definition eq_dec (a b : t) : {a = b} + {a <> b}.
Proof. decide equality; auto using string_dec, Z.eq_dec. Defined.
End AccContract.

Module Network.
Record t : Type := mk {
  name : string;
  chainId : string;
  baseUrl : string;
  nodeUrl : string;
  voyagerUrl : string;
  accountClassHash : string;
  useOldAccounts : option bool
}.

Definition eq_dec (a b : t) : {a = b} + {a <> b}.
Proof.
  decide equality; auto using string_dec.
  decide equality; apply bool_dec.
Defined.
End Network.

Module Erc20Token.
Record t : Type := mk {
  address : string;
  name : string;
  symbol : string;
  decimals : Z;
  chainId : string
}.

Definition eq_dec (a b : t) : {a = b} + {a <> b}.
Proof. decide equality; auto using string_dec, Z.eq_dec. Defined.
End Erc20Token.

Module Transaction.
Record t : Type := mk {
  txnHash : string;
  txnType : string;
  chainId : string;
  senderAddress : string;
  contractAddress : string;
  contractFuncName : string;
  contractCallData : list string;
  status : option string;
  executionStatus : option string;
  finalityStatus : option string;
  failureReason : string;
  eventIds : list string;
  timestamp : Z                     (* in seconds *)
}.

Definition eq_dec (a b : t) : {a = b} + {a <> b}.
Proof.
  decide equality;
    try apply string_dec; try apply Z.eq_dec;
    try (apply list_eq_dec; apply string_dec);
    decide equality; apply string_dec.
Defined.
End Transaction.

(** The members of the [TransactionStatus] enumeration that the state
  helpers name. *)
Module TransactionStatus.
Definition ACCEPTED_ON_L2 : string := "ACCEPTED_ON_L2".
Definition ACCEPTED_ON_L1 : string := "ACCEPTED_ON_L1".
End TransactionStatus.

Record SnapState : Type := mkSnapState {
  accContracts : option (list AccContract.t);
  erc20Tokens : option (list Erc20Token.t);
  networks : option (list Network.t);
  transactions : option (list Transaction.t)
}.

Definition set_accContracts (s : SnapState) (v : list AccContract.t) : SnapState :=
  mkSnapState (Some v) (erc20Tokens s) (networks s) (transactions s).
Definition set_erc20Tokens (s : SnapState) (v : list Erc20Token.t) : SnapState :=
  mkSnapState (accContracts s) (Some v) (networks s) (transactions s).
Definition set_networks (s : SnapState) (v : list Network.t) : SnapState :=
  mkSnapState (accContracts s) (erc20Tokens s) (Some v) (transactions s).
Definition set_transactions (s : SnapState) (v : list Transaction.t) : SnapState :=
  mkSnapState (accContracts s) (erc20Tokens s) (networks s) (Some v).

(** ** Canonical equality *)

(** Modelled from the spec: the serializer module ([toJson]) is not among
    the sources.  The specification describes it as a deterministic,
    field-order-independent serialization used only to compare two records
    of one kind for structural equality, so the comparison
    [toJson(a) === toJson(b)] is the decision of [a = b]. *)
Definition sameJson {A} (eq_dec : forall a b : A, {a = b} + {a <> b}) (a b : A) : bool :=
  if eq_dec a b then true else false.

(** ** Arrays *)

(** A reference to an element of an array. *)
Definition ref (A : Type) : Type := nat * A.

(** [Array.prototype.find] with a callback that may throw: the first element
    (from index [i] on) for which the callback returns [true]. *)
Fixpoint find_from {A} (p : A -> result bool) (i : nat) (l : list A)
  : result (option (ref A)) :=
  match l with
  | [] => Ok None
  | x :: l' =>
      match p x with
      | Ok true => Ok (Some (i, x))
      | Ok false => find_from p (S i) l'
      | Throw e => Throw e
      end
  end.

Definition find {A} (p : A -> result bool) (l : list A) : result (option (ref A)) :=
  find_from p 0 l.

(** [state.xs?.find(p)]: [undefined] when the collection is absent. *)
Definition find_opt {A} (p : A -> result bool) (l : option (list A))
  : result (option (ref A)) :=
  match l with
  | Some xs => find p xs
  | None => Ok None
  end.

(** Assignment through a reference: the element at index [i] is replaced. *)
Fixpoint assign {A} (i : nat) (x : A) (l : list A) : list A :=
  match l, i with
  | [], _ => []
  | _ :: l', O => x :: l'
  | y :: l', S i' => y :: assign i' x l'
  end.

(** [Array.prototype.sort] is stable; insertion of [x] in front of the first
    element that does not come strictly before it keeps it so. *)
Fixpoint insert_by {A} (key : A -> Z) (x : A) (l : list A) : list A :=
  match l with
  | [] => [x]
  | y :: l' => if key x <=? key y then x :: l else y :: insert_by key x l'
  end.

Definition sort_by {A} (key : A -> Z) (l : list A) : list A :=
  fold_right (insert_by key) [] l.

(** ** Record locators *)

Definition same_chain (a b : string) : bool :=
  JS.number_eqb (JS.Number a) (JS.Number b).

(** [num.toBigInt(stored) === key] *)
Definition bigint_is (stored : string) (key : Z) : result bool :=
  rmap (fun v => v =? key) (JS.BigInt stored).

(** [num.toBigInt(stored) === key && Number(chain) === Number(chainId)]:
    the conversion of the stored key may throw, the chain comparison is
    evaluated only when the keys are equal. *)
Definition key_matches (stored : string) (key : Z) (chain chainId : string)
  : result bool :=
  rmap (fun same => same && same_chain chain chainId) (bigint_is stored key).

#[local] Open Scope result_scope.

Definition getAccount (state : SnapState) (accountAddress chainId : string)
  : result (option (ref AccContract.t)) :=
  bigIntAccountAddress <- JS.BigInt accountAddress ;;
  find_opt
    (fun acc => key_matches (AccContract.address acc) bigIntAccountAddress
                            (AccContract.chainId acc) chainId)
    (accContracts state).

Definition getAccounts (state : SnapState) (chainId : string)
  : result (list AccContract.t) :=
  match accContracts state with
  | None => Throw TypeError
  | Some accs =>
      Ok (sort_by AccContract.addressIndex
            (filter (fun acc => same_chain (AccContract.chainId acc) chainId) accs))
  end.

Definition getNetwork (state : SnapState) (chainId : string)
  : result (option (ref Network.t)) :=
  find_opt
    (fun network =>
       Ok (same_chain (Network.chainId network) chainId
           && negb (match Network.useOldAccounts network with
                    | Some b => b
                    | None => false
                    end)))
    (networks state).

Definition getNetworks (state : SnapState) : option (list Network.t) :=
  networks state.

Definition getErc20Token (state : SnapState) (tokenAddress chainId : string)
  : result (option (ref Erc20Token.t)) :=
  bigIntTokenAddress <- JS.BigInt tokenAddress ;;
  find_opt
    (fun token => key_matches (Erc20Token.address token) bigIntTokenAddress
                              (Erc20Token.chainId token) chainId)
    (erc20Tokens state).

Definition getErc20Tokens (state : SnapState) (chainId : string)
  : option (list Erc20Token.t) :=
  option_map
    (filter (fun token => same_chain (Erc20Token.chainId token) chainId))
    (erc20Tokens state).

Definition getEtherErc20Token (state : SnapState) (chainId : string)
  : result (option (ref Erc20Token.t)) :=
  find_opt
    (fun token =>
       Ok (same_chain (Erc20Token.chainId token) chainId
           && (Erc20Token.symbol token =? "ETH")%string))
    (erc20Tokens state).

Definition getTransaction (state : SnapState) (txnHash chainId : string)
  : result (option (ref Transaction.t)) :=
  bigIntTxnHash <- JS.BigInt txnHash ;;
  find_opt
    (fun txn => key_matches (Transaction.txnHash txn) bigIntTxnHash
                            (Transaction.chainId txn) chainId)
    (transactions state).

Section NetworkFromChainId.

(** The chain id of the constant [STARKNET_TESTNET_NETWORK], declared in
    the constants module. *)
Variable STARKNET_TESTNET_NETWORK_chainId : string.

(** [targerChainId || STARKNET_TESTNET_NETWORK.chainId] *)
Definition effectiveChainId (targerChainId : option string) : string :=
  match targerChainId with
  | Some c => if JS.truthy c then c else STARKNET_TESTNET_NETWORK_chainId
  | None => STARKNET_TESTNET_NETWORK_chainId
  end.

Definition getNetworkFromChainId (state : SnapState) (targerChainId : option string)
  : result (ref Network.t) :=
  let chainId := effectiveChainId targerChainId in
  network <- getNetwork state chainId ;;
  match network with
  | None => Throw (NetworkNotFound chainId)
  | Some n => Ok n
  end.

End NetworkFromChainId.

(** ** The transaction filter pipeline *)

(** A filter configuration that is a single value or a set of values. *)
Inductive one_or_many : Type :=
| One (v : string)
| Many (vs : list string).

Definition accepts (cfg : one_or_many) (v : string) : bool :=
  match cfg with
  | One w => (v =? w)%string
  | Many ws => existsb (fun w => (v =? w)%string) ws
  end.

(** Modelled from the spec: the module [transaction/filter] (the filter
    classes and [filterTransactions]) is not among the sources.  Following
    the specification, a filter is one of six predicates, each carrying an
    optional configuration and exposing one boolean operation on a
    transaction; a predicate whose configuration is unset passes every
    transaction, the chain filter requires its numeric chain id, and the
    pipeline keeps, in their order, the transactions that every filter
    passes. *)
Inductive TransactionFilter : Type :=
| ChainIdFilter (chainId : JS.number)
| TimestampFilter (timestamp : option Z)                 (* in ms *)
| SenderAddressFilter (senderAddress : option Z)
| ContractAddressFilter (contractAddress : option Z)
| TxnTypeFilter (txnType : option one_or_many)
| StatusFilter (finalityStatus executionStatus : option one_or_many).

Definition bigint_equals (stored : string) (v : Z) : bool :=
  match JS.BigInt stored with
  | Ok w => w =? v
  | Throw _ => false
  end.

Definition status_accepts (cfg : option one_or_many) (st : option string) : bool :=
  match cfg with
  | None => true
  | Some c =>
      match st with
      | Some v => accepts c v
      | None => false
      end
  end.

Definition apply (f : TransactionFilter) (txn : Transaction.t) : bool :=
  match f with
  | ChainIdFilter c => JS.number_eqb (JS.Number (Transaction.chainId txn)) c
  | TimestampFilter None => true
  | TimestampFilter (Some min) => min <=? Transaction.timestamp txn * 1000
  | SenderAddressFilter None => true
  | SenderAddressFilter (Some a) => bigint_equals (Transaction.senderAddress txn) a
  | ContractAddressFilter None => true
  | ContractAddressFilter (Some a) => bigint_equals (Transaction.contractAddress txn) a
  | TxnTypeFilter None => true
  | TxnTypeFilter (Some c) => accepts c (Transaction.txnType txn)
  | StatusFilter fin exe =>
      status_accepts fin (Transaction.finalityStatus txn)
      && status_accepts exe (Transaction.executionStatus txn)
  end.

Definition filterTransactions (txns : list Transaction.t) (filters : list TransactionFilter)
  : list Transaction.t :=
  filter (fun txn => forallb (fun f => apply f txn) filters) txns.

(** [address ? num.toBigInt(address) : undefined] *)
Definition optBigInt (address : option string) : result (option Z) :=
  match address with
  | Some a => if JS.truthy a then rmap Some (JS.BigInt a) else Ok None
  | None => Ok None
  end.

Definition getTransactions (state : SnapState) (chainId : string)
    (senderAddress contractAddress : option string)
    (txnType finalityStatus executionStatus : option one_or_many)
    (minTimestamp : option Z) : result (list Transaction.t) :=
  match transactions state with
  | Some txns =>
      sender <- optBigInt senderAddress ;;
      contract <- optBigInt contractAddress ;;
      Ok (filterTransactions txns
            [ ChainIdFilter (JS.Number chainId);
              TimestampFilter minTimestamp;
              SenderAddressFilter sender;
              ContractAddressFilter contract;
              TxnTypeFilter txnType;
              StatusFilter finalityStatus executionStatus ])
  | None => Ok []
  end.

(** ** The host, the lock and the asynchronous operations *)

(** The two [snap_manageState] operations. *)
Inductive request : Type :=
| Get
| Update (newState : SnapState).

(** What an operation does that others can observe, in order. *)
Inductive event : Type :=
| Acquire                       (* [mutex.runExclusive] enters the callback *)
| Release                       (* ... and leaves it, normally or by an exception *)
| Request (r : request).        (* [wallet.request] *)

(** The host keeps the persisted document.  It may reject requests:
    [faults] tells, for the coming requests in order, which ones fail
    ([true]); once the list is used up every request succeeds. *)
Record Wallet : Type := mkWallet {
  persisted : SnapState;
  faults : list bool
}.

(** The environment of a call: the host, the events so far, and the
    variable [state] of the operation ([None] is [undefined]).  When the
    caller supplies a document, the operation mutates that object: the value
    of [state] at the end is what the caller's document has become. *)
Record Env : Type := mkEnv {
  wallet : Wallet;
  events : list event;
  state : option SnapState
}.

Definition M (A : Type) : Type := Env -> result A * Env.

Definition ret {A} (a : A) : M A := fun env => (Ok a, env).

Definition throw {A} (e : error) : M A := fun env => (Throw e, env).

Definition mbind {A B} (m : M A) (k : A -> M B) : M B :=
  fun env =>
    match m env with
    | (Ok a, env') => k a env'
    | (Throw e, env') => (Throw e, env')
    end.

Definition lift {A} (r : result A) : M A := fun env => (r, env).

Declare Scope snap_scope.
Delimit Scope snap_scope with snap.
Notation "x <- r ;; k" := (mbind r (fun x => k))
  (at level 61, r at next level, right associativity) : snap_scope.
Notation "m ;;; k" := (mbind m (fun _ => k))
  (at level 61, right associativity) : snap_scope.

Definition emit (e : event) : M unit :=
  fun env => (Ok tt, mkEnv (wallet env) (events env ++ [e]) (state env)).

Definition setState (s : SnapState) : M unit :=
  fun env => (Ok tt, mkEnv (wallet env) (events env) (Some s)).

(** The host serves a request unless a fault is scheduled for it. *)
Definition serve (r : request) (w : Wallet) : result SnapState * Wallet :=
  let answer fs :=
    match r with
    | Get => (Ok (persisted w), mkWallet (persisted w) fs)
    | Update s => (Ok s, mkWallet s fs)
    end in
  match faults w with
  | true :: fs => (Throw HostError, mkWallet (persisted w) fs)
  | false :: fs => answer fs
  | [] => answer []
  end.

(** [await wallet.request({ method: 'snap_manageState', params })] *)
Definition walletRequest (r : request) : M SnapState :=
  fun env =>
    let '(res, w) := serve r (wallet env) in
    (res, mkEnv w (events env ++ [Request r]) (state env)).

(** [mutex.runExclusive(callback)]: the lock is released on every exit of
    the callback. *)
Definition runExclusive {A} (callback : M A) : M A :=
  fun env =>
    let '(res, env') := (emit Acquire ;;; callback)%snap env in
    (res, snd (emit Release env')).

(** [if (!state) { state = await wallet.request({... operation: 'get' }) }] *)
Definition fetchState : M SnapState :=
  fun env =>
    match state env with
    | Some s => (Ok s, env)
    | None => (s <- walletRequest Get ;; setState s ;;; ret s)%snap env
    end.

(** The document the variable [state] holds (it holds one wherever the
    operations read it: they fetch it first). *)
Definition readState : M SnapState :=
  fun env =>
    match state env with
    | Some s => (Ok s, env)
    | None => (Throw TypeError, env)
    end.

(** [await wallet.request({... operation: 'update', newState: state })] *)
Definition writeBack : M unit :=
  (s <- readState ;; walletRequest (Update s) ;;; ret tt)%snap.

(** The array of a collection that may be absent (after
    [if (!state.xs) { state.xs = []; }]). *)
Definition collection {A} (o : option (list A)) : list A :=
  match o with
  | Some l => l
  | None => []
  end.

#[local] Open Scope snap_scope.

(** *** Accounts *)

Definition mergeAccount (storedAccount userAccount : AccContract.t) : AccContract.t :=
  AccContract.mk
    (AccContract.addressSalt userAccount)
    (AccContract.publicKey userAccount)
    (AccContract.address storedAccount)
    (AccContract.addressIndex userAccount)
    (AccContract.derivationPath userAccount)
    (if JS.truthy (AccContract.deployTxnHash userAccount)
     then AccContract.deployTxnHash userAccount
     else AccContract.deployTxnHash storedAccount)
    (AccContract.chainId storedAccount).

Definition upsertAccount (userAccount : AccContract.t) : M unit :=
  runExclusive (
    s <- fetchState ;;
    storedAccount <- lift (getAccount s (AccContract.address userAccount)
                                        (AccContract.chainId userAccount)) ;;
    match storedAccount with
    | None =>
        setState (set_accContracts s (collection (accContracts s) ++ [userAccount])) ;;;
        writeBack
    | Some (i, stored) =>
        if sameJson AccContract.eq_dec stored userAccount then ret tt
        else
          setState (set_accContracts s
                      (assign i (mergeAccount stored userAccount)
                              (collection (accContracts s)))) ;;;
          writeBack
    end).

(** *** Networks *)

Definition mergeNetwork (storedNetwork network : Network.t) : Network.t :=
  Network.mk
    (Network.name network)
    (Network.chainId storedNetwork)
    (Network.baseUrl network)
    (Network.nodeUrl network)
    (Network.voyagerUrl network)
    (Network.accountClassHash network)
    (Network.useOldAccounts storedNetwork).

Definition upsertNetwork (network : Network.t) : M unit :=
  runExclusive (
    s <- fetchState ;;
    storedNetwork <- lift (getNetwork s (Network.chainId network)) ;;
    match storedNetwork with
    | None =>
        setState (set_networks s (collection (networks s) ++ [network])) ;;;
        writeBack
    | Some (i, stored) =>
        if sameJson Network.eq_dec stored network then ret tt
        else
          setState (set_networks s
                      (assign i (mergeNetwork stored network)
                              (collection (networks s)))) ;;;
          writeBack
    end).

(** *** Tokens *)

Definition mergeErc20Token (storedErc20Token erc20Token : Erc20Token.t) : Erc20Token.t :=
  Erc20Token.mk
    (Erc20Token.address storedErc20Token)
    (Erc20Token.name erc20Token)
    (Erc20Token.symbol erc20Token)
    (Erc20Token.decimals erc20Token)
    (Erc20Token.chainId storedErc20Token).

Definition upsertErc20Token (erc20Token : Erc20Token.t) : M unit :=
  runExclusive (
    s <- fetchState ;;
    storedErc20Token <- lift (getErc20Token s (Erc20Token.address erc20Token)
                                              (Erc20Token.chainId erc20Token)) ;;
    match storedErc20Token with
    | None =>
        setState (set_erc20Tokens s (collection (erc20Tokens s) ++ [erc20Token])) ;;;
        writeBack
    | Some (i, stored) =>
        if sameJson Erc20Token.eq_dec stored erc20Token then ret tt
        else
          setState (set_erc20Tokens s
                      (assign i (mergeErc20Token stored erc20Token)
                              (collection (erc20Tokens s)))) ;;;
          writeBack
    end).

(** *** Transactions *)

Definition mergeTransaction (storedTxn txn : Transaction.t) : Transaction.t :=
  Transaction.mk
    (Transaction.txnHash storedTxn)
    (Transaction.txnType storedTxn)
    (Transaction.chainId storedTxn)
    (Transaction.senderAddress storedTxn)
    (Transaction.contractAddress storedTxn)
    (Transaction.contractFuncName storedTxn)
    (Transaction.contractCallData storedTxn)
    (Transaction.status txn)
    (Transaction.executionStatus txn)
    (Transaction.finalityStatus txn)
    (Transaction.failureReason txn)
    (Transaction.eventIds storedTxn)
    (Transaction.timestamp txn).

Definition upsertTransaction (txn : Transaction.t) : M unit :=
  runExclusive (
    s <- fetchState ;;
    storedTxn <- lift (getTransaction s (Transaction.txnHash txn)
                                        (Transaction.chainId txn)) ;;
    match storedTxn with
    | None =>
        setState (set_transactions s (collection (transactions s) ++ [txn])) ;;;
        writeBack
    | Some (i, stored) =>
        if sameJson Transaction.eq_dec stored txn then ret tt
        else
          setState (set_transactions s
                      (assign i (mergeTransaction stored txn)
                              (collection (transactions s)))) ;;;
          writeBack
    end).

(** [upsertTransactions] pushes the objects of the batch themselves onto
    the array and assigns to the stored objects, so that it matters which
    elements of the batch, and of a document that the caller supplies, are
    one object.  An element of the batch is a transaction object of the
    caller: an identity and the fields the object has at the call. *)
Record TxnObject : Type := mkTxnObject {
  identity : nat;
  fields : Transaction.t
}.

(** The state of the [forEach] loop: the variable [state]; for the elements
    of [state.transactions], in order, which object of the caller each one
    is ([None]: an object that the document alone holds); and the
    assignments made so far to objects of the caller, latest first. *)
Record Loop : Type := mkLoop {
  doc : SnapState;
  who : list (option nat);
  changed : list (nat * Transaction.t)
}.

Fixpoint lookupObject (t : nat) (changed : list (nat * Transaction.t))
  : option Transaction.t :=
  match changed with
  | [] => None
  | (t', x) :: rest => if (t' =? t)%nat then Some x else lookupObject t rest
  end.

(** The fields an object of the batch has when the loop reaches it. *)
Definition current (changed : list (nat * Transaction.t)) (o : TxnObject) : Transaction.t :=
  match lookupObject (identity o) changed with
  | Some x => x
  | None => fields o
  end.

(** [who], as long as the array of [n] elements. *)
Definition pad (n : nat) (who : list (option nat)) : list (option nat) :=
  firstn n who ++ repeat None (n - List.length who).

(** The assignments to the object [t]: every element of the array that is
    this object shows them. *)
Fixpoint assignObject (t : nat) (x : Transaction.t) (who : list (option nat))
    (l : list Transaction.t) : list Transaction.t :=
  match l, who with
  | y :: l', Some t' :: who' =>
      (if (t' =? t)%nat then x else y) :: assignObject t x who' l'
  | y :: l', None :: who' => y :: assignObject t x who' l'
  | _, _ => l
  end.

(** The body of the [forEach] callback of [upsertTransactions]: no
    comparison with the stored record is made. *)
Definition upsertObject (o : TxnObject) (st : Loop) : result Loop :=
  let s := doc st in
  let txn := current (changed st) o in
  rmap
    (fun storedTxn =>
       match storedTxn with
       | None =>
           mkLoop (set_transactions s (collection (transactions s) ++ [txn]))
                  (pad (List.length (collection (transactions s))) (who st)
                   ++ [Some (identity o)])
                  (changed st)
       | Some (i, stored) =>
           let merged := mergeTransaction stored txn in
           match nth i (who st) None with
           | None =>
               mkLoop (set_transactions s (assign i merged (collection (transactions s))))
                      (who st) (changed st)
           | Some t =>
               mkLoop (set_transactions s
                         (assignObject t merged (who st) (collection (transactions s))))
                      (who st) ((t, merged) :: changed st)
           end
       end)
    (getTransaction s (Transaction.txnHash txn) (Transaction.chainId txn)).

(** [txns.forEach(callback)]: an exception ends the loop. *)
Fixpoint forEach (txns : list TxnObject) (st : Loop) : result unit * Loop :=
  match txns with
  | [] => (Ok tt, st)
  | o :: rest =>
      match upsertObject o st with
      | Ok st' => forEach rest st'
      | Throw e => (Throw e, st)
      end
  end.

(** [upsertTransactions(txns, wallet, mutex, state)] on a batch of objects;
    [held] tells which objects of the caller the transaction array of the
    supplied document holds (it is not read when the document is fetched:
    the document of the host holds objects of its own). *)
Definition upsertTransactionObjects (held : list (option nat)) (txns : list TxnObject)
  : M unit :=
  fun env =>
    runExclusive (
      s <- fetchState ;;
      let who := match state env with Some _ => held | None => [] end in
      let '(res, st) := forEach txns (mkLoop s who []) in
      setState (doc st) ;;;
      lift res ;;;
      writeBack) env.

(** A batch of distinct objects with the given fields. *)
Fixpoint distinct (k : nat) (txns : list Transaction.t) : list TxnObject :=
  match txns with
  | [] => []
  | txn :: rest => mkTxnObject k txn :: distinct (S k) rest
  end.

(** [upsertTransactions] on a batch of distinct objects, none of which the
    supplied document holds: the batch is given by the fields of its
    objects. *)
Definition upsertTransactions (txns : list Transaction.t) : M unit :=
  upsertTransactionObjects [] (distinct 0 txns).

(** *** Pruning *)

Definition status_is (st : option string) (v : string) : bool :=
  match st with
  | Some s => (s =? v)%string
  | None => false
  end.

(** The callback of the [filter] in [removeAcceptedTransaction]: the
    transactions that stay. *)
Definition retained (minTimeStamp : Z) (txn : Transaction.t) : bool :=
  let fs := Transaction.finalityStatus txn in
  (negb (status_is fs TransactionStatus.ACCEPTED_ON_L2)
   && negb (status_is fs TransactionStatus.ACCEPTED_ON_L1))
  || (status_is fs TransactionStatus.ACCEPTED_ON_L2
      && JS.geb (JS.mul (JS.of_Z (Transaction.timestamp txn)) (JS.of_Z 1000))
                (JS.of_Z minTimeStamp)).

Definition removeAcceptedTransaction (minTimeStamp : Z) : M unit :=
  runExclusive (
    s <- fetchState ;;
    match transactions s with
    | None => throw TypeError
    | Some txns =>
        setState (set_transactions s (filter (retained minTimeStamp) txns)) ;;;
        writeBack
    end).

(** A call of an operation on a host, with the optional document argument;
    no event has happened yet. *)
Definition call {A} (op : M A) (w : Wallet) (st : option SnapState) : result A * Env :=
  op (mkEnv w [] st).

(** The update requests among the events: the host write-backs. *)
Fixpoint writeBacks (evs : list event) : list SnapState :=
  match evs with
  | Request (Update s) :: evs' => s :: writeBacks evs'
  | _ :: evs' => writeBacks evs'
  | [] => []
  end.

(** ** Auxiliary notions used in the statements *)

Definition no_space (c : ascii) : Prop := JS.is_space c = false.

(** The characters of a sequence of decimal, respectively hexadecimal,
    digits. *)
Definition dec_digits (d : Decimal.uint) : list ascii :=
  list_ascii_of_string (DecimalString.NilEmpty.string_of_uint d).

Definition hex_digits (d : Hexadecimal.uint) : list ascii :=
  list_ascii_of_string (HexadecimalString.NilEmpty.string_of_uint d).

(** A string that [BigInt] reads as an integer. *)
Definition numeric (s : string) : Prop := exists z, JS.BigInt s = Ok z.

(** Two strings that [BigInt] reads as one integer, and two strings that
    [Number] reads as one number. *)
Definition same_integer (a b : string) : Prop :=
  exists n, JS.BigInt a = Ok n /\ JS.BigInt b = Ok n.

Definition same_number (a b : string) : Prop :=
  JS.Number a = JS.Number b /\ JS.Number b <> JS.NaN.

(** Two records have the same natural key: their addresses (or hashes) are
    the same integer and their chain ids the same number. *)
Definition same_key {R} (key chain : R -> string) (x y : R) : Prop :=
  same_integer (key x) (key y) /\ same_number (chain x) (chain y).


(** [l1] is a subsequence of [l2]: some elements of [l2], in their order. *)
Inductive subseq {A : Type} : list A -> list A -> Prop :=
| subseq_nil : subseq [] []
| subseq_skip x l1 l2 : subseq l1 l2 -> subseq l1 (x :: l2)
| subseq_keep x l1 l2 : subseq l1 l2 -> subseq (x :: l1) (x :: l2).

(** A status configuration holds of an optional status. *)
Definition status_among (cfg : option one_or_many) (st : option string) : Prop :=
  forall c, cfg = Some c -> exists v, st = Some v /\ accepts c v = true.

(** The conjunction of the predicates of a transaction query; a predicate
    whose configuration is unset holds of every transaction. *)
Definition passes (chainId : string) (senderAddress contractAddress : option string)
    (txnType finalityStatus executionStatus : option one_or_many)
    (minTimestamp : option Z) (txn : Transaction.t) : Prop :=
  JS.number_eqb (JS.Number (Transaction.chainId txn)) (JS.Number chainId) = true
  /\ (forall min, minTimestamp = Some min -> min <= Transaction.timestamp txn * 1000)
  /\ (forall a, senderAddress = Some a -> a <> EmptyString ->
                JS.BigInt (Transaction.senderAddress txn) = JS.BigInt a)
  /\ (forall a, contractAddress = Some a -> a <> EmptyString ->
                JS.BigInt (Transaction.contractAddress txn) = JS.BigInt a)
  /\ (forall c, txnType = Some c -> accepts c (Transaction.txnType txn) = true)
  /\ status_among finalityStatus (Transaction.finalityStatus txn)
  /\ status_among executionStatus (Transaction.executionStatus txn).

(** The current network of a chain: its chain id is the same number, and it
    is not flagged as using old accounts. *)
Definition current_for (chainId : string) (n : Network.t) : Prop :=
  same_number (Network.chainId n) chainId
  /\ Network.useOldAccounts n <> Some true.

(** The outcome of the lookup of the current network of a chain: the first
    stored network that is current for it, by reference, or the error that
    names the chain when no stored network is. *)
Definition found_or_error (s : SnapState) (chainId : string)
    (outcome : result (ref Network.t)) : Prop :=
  match outcome with
  | Ok (i, n) =>
      nth_error (collection (networks s)) i = Some n /\
      current_for chainId n /\
      (forall j m, (j < i)%nat -> nth_error (collection (networks s)) j = Some m ->
                   ~ current_for chainId m)
  | Throw e =>
      e = NetworkNotFound chainId /\
      (forall m, In m (collection (networks s)) -> ~ current_for chainId m)
  end.

(** The document an operation works on: the one the caller supplies, else
    the persisted one, provided the host answers the [get] request. *)
Definition document (w : Wallet) (st : option SnapState) : option SnapState :=
  match st with
  | Some s => Some s
  | None =>
      match faults w with
      | true :: _ => None
      | _ => Some (persisted w)
      end
  end.

(** The request that fetching the document issues, and the host after it. *)
Definition fetched (st : option SnapState) : list event :=
  match st with
  | Some _ => []
  | None => [Request Get]
  end.

Definition afterFetch (w : Wallet) (st : option SnapState) : Wallet :=
  match st with
  | Some _ => w
  | None => mkWallet (persisted w) (tl (faults w))
  end.

(** The end of an operation that leaves the critical section without a
    request to the host, and of one that writes the document [s'] back. *)
Definition leaves {A} (res : result A) (w : Wallet) (st : option SnapState)
    (s : SnapState) : result A * Env :=
  (res, mkEnv (afterFetch w st) (Acquire :: fetched st ++ [Release]) (Some s)).

Definition writesBack (w : Wallet) (st : option SnapState) (s' : SnapState)
  : result unit * Env :=
  let '(res, w') := serve (Update s') (afterFetch w st) in
  (rmap (fun _ => tt) res,
   mkEnv w' (Acquire :: fetched st ++ [Request (Update s'); Release]) (Some s')).

(** The four upserts are one algorithm, instantiated by the locator of the
    record kind, its merge and its collection. *)
Section UpsertRecord.

Variable R : Type.
Variable eq_dec : forall a b : R, {a = b} + {a <> b}.
Variable locate : SnapState -> R -> result (option (ref R)).
Variable merge : R -> R -> R.
Variable getC : SnapState -> option (list R).
Variable setC : SnapState -> list R -> SnapState.

Definition upsertRecord (r : R) : M unit :=
  runExclusive (
    s <- fetchState ;;
    stored <- lift (locate s r) ;;
    match stored with
    | None => setState (setC s (collection (getC s) ++ [r])) ;;; writeBack
    | Some (i, old) =>
        if sameJson eq_dec old r then ret tt
        else setState (setC s (assign i (merge old r) (collection (getC s)))) ;;;
             writeBack
    end).

End UpsertRecord.

(** The locators by address or hash and chain are one lookup. *)
Definition locateBy {R} (key chain : R -> string) (l : option (list R))
    (k c : string) : result (option (ref R)) :=
  rbind (JS.BigInt k)
        (fun big => find_opt (fun x => key_matches (key x) big (chain x) c) l).

(** The same operation called again right after a first call: on the
    caller's document as the first call left it, or with no document when
    the first call was given none. *)
Definition again {A} (op : M A) (w : Wallet) (st : option SnapState) : result A * Env :=
  let env1 := snd (call op w st) in
  call op (wallet env1) (match st with Some _ => state env1 | None => None end).

(** The outcome of a call issued no write-back. *)
Definition no_write_back {A} (outcome : result A * Env) : Prop :=
  writeBacks (events (snd outcome)) = [].

(** Two calls in succession complete, the first one with one write-back,
    the second one with none. *)
Definition once_then_skip (op : M unit) (w : Wallet) (st : option SnapState) : Prop :=
  fst (call op w st) = Ok tt /\
  fst (again op w st) = Ok tt /\
  List.length (writeBacks (events (snd (call op w st)))) = 1%nat /\
  no_write_back (again op w st).

(** The callback of [upsertTransactions] on a transaction whose object is
    not held by the document, as a function of the document; and the
    callback applied in turn to every transaction of a batch of distinct
    such objects. *)
Definition upsertInto (txn : Transaction.t) (s : SnapState) : result SnapState :=
  rmap
    (fun storedTxn =>
       match storedTxn with
       | None => set_transactions s (collection (transactions s) ++ [txn])
       | Some (i, stored) =>
           set_transactions s
             (assign i (mergeTransaction stored txn) (collection (transactions s)))
       end)
    (getTransaction s (Transaction.txnHash txn) (Transaction.chainId txn)).

Fixpoint upsertAll (txns : list Transaction.t) (s : SnapState) : result SnapState :=
  match txns with
  | [] => Ok s
  | txn :: rest => rbind (upsertInto txn s) (upsertAll rest)
  end.

(** The loop has met no object of identity [k] or above, and no two
    elements of the array are one object of the caller. *)
Definition fresh_from (k : nat) (st : Loop) : Prop :=
  (forall i t, nth i (who st) None = Some t -> (t < k)%nat) /\
  (forall i j t, nth i (who st) None = Some t -> nth j (who st) None = Some t -> i = j) /\
  (forall t x, In (t, x) (changed st) -> (t < k)%nat) /\
  (List.length (who st) <= List.length (collection (transactions (doc st))))%nat.

(** *** The batch upsert, as the specification describes it

    Locate, then insert or merge (section 4.4, steps 3 to 5, without the
    comparison): a stored transaction has the natural key of the incoming
    one when its hash is the same integer and its chain id the same number;
    the first such record takes the mutable fields of the incoming one
    (section 3); when there is none, the incoming transaction is appended.
    The records passed over have hashes that are integer literals. *)
Definition other_key (txn stored : Transaction.t) : Prop :=
  numeric (Transaction.txnHash stored)
  /\ ~ same_key Transaction.txnHash Transaction.chainId stored txn.

Definition merged_with (stored txn r : Transaction.t) : Prop :=
  Transaction.txnHash r = Transaction.txnHash stored
  /\ Transaction.txnType r = Transaction.txnType stored
  /\ Transaction.chainId r = Transaction.chainId stored
  /\ Transaction.senderAddress r = Transaction.senderAddress stored
  /\ Transaction.contractAddress r = Transaction.contractAddress stored
  /\ Transaction.contractFuncName r = Transaction.contractFuncName stored
  /\ Transaction.contractCallData r = Transaction.contractCallData stored
  /\ Transaction.eventIds r = Transaction.eventIds stored
  /\ Transaction.status r = Transaction.status txn
  /\ Transaction.executionStatus r = Transaction.executionStatus txn
  /\ Transaction.finalityStatus r = Transaction.finalityStatus txn
  /\ Transaction.failureReason r = Transaction.failureReason txn
  /\ Transaction.timestamp r = Transaction.timestamp txn.

Inductive upserted (txn : Transaction.t) : list Transaction.t -> list Transaction.t -> Prop :=
| upserted_insert l :
    numeric (Transaction.txnHash txn) ->
    Forall (other_key txn) l ->
    upserted txn l (l ++ [txn])
| upserted_merge before stored after r :
    Forall (other_key txn) before ->
    same_key Transaction.txnHash Transaction.chainId stored txn ->
    merged_with stored txn r ->
    upserted txn (before ++ stored :: after) (before ++ r :: after).

Inductive upsertedAll : list Transaction.t -> list Transaction.t -> list Transaction.t -> Prop :=
| upsertedAll_nil l : upsertedAll [] l l
| upsertedAll_cons txn txns l l1 l2 :
    upserted txn l l1 -> upsertedAll txns l1 l2 -> upsertedAll (txn :: txns) l l2.

(** The document with the transactions [l'] after a batch; an empty batch
    leaves the document as it is, also without a transaction collection. *)
Definition written (s : SnapState) (txns : list Transaction.t) (l' : list Transaction.t)
  : SnapState :=
  match txns with
  | [] => s
  | _ => set_transactions s l'
  end.

(** The integers as binary64 holds them. *)

(** The integer nearest to [n] that a binary64 value holds, ties to even. *)
Definition nearest (n : Z) : Z :=
  let e := Z.log2 n in
  if e <? 53 then n
  else JS.round_half_even n (2 ^ (e - 52)) * 2 ^ (e - 52).

(** The integer [z] rounded to binary64; beyond the largest finite value
    the result is an infinity, which counts as [2 ^ 1024]. *)
Definition rounded (z : Z) : Z := Z.sgn z * Z.min (nearest (Z.abs z)) (2 ^ 1024).

(** An integer-valued number or an infinity, and its integer value. *)
Definition integral (x : JS.number) : Prop :=
  match x with
  | JS.NaN => False
  | JS.Inf _ => True
  | JS.Fin m e => 0 <= e /\ Z.abs (m * 2 ^ e) < 2 ^ 1024
  end.

Definition rank (x : JS.number) : Z :=
  match x with
  | JS.NaN => 0
  | JS.Inf neg => if neg then - 2 ^ 1024 else 2 ^ 1024
  | JS.Fin m e => m * 2 ^ e
  end.

(** What the specification says pruning removes: a transaction accepted on
    either finality tier whose timestamp, in milliseconds, is below the
    cutoff. *)
Definition accepted_before (minTimeStamp : Z) (txn : Transaction.t) : Prop :=
  (Transaction.finalityStatus txn = Some TransactionStatus.ACCEPTED_ON_L2
   \/ Transaction.finalityStatus txn = Some TransactionStatus.ACCEPTED_ON_L1)
  /\ Transaction.timestamp txn * 1000 < minTimeStamp.

(** What it removes: a transaction accepted on L1, whatever its timestamp,
    or accepted on L2 with a timestamp that, multiplied by 1000 in binary64
    arithmetic, is below the cutoff. *)
Definition pruned (minTimeStamp : Z) (txn : Transaction.t) : Prop :=
  Transaction.finalityStatus txn = Some TransactionStatus.ACCEPTED_ON_L1
  \/ (Transaction.finalityStatus txn = Some TransactionStatus.ACCEPTED_ON_L2
      /\ rounded (rounded (Transaction.timestamp txn) * 1000) < rounded minTimeStamp).

(** ** Sample data *)

Module Sample.

(** An account stored under the decimal spelling of its address. *)
Definition account : AccContract.t :=
  AccContract.mk "0x0" "0x2" "1" 0 "m/44'/9004'/0'/0/0" "" "1".

(** An account with the same natural key, spelled in hexadecimal, and
    other values in the remaining fields. *)
Definition account_hex : AccContract.t :=
  AccContract.mk "0x5" "0x3" "0x1" 3 "m/44'/9004'/0'/0/3" "" "0x1".

Definition empty : SnapState := mkSnapState None None None None.

Definition withAccount : SnapState := mkSnapState (Some [account]) None None None.

Definition txn (hash chain sender : string) (finality : string) (ts : Z) : Transaction.t :=
  Transaction.mk hash "invoke" chain sender "0x7" "transfer" [] None
                 (Some "SUCCEEDED"%string) (Some finality) "" [] ts.

(** The transactions of the pruning example, and one accepted on L1. *)
Definition old_l2 : Transaction.t := txn "0x10" "1" "0xa" "ACCEPTED_ON_L2" 50.
Definition recent_l2 : Transaction.t := txn "0x11" "1" "0xb" "ACCEPTED_ON_L2" 150.
Definition pending : Transaction.t := txn "0x12" "2" "0xa" "PENDING" 10.
Definition recent_l1 : Transaction.t := txn "0x13" "1" "0xa" "ACCEPTED_ON_L1" 150.

Definition withTransactions : SnapState :=
  mkSnapState None None None (Some [old_l2; recent_l2; pending; recent_l1]).

(** A host that answers every request. *)
Definition host (s : SnapState) : Wallet := mkWallet s [].

End Sample.

(** * Further notions and operations *)

(** ** Outcomes of an operation *)

Definition is_request (e : event) : Prop := exists r, e = Request r.

(** The lock is taken first and released last, and only requests to the
    host happen in between. *)
Definition bracketed (evs : list event) : Prop :=
  exists mid, evs = Acquire :: mid ++ [Release] /\ Forall is_request mid.

(** The outcome of an operation whose [get] request the host rejects. *)
Definition fetchFails {A} (w : Wallet) : result A * Env :=
  (Throw HostError,
   mkEnv (mkWallet (persisted w) (tl (faults w))) [Acquire; Request Get; Release] None).

(** An operation is a critical section on one document: when the document
    cannot be fetched it ends there; else it raises an error without a
    write-back, or returns without touching the document, or issues one
    write-back, last. *)
Definition critical (op : M unit) : Prop :=
  forall w st,
    match document w st with
    | Some s =>
        (exists e s0, call op w st = leaves (Throw e) w st s0)
        \/ call op w st = leaves (Ok tt) w st s
        \/ (exists s', call op w st = writesBack w st s')
    | None => call op w st = fetchFails w
    end.

(** The mutating operations of the module. *)
Inductive operation : Type :=
| UpsertAccount (userAccount : AccContract.t)
| UpsertNetwork (network : Network.t)
| UpsertErc20Token (erc20Token : Erc20Token.t)
| UpsertTransaction (txn : Transaction.t)
| UpsertTransactions (txns : list Transaction.t)
| RemoveAcceptedTransaction (minTimeStamp : Z).

Definition perform (o : operation) : M unit :=
  match o with
  | UpsertAccount userAccount => upsertAccount userAccount
  | UpsertNetwork network => upsertNetwork network
  | UpsertErc20Token erc20Token => upsertErc20Token erc20Token
  | UpsertTransaction txn => upsertTransaction txn
  | UpsertTransactions txns => upsertTransactions txns
  | RemoveAcceptedTransaction minTimeStamp => removeAcceptedTransaction minTimeStamp
  end.

(** ** Natural keys *)

(** No record of the array is related to a later one. *)
Definition unique_by {A} (rel : A -> A -> Prop) (l : list A) : Prop :=
  forall i j x y,
    (i < j)%nat -> nth_error l i = Some x -> nth_error l j = Some y -> ~ rel x y.

(** A record whose address or hash is an integer literal and whose chain
    id is a number. *)
Definition well_keyed {R} (key chain : R -> string) (x : R) : Prop :=
  numeric (key x) /\ JS.Number (chain x) <> JS.NaN.

(** No two records of the array have one natural key: addresses or hashes
    that [BigInt] reads alike and chain ids that [Number] reads alike. *)
Definition distinct_keys {R} (key chain : R -> string) (l : list R) : Prop :=
  unique_by (fun x y => JS.BigInt (key x) = JS.BigInt (key y)
                        /\ JS.Number (chain x) = JS.Number (chain y)) l.


(** The array [new] is [old] with every record at its place, up to the
    fields a merge may change, and at most [n] records appended. *)
Definition extends_by {A} (n : nat) (same_identity : A -> A -> Prop) (old new : list A)
  : Prop :=
  (List.length old <= List.length new <= List.length old + n)%nat
  /\ forall j x, nth_error old j = Some x ->
                 exists y, nth_error new j = Some y /\ same_identity x y.

(** The fields of a record that no merge changes. *)
Definition account_identity (x y : AccContract.t) : Prop :=
  AccContract.address y = AccContract.address x
  /\ AccContract.chainId y = AccContract.chainId x.

Definition network_identity (x y : Network.t) : Prop :=
  Network.chainId y = Network.chainId x
  /\ Network.useOldAccounts y = Network.useOldAccounts x.

Definition token_identity (x y : Erc20Token.t) : Prop :=
  Erc20Token.address y = Erc20Token.address x
  /\ Erc20Token.chainId y = Erc20Token.chainId x.

Definition transaction_identity (x y : Transaction.t) : Prop :=
  Transaction.txnHash y = Transaction.txnHash x
  /\ Transaction.chainId y = Transaction.chainId x
  /\ Transaction.txnType y = Transaction.txnType x
  /\ Transaction.senderAddress y = Transaction.senderAddress x
  /\ Transaction.contractAddress y = Transaction.contractAddress x
  /\ Transaction.contractFuncName y = Transaction.contractFuncName x
  /\ Transaction.contractCallData y = Transaction.contractCallData x
  /\ Transaction.eventIds y = Transaction.eventIds x.

(** The accounts of an array ordered by [addressIndex]. *)
Definition by_addressIndex (a b : AccContract.t) : Prop :=
  AccContract.addressIndex a <= AccContract.addressIndex b.

(** ** Validation of request parameters *)

(** [String.prototype.trim] *)
Definition String_trim (s : string) : string :=
  string_of_list_ascii (JS.trim (list_ascii_of_string s)).

(** A character of the class [[ -~]]. *)
Definition printable (c : ascii) : bool :=
  (32 <=? JS.code c) && (JS.code c <=? 126).

(** [/^[ -~]+$/.test(str)] *)
Definition hasOnlyAsciiChars (str : string) : bool :=
  match list_ascii_of_string str with
  | [] => false
  | cs => forallb printable cs
  end.

Definition isValidAsciiStrField (fieldStr : string) (maxLength : Z) : bool :=
  hasOnlyAsciiChars fieldStr
  && (0 <? Z.of_nat (String.length (String_trim fieldStr)))
  && (Z.of_nat (String.length fieldStr) <=? maxLength).

(** A character of the class [[0-9a-fA-F]]. *)
Definition is_hex_digit (c : ascii) : bool :=
  match JS.digit_in 16 c with
  | Some _ => true
  | None => false
  end.

(** [/^0x[0-9a-fA-F]+$/.test(str)] *)
Definition isHexWithPrefix (str : string) : bool :=
  match list_ascii_of_string str with
  | "0"%char :: "x"%char :: d :: ds => forallb is_hex_digit (d :: ds)
  | _ => false
  end.

(** The request parameters that the validations read (of the types
    [AddErc20TokenRequestParams] and [AddNetworkRequestParams]). *)
Record AddErc20TokenRequestParams : Type := mkAddErc20TokenRequestParams {
  tokenAddress : string;
  tokenName : string;
  tokenSymbol : string
}.

Record AddNetworkRequestParams : Type := mkAddNetworkRequestParams {
  networkName : string;
  networkChainId : string;
  networkBaseUrl : string;
  networkNodeUrl : string;
  networkVoyagerUrl : option string;
  accountClassHash : option string
}.

(** The errors that the validations throw themselves, by their message. *)
Inductive rejection : Type :=
| InvalidTokenAddress (tokenAddress : string)
| InvalidTokenName (tokenName : string)
| InvalidTokenSymbol (tokenSymbol : string)
| PreloadedToken
| InvalidNetworkName (networkName : string)
| ChainIdNotHex (networkChainId : string)
| InvalidBaseUrl (networkBaseUrl : string)
| InvalidNodeUrl (networkNodeUrl : string)
| InvalidVoyagerUrl (networkVoyagerUrl : string)
| InvalidAccountClassHash (accountClassHash : string)
| PreloadedNetwork.

(** A validation returns, throws one of its own errors, or lets an error of
    a conversion escape. *)
Inductive validation : Type :=
| Accepted
| Rejected (why : rejection)
| Raised (e : error).

(** [Boolean(xs.find(p))] *)
Definition found {A} (p : A -> result bool) (xs : list A) : result bool :=
  rmap (fun r => match r with Some _ => true | None => false end) (find p xs).

(** [if (failed) { throw new Error(why); }], then the rest. *)
Definition check (failed : bool) (why : rejection) (rest : validation) : validation :=
  if failed then Rejected why else rest.

(** [if (value && bad(value)) { throw new Error(why(value)); }] for an
    optional parameter, then the rest. *)
Definition checkGiven (value : option string) (bad : string -> bool)
    (why : string -> rejection) (rest : validation) : validation :=
  match value with
  | Some v => check (JS.truthy v && bad v) (why v) rest
  | None => rest
  end.

Section Validation.

(** The constants of the constants module, and the two helpers that are not
    part of this module: the protocol of [new URL(urlStr)] ([None] when the
    constructor throws) and whether [validateAndParseAddress] returns. *)
Variable MAXIMUM_NETWORK_NAME_LENGTH : Z.
Variable MAXIMUM_TOKEN_NAME_LENGTH : Z.
Variable MAXIMUM_TOKEN_SYMBOL_LENGTH : Z.
Variable PRELOADED_NETWORKS : list Network.t.
Variable PRELOADED_TOKENS : list Erc20Token.t.
Variable URL_protocol : string -> option string.
Variable validateAndParseAddress : string -> bool.

Definition isValidHttpUrl (urlStr : string) : bool :=
  match URL_protocol urlStr with
  | None => false
  | Some protocol => (protocol =? "http:")%string || (protocol =? "https:")%string
  end.

Definition isValidTokenName (tokenName : string) : bool :=
  isValidAsciiStrField tokenName MAXIMUM_TOKEN_NAME_LENGTH.

Definition isValidTokenSymbol (tokenSymbol : string) : bool :=
  isValidAsciiStrField tokenSymbol MAXIMUM_TOKEN_SYMBOL_LENGTH.

Definition isValidNetworkName (networkName : string) : bool :=
  isValidAsciiStrField networkName MAXIMUM_NETWORK_NAME_LENGTH.

Definition isPreloadedTokenName (tokenName chainId : string) : bool :=
  existsb (fun token =>
             (String_trim (Erc20Token.name token) =? String_trim tokenName)%string
             && same_chain (Erc20Token.chainId token) chainId)
          PRELOADED_TOKENS.

Definition isPreloadedTokenSymbol (tokenSymbol chainId : string) : bool :=
  existsb (fun token =>
             (String_trim (Erc20Token.symbol token) =? String_trim tokenSymbol)%string
             && same_chain (Erc20Token.chainId token) chainId)
          PRELOADED_TOKENS.

Definition isPreloadedTokenAddress (tokenAddress chainId : string) : result bool :=
  rbind (JS.BigInt tokenAddress)
        (fun bigIntTokenAddress =>
           found (fun token => key_matches (Erc20Token.address token) bigIntTokenAddress
                                           (Erc20Token.chainId token) chainId)
                 PRELOADED_TOKENS).

Definition isPreloadedNetworkChainId (networkChainId : string) : result bool :=
  rbind (JS.BigInt networkChainId)
        (fun bigIntNetworkChainId =>
           found (fun network => bigint_is (Network.chainId network) bigIntNetworkChainId)
                 PRELOADED_NETWORKS).

Definition isPreloadedNetworkName (networkName : string) : bool :=
  existsb (fun network =>
             (String_trim (Network.name network) =? String_trim networkName)%string)
          PRELOADED_NETWORKS.

Definition validateAddErc20TokenParams (params : AddErc20TokenRequestParams)
    (network : Network.t) : validation :=
  check (negb (validateAndParseAddress (tokenAddress params)))
        (InvalidTokenAddress (tokenAddress params))
  (check (negb (isValidTokenName (tokenName params)))
         (InvalidTokenName (tokenName params))
  (check (negb (isValidTokenSymbol (tokenSymbol params)))
         (InvalidTokenSymbol (tokenSymbol params))
  match isPreloadedTokenAddress (tokenAddress params) (Network.chainId network) with
  | Throw e => Raised e
  | Ok preloadedAddress =>
      check (preloadedAddress
             || isPreloadedTokenName (tokenName params) (Network.chainId network)
             || isPreloadedTokenSymbol (tokenSymbol params) (Network.chainId network))
            PreloadedToken
            Accepted
  end)).

Definition validateAddNetworkParams (params : AddNetworkRequestParams) : validation :=
  check (negb (isValidNetworkName (networkName params)))
        (InvalidNetworkName (networkName params))
  (check (negb (isHexWithPrefix (networkChainId params)))
         (ChainIdNotHex (networkChainId params))
  (check (JS.truthy (networkBaseUrl params)
          && negb (isValidHttpUrl (networkBaseUrl params)))
         (InvalidBaseUrl (networkBaseUrl params))
  (check (JS.truthy (networkNodeUrl params)
          && negb (isValidHttpUrl (networkNodeUrl params)))
         (InvalidNodeUrl (networkNodeUrl params))
  (checkGiven (networkVoyagerUrl params)
              (fun url => negb (isValidHttpUrl url)) InvalidVoyagerUrl
  (checkGiven (accountClassHash params)
              (fun hash => negb (validateAndParseAddress hash)) InvalidAccountClassHash
  match isPreloadedNetworkChainId (networkChainId params) with
  | Throw e => Raised e
  | Ok preloadedChainId =>
      check (preloadedChainId || isPreloadedNetworkName (networkName params))
            PreloadedNetwork
            Accepted
  end))))).

End Validation.


(** ** [toMap]

    A [Map] as its entries in insertion order: [set] replaces the value of
    a key that is present, in place, and appends an entry for a new key.
    Keys are compared by SameValueZero, which is equality on the keys
    modelled here.  [key] reads the property [obj[key]]. *)

Section ToMap.

Context {k v z : Type}.
Variable k_eq_dec : forall a b : k, {a = b} + {a <> b}.

Fixpoint Map_set (map : list (k * v)) (key : k) (value : v) : list (k * v) :=
  match map with
  | [] => [(key, value)]
  | (key', value') :: rest =>
      if k_eq_dec key' key then (key', value) :: rest
      else (key', value') :: Map_set rest key value
  end.

Fixpoint Map_get (map : list (k * v)) (key : k) : option v :=
  match map with
  | [] => None
  | (key', value) :: rest =>
      if k_eq_dec key' key then Some value else Map_get rest key
  end.

(** [toMap(arr, key, keyConverter)]; without a converter the property itself
    is the key, which is the case of the identity as [keyConverter]. *)
Definition toMap (arr : list v) (key : v -> z) (keyConverter : z -> k) : list (k * v) :=
  fold_left (fun map obj => Map_set map (keyConverter (key obj)) obj) arr [].

End ToMap.

(** * Properties *)

Unset Implicit Arguments.

(** ** Spellings of a number

    The decimal and the hexadecimal spelling of a natural number are read
    back as that number by [BigInt] and by [Number]. *)

Section Spellings.

Lemma drop_spaces_no_space cs : Forall no_space cs -> JS.drop_spaces cs = cs.
Proof.
  intros H. destruct H as [|c cs Hc _]; [reflexivity|].
  simpl. unfold no_space in Hc. now rewrite Hc.
Qed.

Lemma trim_no_space cs : Forall no_space cs -> JS.trim cs = cs.
Proof.
  intros H. unfold JS.trim.
  rewrite (drop_spaces_no_space _ H).
  rewrite drop_spaces_no_space by now apply Forall_rev.
  apply rev_involutive.
Qed.

Lemma dec_digits_no_space d : Forall no_space (dec_digits d).
Proof.
  induction d; simpl; constructor; solve [reflexivity | assumption].
Qed.

Lemma hex_digits_no_space d : Forall no_space (hex_digits d).
Proof.
  induction d; simpl; constructor; solve [reflexivity | assumption].
Qed.

Lemma digits_acc_cons base acc c cs v :
  JS.digit_in base c = Some v ->
  JS.digits_acc base acc (c :: cs) = JS.digits_acc base (acc * base + v) cs.
Proof. intros H. simpl. now rewrite H. Qed.

Ltac fold_digits :=
  repeat match goal with
    | |- context [list_ascii_of_string (DecimalString.NilEmpty.string_of_uint ?d)] =>
        fold (dec_digits d)
    | |- context [list_ascii_of_string (HexadecimalString.NilEmpty.string_of_uint ?d)] =>
        fold (hex_digits d)
    end.

Ltac head_digit :=
  unfold dec_digits, hex_digits;
  cbn [DecimalString.NilEmpty.string_of_uint
       HexadecimalString.NilEmpty.string_of_uint list_ascii_of_string];
  fold_digits.

Ltac next_digit :=
  head_digit;
  match goal with
  | |- context [JS.digits_acc ?b ?a (?c :: ?cs)] =>
      let v := eval vm_compute in (JS.digit_in b c) in
      match v with
      | Some ?z => rewrite (@digits_acc_cons b a c cs z eq_refl)
      end
  end;
  cbn [Pos.of_uint_acc Pos.of_uint N.of_uint
       Pos.of_hex_uint_acc Pos.of_hex_uint N.of_hex_uint Z.of_N].

Lemma dec_digits_acc d : forall acc,
  JS.digits_acc 10 (Zpos acc) (dec_digits d) = Some (Zpos (Pos.of_uint_acc d acc)).
Proof.
  induction d; intros acc; [reflexivity | next_digit; rewrite <- IHd; f_equal; lia ..].
Qed.

Lemma dec_digits_value d :
  JS.digits_acc 10 0 (dec_digits d) = Some (Z.of_N (N.of_uint d)).
Proof.
  induction d; [reflexivity | next_digit ..];
    [exact IHd | rewrite <- dec_digits_acc; reflexivity ..].
Qed.

Lemma hex_digits_acc d : forall acc,
  JS.digits_acc 16 (Zpos acc) (hex_digits d) = Some (Zpos (Pos.of_hex_uint_acc d acc)).
Proof.
  induction d; intros acc; [reflexivity | next_digit; rewrite <- IHd; f_equal; lia ..].
Qed.

Lemma hex_digits_value d :
  JS.digits_acc 16 0 (hex_digits d) = Some (Z.of_N (N.of_hex_uint d)).
Proof.
  induction d; [reflexivity | next_digit ..];
    [exact IHd | rewrite <- hex_digits_acc; reflexivity ..].
Qed.

Lemma span_dec_digits d : JS.span_dec (dec_digits d) = (dec_digits d, []).
Proof.
  induction d; [reflexivity | ..];
    head_digit; cbn [JS.span_dec];
    match goal with
    | |- context [JS.digit_in 10 ?c] =>
        let v := eval vm_compute in (JS.digit_in 10 c) in
        change (JS.digit_in 10 c) with v
    end; cbv iota; now rewrite IHd.
Qed.

Lemma BigInt_dec_digits d :
  d <> Decimal.Nil ->
  JS.BigInt_literal (dec_digits d) = Ok (Z.of_N (N.of_uint d)).
Proof.
  intros Hd. pose proof (dec_digits_value d) as Hv.
  destruct d as [|d|d|d|d|d|d|d|d|d|d]; [congruence | ..];
    revert Hv; unfold JS.BigInt_literal, JS.digits; head_digit; intros Hv;
    try (change (JS.radix_prefix _) with (@None (Z * list ascii));
         cbv iota; rewrite Hv; reflexivity).
  (* a leading zero: the next character is a decimal digit, not a radix letter *)
  rewrite Hv. destruct d; reflexivity.
Qed.

Lemma BigInt_hex_digits d :
  d <> Hexadecimal.Nil ->
  JS.BigInt_literal ("0" :: "x" :: hex_digits d)%char = Ok (Z.of_N (N.of_hex_uint d)).
Proof.
  intros Hd. unfold JS.BigInt_literal.
  change (JS.radix_prefix _) with (Some (16, hex_digits d)). cbv iota.
  unfold JS.digits. rewrite hex_digits_value.
  destruct d; [congruence | reflexivity ..].
Qed.

Lemma Number_dec_digits d :
  d <> Decimal.Nil ->
  JS.Number_literal (dec_digits d) = JS.of_Z (Z.of_N (N.of_uint d)).
Proof.
  intros Hd.
  assert (Hlit : JS.decimal_literal (dec_digits d) = Some (Z.of_N (N.of_uint d), 0)).
  { unfold JS.decimal_literal. rewrite span_dec_digits. cbv beta iota zeta.
    rewrite app_nil_r. pose proof (dec_digits_value d) as Hv.
    destruct (dec_digits d) eqn:E.
    - destruct d; [congruence | discriminate E ..].
    - rewrite Hv. reflexivity. }
  assert (Hres : (let '(neg, body) := (false, dec_digits d) in
                  if list_eq_dec ascii_dec body (list_ascii_of_string "Infinity")
                  then JS.Inf neg
                  else
                    match JS.decimal_literal body with
                    | Some (mant, ex) =>
                        if 0 <=? ex then JS.round_double neg (mant * 10 ^ ex) 1
                        else JS.round_double neg mant (10 ^ (- ex))
                    | None => JS.NaN
                    end) = JS.of_Z (Z.of_N (N.of_uint d))).
  { cbv zeta iota. rewrite Hlit.
    destruct (list_eq_dec ascii_dec (dec_digits d) (list_ascii_of_string "Infinity")) as [E|_].
    - destruct d; discriminate E.
    - cbn [Z.leb Z.compare Z.pow]. unfold JS.of_Z.
      rewrite Z.mul_1_r, Z.abs_eq by lia.
      replace (Z.of_N (N.of_uint d) <? 0) with false; [reflexivity|].
      symmetry. apply Z.ltb_ge. lia. }
  clear Hlit.
  destruct d as [|d|d|d|d|d|d|d|d|d|d]; [congruence | ..];
    revert Hres; unfold JS.Number_literal; head_digit; intros <-;
    try reflexivity.
  destruct d; reflexivity.
Qed.

Lemma Number_hex_digits d :
  d <> Hexadecimal.Nil ->
  JS.Number_literal ("0" :: "x" :: hex_digits d)%char = JS.of_Z (Z.of_N (N.of_hex_uint d)).
Proof.
  intros Hd. unfold JS.Number_literal.
  change (JS.radix_prefix _) with (Some (16, hex_digits d)). cbv iota.
  unfold JS.digits. rewrite hex_digits_value.
  unfold JS.of_Z. rewrite Z.abs_eq by lia.
  replace (Z.of_N (N.of_hex_uint d) <? 0) with false
    by (symmetry; apply Z.ltb_ge; lia).
  destruct d; [congruence | reflexivity ..].
Qed.

Lemma to_uint_not_nil n : N.to_uint n <> Decimal.Nil.
Proof.
  destruct n as [|p]; [discriminate|]. apply DecimalPos.Unsigned.to_uint_nonnil.
Qed.

Lemma to_hex_uint_not_nil n : N.to_hex_uint n <> Hexadecimal.Nil.
Proof.
  destruct n as [|p]; [discriminate|]. apply HexadecimalPos.Unsigned.to_uint_nonnil.
Qed.

Lemma BigInt_decimal n : JS.BigInt (JS.decimal n) = Ok (Z.of_N n).
Proof.
  unfold JS.BigInt, JS.decimal. fold (dec_digits (N.to_uint n)).
  rewrite trim_no_space by apply dec_digits_no_space.
  rewrite BigInt_dec_digits by apply to_uint_not_nil.
  now rewrite DecimalN.Unsigned.of_to.
Qed.

Lemma BigInt_hexadecimal n : JS.BigInt (JS.hexadecimal n) = Ok (Z.of_N n).
Proof.
  unfold JS.BigInt, JS.hexadecimal. cbn [list_ascii_of_string].
  fold (hex_digits (N.to_hex_uint n)).
  rewrite trim_no_space
    by (repeat constructor; apply hex_digits_no_space).
  rewrite BigInt_hex_digits by apply to_hex_uint_not_nil.
  now rewrite HexadecimalN.Unsigned.of_to.
Qed.

Lemma Number_decimal n : JS.Number (JS.decimal n) = JS.of_Z (Z.of_N n).
Proof.
  unfold JS.Number, JS.decimal. fold (dec_digits (N.to_uint n)).
  rewrite trim_no_space by apply dec_digits_no_space.
  rewrite Number_dec_digits by apply to_uint_not_nil.
  now rewrite DecimalN.Unsigned.of_to.
Qed.

Lemma Number_hexadecimal n : JS.Number (JS.hexadecimal n) = JS.of_Z (Z.of_N n).
Proof.
  unfold JS.Number, JS.hexadecimal. cbn [list_ascii_of_string].
  fold (hex_digits (N.to_hex_uint n)).
  rewrite trim_no_space
    by (repeat constructor; apply hex_digits_no_space).
  rewrite Number_hex_digits by apply to_hex_uint_not_nil.
  now rewrite HexadecimalN.Unsigned.of_to.
Qed.

End Spellings.

(** ** Integer literals *)














(** ** Arrays *)

Section Find.

Context {A : Type}.
Implicit Types (p : A -> result bool) (l : list A).

Lemma find_from_ext p q i l :
  (forall x, In x l -> p x = q x) -> find_from p i l = find_from q i l.
Proof.
  revert i. induction l as [|x l IH]; intros i H; [reflexivity|].
  simpl. rewrite <- (H x) by now left.
  destruct (p x) as [[|]|]; try reflexivity.
  apply IH. intros y Hy. apply H. now right.
Qed.

Lemma find_from_shift p i l :
  find_from p (S i) l = rmap (option_map (fun r : ref A => (S (fst r), snd r))) (find_from p i l).
Proof.
  revert i. induction l as [|x l IH]; intros i; [reflexivity|].
  simpl. destruct (p x) as [[|]|]; try reflexivity. apply IH.
Qed.

(** What [find] returns is an element of the array on which the callback
    returned [true], after it returned [false] on all earlier elements. *)
Lemma find_Some p l i x :
  find p l = Ok (Some (i, x)) ->
  nth_error l i = Some x /\ p x = Ok true /\
  forall j y, (j < i)%nat -> nth_error l j = Some y -> p y = Ok false.
Proof.
  unfold find. revert i. induction l as [|a l IH]; intros i H; [discriminate|].
  simpl in H. destruct (p a) as [[|]|] eqn:Ea; try discriminate.
  - injection H as <- <-. repeat split; auto. intros j y Hj. lia.
  - rewrite find_from_shift in H.
    destruct (find_from p 0 l) as [[[k z]|]|] eqn:Ef; try discriminate.
    simpl in H. injection H as <- <-.
    destruct (IH k eq_refl) as (Hn & Hp & Hlt).
    repeat split; auto.
    intros [|j] y Hj Hy; simpl in Hy.
    + now injection Hy as <-.
    + apply (Hlt j); [lia | assumption].
Qed.

Lemma find_None p l :
  find p l = Ok None <-> Forall (fun y => p y = Ok false) l.
Proof.
  unfold find. generalize 0%nat. induction l as [|a l IH]; intros i; simpl.
  - split; auto.
  - destruct (p a) as [[|]|] eqn:Ea.
    + split; [discriminate|]. intros H. inversion H; congruence.
    + rewrite IH. split; [now constructor|]. intros H. now inversion H.
    + split; [discriminate|]. intros H. inversion H; congruence.
Qed.

(** A callback that does not throw on the elements makes [find] return. *)
Lemma find_total p l :
  Forall (fun y => exists b, p y = Ok b) l -> exists r, find p l = Ok r.
Proof.
  unfold find. intros H. generalize 0%nat.
  induction H as [|a l [b Hb] _ IH]; intros i; simpl.
  - eauto.
  - rewrite Hb. destruct b; eauto.
Qed.

(** The first element on which the callback returns [true] is found. *)
Lemma find_first p l i x :
  nth_error l i = Some x -> p x = Ok true ->
  (forall j y, (j < i)%nat -> nth_error l j = Some y -> p y = Ok false) ->
  find p l = Ok (Some (i, x)).
Proof.
  unfold find. revert i. induction l as [|a l IH]; intros i Hn Hp Hlt.
  - now destruct i.
  - destruct i as [|i]; simpl in Hn.
    + injection Hn as ->. simpl. now rewrite Hp.
    + simpl. rewrite (Hlt 0%nat a) by (simpl; auto; lia).
      rewrite find_from_shift, (IH i Hn Hp); [reflexivity|].
      intros j y Hj Hy. apply (Hlt (S j)); [lia | assumption].
Qed.

End Find.

Lemma find_exists {A} (p : A -> result bool) l x :
  Forall (fun y => exists b, p y = Ok b) l -> In x l -> p x = Ok true ->
  exists i y, find p l = Ok (Some (i, y)).
Proof.
  intros Hl Hx Hp. destruct (find_total _ _ Hl) as [[[i y]|] Hr]; [eauto|].
  apply find_None in Hr. rewrite Forall_forall in Hr.
  specialize (Hr x Hx). congruence.
Qed.


(** ** Numbers and keys *)

Lemma number_eqb_refl x : x <> JS.NaN -> JS.number_eqb x x = true.
Proof.
  destruct x as [|b|m e]; simpl; intros H; [congruence | now destruct b |].
  now rewrite !Z.eqb_refl.
Qed.

Lemma number_eqb_true a b : JS.number_eqb a b = true <-> a = b /\ b <> JS.NaN.
Proof.
  destruct a as [|s|m e], b as [|s'|m' e']; simpl;
    try (split; [discriminate | intros [H1 H2]; congruence]).
  - rewrite Bool.eqb_true_iff. split.
    + intros ->. split; [reflexivity | discriminate].
    + intros [[= ->] _]. reflexivity.
  - rewrite andb_true_iff, !Z.eqb_eq. split.
    + intros [-> ->]. split; [reflexivity | discriminate].
    + intros [[= -> ->] _]. auto.
Qed.

Lemma same_chain_iff a b : same_chain a b = true <-> same_number a b.
Proof. unfold same_chain, same_number. apply number_eqb_true. Qed.

Lemma round_double_not_NaN neg n d : JS.round_double neg n d <> JS.NaN.
Proof.
  unfold JS.round_double, JS.mk_fin.
  repeat match goal with
         | |- context [if ?b then _ else _] => destruct b
         | |- context [match ?m with Z0 => _ | Zpos _ => _ | Zneg _ => _ end] => destruct m
         | |- context [let '(_, _) := ?x in _] => destruct x
         end; discriminate.
Qed.

Lemma same_chain_spellings c : same_chain (JS.hexadecimal c) (JS.decimal c) = true.
Proof.
  unfold same_chain. rewrite Number_hexadecimal, Number_decimal.
  apply number_eqb_refl, round_double_not_NaN.
Qed.

Lemma key_matches_true stored key chain chainId :
  key_matches stored key chain chainId = Ok true <->
  JS.BigInt stored = Ok key /\ same_chain chain chainId = true.
Proof.
  unfold key_matches, bigint_is. destruct (JS.BigInt stored) as [v|e]; simpl.
  - destruct (Z.eqb_spec v key) as [->|Hne]; simpl.
    + split; [intros [= ->]; auto | intros [_ ->]; reflexivity].
    + split; [discriminate | intros [[= E] _]; contradiction].
  - split; [discriminate | intros [E _]; discriminate].
Qed.

Lemma key_matches_numeric stored key chain chainId :
  numeric stored -> exists b, key_matches stored key chain chainId = Ok b.
Proof.
  intros [z Hz]. unfold key_matches, bigint_is. rewrite Hz. simpl. eauto.
Qed.

(** ** Record locators *)

(** The locators that convert no key never raise. *)
Lemma getNetwork_returns s chainId : exists r, getNetwork s chainId = Ok r.
Proof.
  unfold getNetwork, find_opt. destruct (networks s) as [l|]; [|eauto].
  apply find_total. apply Forall_forall. eauto.
Qed.

(** With an integer literal as key, and integer literals as stored keys,
    [getAccount] returns, also when the collection is absent. *)
Lemma getAccount_returns s accountAddress chainId :
  numeric accountAddress ->
  Forall (fun acc => numeric (AccContract.address acc)) (collection (accContracts s)) ->
  exists r, getAccount s accountAddress chainId = Ok r.
Proof.
  intros [z Hz] Hall. unfold getAccount. rewrite Hz. simpl.
  unfold find_opt. destruct (accContracts s) as [l|]; [|eauto].
  apply find_total. simpl in Hall.
  eapply Forall_impl; [|exact Hall]. intros a Ha. now apply key_matches_numeric.
Qed.

Lemma getErc20Token_returns s tokenAddress chainId :
  numeric tokenAddress ->
  Forall (fun token => numeric (Erc20Token.address token)) (collection (erc20Tokens s)) ->
  exists r, getErc20Token s tokenAddress chainId = Ok r.
Proof.
  intros [z Hz] Hall. unfold getErc20Token. rewrite Hz. simpl.
  unfold find_opt. destruct (erc20Tokens s) as [l|]; [|eauto].
  apply find_total. simpl in Hall.
  eapply Forall_impl; [|exact Hall]. intros a Ha. now apply key_matches_numeric.
Qed.

Lemma getTransaction_returns s txnHash chainId :
  numeric txnHash ->
  Forall (fun txn => numeric (Transaction.txnHash txn)) (collection (transactions s)) ->
  exists r, getTransaction s txnHash chainId = Ok r.
Proof.
  intros [z Hz] Hall. unfold getTransaction. rewrite Hz. simpl.
  unfold find_opt. destruct (transactions s) as [l|]; [|eauto].
  apply find_total. simpl in Hall.
  eapply Forall_impl; [|exact Hall]. intros a Ha. now apply key_matches_numeric.
Qed.

(** C4: every record locator returns the first match or a not-found result
    and never raises, also on a document whose collection is absent.
    [getAccounts] does not: it reads [state.accContracts.filter] without the
    guard its siblings have, and raises a [TypeError] when the account
    collection is absent. *)
Theorem getAccounts_absent_collection_raises :
  forall s chainId,
    accContracts s = None -> getAccounts s chainId = Throw TypeError.
Proof.
  intros s chainId H. unfold getAccounts. now rewrite H.
Qed.

Lemma getAccounts_absent_collection_raises_witness :
  accContracts (mkSnapState None None None None) = None /\
  getAccounts (mkSnapState None None None None) "1" = Throw TypeError.
Proof.
  split; [reflexivity|].
  apply (getAccounts_absent_collection_raises (mkSnapState None None None None) "1").
  reflexivity.
Defined.

(** C10: when the token collection is absent [getErc20Tokens] returns
    [undefined], not an empty list, whereas [getTransactions] returns an
    empty list when the transaction collection is absent. *)
Theorem absent_collection_results :
  forall s chainId,
    (erc20Tokens s = None -> getErc20Tokens s chainId = None) /\
    (transactions s = None ->
     forall senderAddress contractAddress txnType finalityStatus executionStatus minTimestamp,
       getTransactions s chainId senderAddress contractAddress txnType
                       finalityStatus executionStatus minTimestamp = Ok []).
Proof.
  intros s chainId. split.
  - intros H. unfold getErc20Tokens. now rewrite H.
  - intros H *. unfold getTransactions. now rewrite H.
Qed.

Lemma absent_collection_results_witness :
  getErc20Tokens (mkSnapState None None None None) "1" = None /\
  getTransactions (mkSnapState None None None None) "1"
                  (Some "zz"%string) None None None None None = Ok [].
Proof.
  destruct (absent_collection_results (mkSnapState None None None None) "1") as [Ht Hx].
  split; [apply Ht | apply Hx]; reflexivity.
Defined.

Lemma current_for_iff chainId n :
  same_chain (Network.chainId n) chainId
  && negb (match Network.useOldAccounts n with Some b => b | None => false end) = true
  <-> current_for chainId n.
Proof.
  unfold current_for. rewrite andb_true_iff, negb_true_iff, same_chain_iff.
  destruct (Network.useOldAccounts n) as [[|]|]; intuition congruence.
Qed.

(** C9: [getNetworkFromChainId] returns the first stored network that is
    current for the requested chain: its chain id is, as a number, the
    requested one and it is not flagged as using old accounts.  It throws
    the "can't find the network" error, which names the chain, exactly when
    no stored network is such; a flagged network is never returned and no
    empty result is.  When no chain is requested ([undefined] or the empty
    string) the chain is the test network's. *)
Theorem getNetworkFromChainId_found_or_error :
  forall testnet s,
    (forall chainId,
        chainId <> EmptyString ->
        found_or_error s chainId (getNetworkFromChainId testnet s (Some chainId))) /\
    found_or_error s testnet (getNetworkFromChainId testnet s None) /\
    found_or_error s testnet (getNetworkFromChainId testnet s (Some EmptyString)).
Proof.
  intros testnet s.
  assert (H : forall target chainId,
             effectiveChainId testnet target = chainId ->
             found_or_error s chainId (getNetworkFromChainId testnet s target)).
  { intros target chainId <-. unfold found_or_error, getNetworkFromChainId.
    set (chainId := effectiveChainId testnet target).
    unfold getNetwork, find_opt.
    destruct (networks s) as [l|] eqn:Hnet; simpl; [|split; [reflexivity | intros m []]].
    match goal with |- context [find ?p l] => destruct (find p l) as [[[i n]|]|e] eqn:Hf end;
      simpl.
    - apply find_Some in Hf. destruct Hf as (Hn & Hp & Hlt).
      split; [assumption|]. split.
      + apply current_for_iff. congruence.
      + intros j m Hj Hm Hc. apply current_for_iff in Hc.
        specialize (Hlt j m Hj Hm). congruence.
    - apply find_None in Hf. rewrite Forall_forall in Hf.
      split; [reflexivity|]. intros m Hm Hc. apply current_for_iff in Hc.
      specialize (Hf m Hm). congruence.
    - exfalso. destruct (getNetwork_returns s chainId) as [r Hr].
      unfold getNetwork, find_opt in Hr. rewrite Hnet in Hr. congruence. }
  split; [|split].
  - intros chainId Hne. apply H. simpl. destruct chainId; [contradiction | reflexivity].
  - apply H. reflexivity.
  - apply H. reflexivity.
Qed.

Lemma getNetworkFromChainId_found_or_error_witness :
  found_or_error
    (mkSnapState None None
       (Some [Network.mk "old" "1" "" "" "" "" (Some true);
              Network.mk "main" "0x1" "b" "n" "v" "0x2" None]) None)
    "1"
    (Ok (1%nat, Network.mk "main" "0x1" "b" "n" "v" "0x2" None)) /\
  found_or_error
    (mkSnapState None None
       (Some [Network.mk "old" "1" "" "" "" "" (Some true);
              Network.mk "main" "0x1" "b" "n" "v" "0x2" None]) None)
    "2"
    (Throw (NetworkNotFound "2")).
Proof.
  split.
  - apply (proj1 (getNetworkFromChainId_found_or_error "0x534e5f474f45524c49"
                    (mkSnapState None None
                       (Some [Network.mk "old" "1" "" "" "" "" (Some true);
                              Network.mk "main" "0x1" "b" "n" "v" "0x2" None]) None))
                 "1"%string).
    discriminate.
  - apply (proj1 (getNetworkFromChainId_found_or_error "0x534e5f474f45524c49"
                    (mkSnapState None None
                       (Some [Network.mk "old" "1" "" "" "" "" (Some true);
                              Network.mk "main" "0x1" "b" "n" "v" "0x2" None]) None))
                 "2"%string).
    discriminate.
Defined.

(** Lookups by the hexadecimal and by the decimal spelling of a key are the
    same lookup. *)
Lemma getAccount_spellings s n c :
  getAccount s (JS.hexadecimal n) (JS.hexadecimal c)
  = getAccount s (JS.decimal n) (JS.decimal c).
Proof.
  unfold getAccount, key_matches, same_chain.
  now rewrite BigInt_hexadecimal, BigInt_decimal, Number_hexadecimal, Number_decimal.
Qed.

Lemma getErc20Token_spellings s n c :
  getErc20Token s (JS.hexadecimal n) (JS.hexadecimal c)
  = getErc20Token s (JS.decimal n) (JS.decimal c).
Proof.
  unfold getErc20Token, key_matches, same_chain.
  now rewrite BigInt_hexadecimal, BigInt_decimal, Number_hexadecimal, Number_decimal.
Qed.

Lemma getTransaction_spellings s n c :
  getTransaction s (JS.hexadecimal n) (JS.hexadecimal c)
  = getTransaction s (JS.decimal n) (JS.decimal c).
Proof.
  unfold getTransaction, key_matches, same_chain.
  now rewrite BigInt_hexadecimal, BigInt_decimal, Number_hexadecimal, Number_decimal.
Qed.

Lemma find_opt_Some {A} (p : A -> result bool) o i x :
  find_opt p o = Ok (Some (i, x)) ->
  nth_error (collection o) i = Some x /\ p x = Ok true /\
  forall j y, (j < i)%nat -> nth_error (collection o) j = Some y -> p y = Ok false.
Proof.
  destruct o as [l|]; simpl; [apply find_Some | discriminate].
Qed.

Section Locate.

Context {R : Type}.
Variables key chain : R -> string.




End Locate.



(** ** The transaction query *)

Lemma subseq_filter {A} (p : A -> bool) l : subseq (filter p l) l.
Proof.
  induction l as [|x l IH]; simpl; [constructor|].
  destruct (p x); now constructor.
Qed.

Lemma status_accepts_iff cfg st :
  status_accepts cfg st = true <-> status_among cfg st.
Proof.
  unfold status_accepts, status_among. destruct cfg as [c|].
  - destruct st as [v|].
    + split.
      * intros H c' [= <-]. eauto.
      * intros H. destruct (H c eq_refl) as (v' & [= <-] & Hv). exact Hv.
    + split; [discriminate|].
      intros H. destruct (H c eq_refl) as (v' & Hv & _). discriminate.
  - split; [intros _ c; discriminate | reflexivity].
Qed.

(** The conversion of an optional address argument, when the argument is an
    integer literal, and what the filter built from it compares. *)
Lemma optBigInt_numeric o :
  (forall a, o = Some a -> numeric a) ->
  exists r, optBigInt o = Ok r /\
    forall stored,
      match r with Some v => bigint_equals stored v | None => true end = true
      <-> (forall a, o = Some a -> a <> EmptyString -> JS.BigInt stored = JS.BigInt a).
Proof.
  intros Hnum. destruct o as [a|]; simpl.
  - destruct (Hnum a eq_refl) as [z Hz]. destruct a as [|ch a']; simpl.
    + exists None. split; [reflexivity|]. intros stored. split; [|reflexivity].
      intros _ a [= <-] Hne. congruence.
    + rewrite Hz. simpl. exists (Some z). split; [reflexivity|]. intros stored.
      unfold bigint_equals. split.
      * intros H b [= <-] _. rewrite Hz.
        destruct (JS.BigInt stored) as [w|]; [|discriminate].
        apply Z.eqb_eq in H. now subst.
      * intros H. rewrite (H _ eq_refl) by discriminate. rewrite Hz.
        apply Z.eqb_refl.
  - exists None. split; [reflexivity|]. intros stored. split; [|reflexivity].
    intros _ a. discriminate.
Qed.

(** C6: [getTransactions] returns the stored transactions that satisfy the
    conjunction of the predicates of the query (chain id as a number,
    timestamp in milliseconds at least the minimum, sender and contract
    address as integers, type among the given ones, finality and execution
    status among the given ones), a predicate with an unset configuration
    passing every transaction; the result is a subsequence of the stored
    transactions, in their order, made of the stored records themselves. *)
Theorem getTransactions_filters :
  forall s txns chainId senderAddress contractAddress txnType
         finalityStatus executionStatus minTimestamp,
    transactions s = Some txns ->
    (forall a, senderAddress = Some a -> numeric a) ->
    (forall a, contractAddress = Some a -> numeric a) ->
    exists keep : Transaction.t -> bool,
      (forall txn, keep txn = true <->
                   passes chainId senderAddress contractAddress txnType
                          finalityStatus executionStatus minTimestamp txn) /\
      getTransactions s chainId senderAddress contractAddress txnType
                      finalityStatus executionStatus minTimestamp
      = Ok (filter keep txns) /\
      subseq (filter keep txns) txns.
Proof.
  intros s txns chainId sender contract ty fin exe min Htx Hs Hc.
  destruct (optBigInt_numeric sender Hs) as (rs & Ers & Hrs).
  destruct (optBigInt_numeric contract Hc) as (rc & Erc & Hrc).
  unfold getTransactions. rewrite Htx, Ers, Erc. simpl.
  unfold filterTransactions.
  match goal with |- context [filter ?k txns] => exists k end.
  split; [|split; [reflexivity | apply subseq_filter]].
  intros txn. cbn [forallb apply]. unfold passes.
  rewrite !andb_true_iff, <- !status_accepts_iff, <- Hrs, <- Hrc.
  assert (Hmin : (match min with Some m => m <=? Transaction.timestamp txn * 1000
                            | None => true end = true)
                 <-> (forall m, min = Some m -> m <= Transaction.timestamp txn * 1000)).
  { destruct min as [m|].
    - rewrite Z.leb_le. split; [intros H m' [= <-]; exact H | auto].
    - split; [intros _ m; discriminate | reflexivity]. }
  assert (Hty : (match ty with Some c => accepts c (Transaction.txnType txn)
                          | None => true end = true)
                <-> (forall c, ty = Some c -> accepts c (Transaction.txnType txn) = true)).
  { destruct ty as [c|].
    - split; [intros H c' [= <-]; exact H | auto].
    - split; [intros _ c; discriminate | reflexivity]. }
  rewrite <- Hmin, <- Hty.
  destruct min, rs, rc, ty; tauto.
Qed.

Lemma getTransactions_filters_witness :
  exists keep : Transaction.t -> bool,
    (forall txn, keep txn = true <->
                 passes "1" (Some "10"%string) None None None None None txn) /\
    getTransactions Sample.withTransactions "1" (Some "10"%string) None None None None None
    = Ok (filter keep [Sample.old_l2; Sample.recent_l2; Sample.pending; Sample.recent_l1]) /\
    subseq (filter keep [Sample.old_l2; Sample.recent_l2; Sample.pending; Sample.recent_l1])
           [Sample.old_l2; Sample.recent_l2; Sample.pending; Sample.recent_l1].
Proof.
  apply (getTransactions_filters Sample.withTransactions
           [Sample.old_l2; Sample.recent_l2; Sample.pending; Sample.recent_l1]
           "1" (Some "10"%string) None None None None None).
  - reflexivity.
  - intros a [= <-]. exists 10. reflexivity.
  - intros a. discriminate.
Defined.

(** The query of the example: chain 1 and sender [0xa], asked in decimal. *)
Example getTransactions_chain_and_sender :
  getTransactions Sample.withTransactions "1" (Some "10"%string) None None None None None
  = Ok [Sample.old_l2; Sample.recent_l1].
Proof. reflexivity. Qed.

(** ** Running an operation *)

Lemma fetchState_run env s :
  document (wallet env) (state env) = Some s ->
  fetchState env
  = (Ok s, mkEnv (afterFetch (wallet env) (state env))
                 (events env ++ fetched (state env)) (Some s)).
Proof.
  destruct env as [w evs [s0|]]; simpl; intros H.
  - injection H as ->. unfold fetchState. simpl. now rewrite app_nil_r.
  - unfold fetchState, mbind, walletRequest, serve. simpl.
    destruct w as [pw [|[|] fs]]; simpl in *; try discriminate;
      now injection H as ->.
Qed.

Lemma writeBack_run env s :
  state env = Some s ->
  writeBack env
  = (rmap (fun _ => tt) (fst (serve (Update s) (wallet env))),
     mkEnv (snd (serve (Update s) (wallet env)))
           (events env ++ [Request (Update s)]) (Some s)).
Proof.
  destruct env as [w evs st]; simpl; intros ->.
  unfold writeBack, readState, mbind, walletRequest. simpl.
  destruct (serve (Update s) w) as [[r|e] w']; reflexivity.
Qed.

Section UpsertRecordRun.

Variable R : Type.
Variable eq_dec : forall a b : R, {a = b} + {a <> b}.
Variable locate : SnapState -> R -> result (option (ref R)).
Variable merge : R -> R -> R.
Variable getC : SnapState -> option (list R).
Variable setC : SnapState -> list R -> SnapState.

Lemma upsertRecord_run r w st s :
  document w st = Some s ->
  call (upsertRecord eq_dec locate merge getC setC r) w st
  = match locate s r with
    | Throw e => leaves (Throw e) w st s
    | Ok None => writesBack w st (setC s (collection (getC s) ++ [r]))
    | Ok (Some (i, old)) =>
        if sameJson eq_dec old r then leaves (Ok tt) w st s
        else writesBack w st (setC s (assign i (merge old r) (collection (getC s))))
    end.
Proof.
  intros Hdoc. unfold call, upsertRecord, runExclusive.
  unfold mbind at 1. unfold emit at 1. cbn [wallet events state app].
  unfold mbind at 1.
  rewrite (fetchState_run _ s) by exact Hdoc. cbn [wallet events state].
  unfold mbind at 1, lift at 1.
  destruct (locate s r) as [[[i old]|]|e].
  - destruct (sameJson eq_dec old r).
    + reflexivity.
    + unfold mbind at 1, setState at 1. cbn [wallet events state].
      erewrite writeBack_run by reflexivity. cbn [wallet events state].
      unfold writesBack.
      destruct (serve _ _) as [res w']. cbn. now rewrite <- app_assoc.
  - unfold mbind at 1, setState at 1. cbn [wallet events state].
    erewrite writeBack_run by reflexivity. cbn [wallet events state].
    unfold writesBack.
    destruct (serve _ _) as [res w']. cbn. now rewrite <- app_assoc.
  - reflexivity.
Qed.

End UpsertRecordRun.
Lemma writeBacks_app evs evs' : writeBacks (evs ++ evs') = writeBacks evs ++ writeBacks evs'.
Proof.
  induction evs as [|[| |[|s]] evs IH]; simpl; congruence.
Qed.

Lemma writeBacks_fetched st : writeBacks (fetched st) = [].
Proof. now destruct st. Qed.

Lemma leaves_outcome {A} (res : result A) w st s :
  fst (leaves res w st s) = res /\
  state (snd (leaves res w st s)) = Some s /\
  events (snd (leaves res w st s)) = Acquire :: fetched st ++ [Release] /\
  writeBacks (events (snd (leaves res w st s))) = [].
Proof.
  unfold leaves. cbn. repeat split.
  now rewrite writeBacks_app, writeBacks_fetched.
Qed.

Lemma writesBack_outcome w st s' :
  state (snd (writesBack w st s')) = Some s' /\
  events (snd (writesBack w st s'))
  = Acquire :: fetched st ++ [Request (Update s'); Release] /\
  writeBacks (events (snd (writesBack w st s'))) = [s'].
Proof.
  unfold writesBack. destruct (serve _ _) as [res w']. cbn. repeat split.
  now rewrite writeBacks_app, writeBacks_fetched.
Qed.

(** A host that schedules no fault accepts the write-back. *)
Lemma writesBack_accepted w st s' :
  faults w = [] ->
  fst (writesBack w st s') = Ok tt /\
  wallet (snd (writesBack w st s')) = mkWallet s' [].
Proof.
  intros Hf. unfold writesBack, serve, afterFetch.
  destruct st; simpl; rewrite Hf; simpl; auto.
Qed.

(** ** Binary64 arithmetic on integers *)

Lemma pow2_pos k : 0 < 2 ^ k \/ k < 0.
Proof. destruct (Z_lt_le_dec k 0); [now right | left; now apply Z.pow_pos_nonneg]. Qed.

Lemma huge_pos : 0 < 2 ^ 1024.
Proof. now apply Z.pow_pos_nonneg. Qed.

Lemma strip2_spec p : forall e m' e',
  JS.strip2 p e = (m', e') -> e <= e' /\ m' * 2 ^ (e' - e) = Zpos p /\ 0 < m'.
Proof.
  induction p as [p IH|p IH|]; intros e m' e' H; simpl in H.
  - injection H as <- <-. rewrite Z.sub_diag. simpl. lia.
  - apply IH in H. destruct H as (Hle & Hv & Hpos).
    split; [lia|]. split; [|assumption].
    replace (e' - e) with (Z.succ (e' - (e + 1))) by lia.
    rewrite Z.pow_succ_r by lia. change (Z.pos p~0) with (2 * Z.pos p).
    rewrite <- Hv. ring.
  - injection H as <- <-. rewrite Z.sub_diag. simpl. lia.
Qed.

Lemma mk_fin_Fin neg m e :
  0 <= m -> 0 <= e ->
  exists m1 e1, JS.mk_fin neg m e = JS.Fin (if neg then - m1 else m1) e1 /\
                0 <= e1 /\ 0 <= m1 /\ m1 * 2 ^ e1 = m * 2 ^ e.
Proof.
  intros Hm He. destruct m as [|p|p]; [| |lia].
  - exists 0, 0. destruct neg; simpl; repeat split; lia.
  - unfold JS.mk_fin. destruct (JS.strip2 p e) as [m' e'] eqn:Hs.
    apply strip2_spec in Hs. destruct Hs as (Hle & Hv & Hpos).
    exists m', e'. repeat split; try lia.
    rewrite <- Hv. replace e' with ((e' - e) + e) at 1 by lia.
    rewrite Z.pow_add_r by lia. ring.
Qed.

Lemma mk_fin_double neg m e : JS.mk_fin neg (2 * m) e = JS.mk_fin neg m (e + 1).
Proof. destruct m; reflexivity. Qed.

Lemma mk_fin_scale neg m k : 0 <= k -> forall e,
  JS.mk_fin neg (m * 2 ^ k) e = JS.mk_fin neg m (e + k).
Proof.
  revert k. apply (natlike_ind (fun k => forall e,
    JS.mk_fin neg (m * 2 ^ k) e = JS.mk_fin neg m (e + k))).
  - intros e. rewrite Z.pow_0_r, Z.mul_1_r, Z.add_0_r. reflexivity.
  - intros x Hx IH e. rewrite Z.pow_succ_r by assumption.
    replace (m * (2 * 2 ^ x)) with (2 * (m * 2 ^ x)) by ring.
    rewrite mk_fin_double, IH. f_equal. lia.
Qed.

Lemma round_half_even_1 n : JS.round_half_even n 1 = n.
Proof.
  unfold JS.round_half_even. rewrite Z.mod_1_r, Z.div_1_r. reflexivity.
Qed.

Lemma round_half_even_exact q d : 0 < d -> JS.round_half_even (q * d) d = q.
Proof.
  intros Hd. unfold JS.round_half_even.
  rewrite Z.mod_mul, Z.div_mul by lia.
  destruct (Z.compare_spec (2 * 0) d); [lia | reflexivity | lia].
Qed.

Lemma round_half_even_mono n n' d :
  0 < d -> n <= n' -> JS.round_half_even n d <= JS.round_half_even n' d.
Proof.
  intros Hd Hn. unfold JS.round_half_even.
  pose proof (Z.div_mod n d ltac:(lia)) as E.
  pose proof (Z.div_mod n' d ltac:(lia)) as E'.
  pose proof (Z.mod_pos_bound n d Hd) as B.
  pose proof (Z.mod_pos_bound n' d Hd) as B'.
  pose proof (Z.div_le_mono n n' d Hd Hn) as Q.
  set (q := n / d) in *. set (q' := n' / d) in *.
  set (r := n mod d) in *. set (r' := n' mod d) in *.
  assert (Hq : q' = q \/ q + 1 <= q') by lia.
  destruct Hq as [Hq|Hq].
  - rewrite Hq in *.
    destruct (Z.compare_spec (2 * r) d) as [C|C|C];
      destruct (Z.compare_spec (2 * r') d) as [C'|C'|C'];
      try destruct (Z.even q); lia.
  - destruct (Z.compare_spec (2 * r) d) as [C|C|C];
      destruct (Z.compare_spec (2 * r') d) as [C'|C'|C'];
      try destruct (Z.even q); try destruct (Z.even q'); lia.
Qed.

Lemma round_double_1 neg n :
  0 < n ->
  JS.round_double neg n 1
  = if Z.log2 n <? 52 then JS.mk_fin neg n 0
    else if 2 ^ 1024 <=? JS.round_half_even n (2 ^ (Z.log2 n - 52)) * 2 ^ (Z.log2 n - 52)
         then JS.Inf neg
         else JS.mk_fin neg (JS.round_half_even n (2 ^ (Z.log2 n - 52))) (Z.log2 n - 52).
Proof.
  intros Hn. unfold JS.round_double.
  replace (n <=? 0) with false by (symmetry; apply Z.leb_gt; lia).
  change (Z.log2 1) with 0. rewrite Z.sub_0_r.
  pose proof (Z.log2_nonneg n) as He. destruct (Z.log2_spec n Hn) as [Hlo Hhi].
  set (e := Z.log2 n) in *.
  replace (0 <=? e) with true by (symmetry; apply Z.leb_le; lia).
  rewrite Z.mul_1_l.
  replace (2 ^ e <=? n) with true by (symmetry; apply Z.leb_le; lia).
  rewrite Z.max_l by lia.
  destruct (Z.ltb_spec e 52) as [Hlt|Hge].
  - replace (0 <=? e - 52) with false by (symmetry; apply Z.leb_gt; lia).
    rewrite round_half_even_1. cbn [andb].
    rewrite mk_fin_scale by lia. f_equal. lia.
  - replace (0 <=? e - 52) with true by (symmetry; apply Z.leb_le; lia).
    rewrite Z.mul_1_l. cbn [andb]. reflexivity.
Qed.

Lemma round_half_even_nonneg n d : 0 < d -> 0 <= n -> 0 <= JS.round_half_even n d.
Proof.
  intros Hd Hn. pose proof (round_half_even_mono 0 n d Hd Hn) as H.
  replace 0 with (0 * d) in H at 1 by ring.
  now rewrite round_half_even_exact in H.
Qed.

Lemma nearest_eq n :
  0 < n -> 52 <= Z.log2 n ->
  nearest n = JS.round_half_even n (2 ^ (Z.log2 n - 52)) * 2 ^ (Z.log2 n - 52).
Proof.
  intros Hn He. unfold nearest. destruct (Z.ltb_spec (Z.log2 n) 53); [|reflexivity].
  replace (Z.log2 n - 52) with 0 by lia.
  rewrite Z.pow_0_r, round_half_even_1. ring.
Qed.

(** The value of the rounding of a natural number. *)
Lemma round_double_integral neg n :
  0 <= n ->
  integral (JS.round_double neg n 1) /\
  rank (JS.round_double neg n 1)
  = (if neg then -1 else 1) * Z.min (nearest n) (2 ^ 1024).
Proof.
  intros Hn. pose proof huge_pos as Hhuge.
  destruct (Z.eq_dec n 0) as [->|Hne].
  - change (JS.round_double neg 0 1) with (JS.Fin 0 0).
    change (nearest 0) with 0. rewrite Z.min_l by lia.
    split; [simpl; lia | destruct neg; reflexivity].
  - assert (Hpos : 0 < n) by lia. rewrite (round_double_1 neg n Hpos).
    pose proof (Z.log2_nonneg n) as He. destruct (Z.log2_spec n Hpos) as [Hlo Hhi].
    destruct (Z.ltb_spec (Z.log2 n) 52) as [Hlt|Hge].
    + destruct (mk_fin_Fin neg n 0 Hn (Z.le_refl 0)) as (m1 & e1 & -> & He1 & Hm1 & Hv).
      rewrite Z.pow_0_r, Z.mul_1_r in Hv.
      assert (Hsmall : n < 2 ^ 52).
      { eapply Z.lt_le_trans; [exact Hhi|]. apply Z.pow_le_mono_r; lia. }
      assert (Hbig : 2 ^ 52 < 2 ^ 1024) by (apply Z.pow_lt_mono_r; lia).
      assert (Hnear : nearest n = n).
      { unfold nearest. destruct (Z.ltb_spec (Z.log2 n) 53); [reflexivity | lia]. }
      rewrite Hnear, Z.min_l by lia.
      split.
      * simpl. split; [assumption|]. destruct neg.
        -- rewrite Z.mul_opp_l, Z.abs_opp, Hv. lia.
        -- rewrite Hv. lia.
      * simpl. destruct neg; rewrite ?Z.mul_opp_l, Hv; lia.
    + rewrite <- (nearest_eq n Hpos Hge).
      set (d := 2 ^ (Z.log2 n - 52)).
      assert (Hd : 0 < d) by (apply Z.pow_pos_nonneg; lia).
      pose proof (round_half_even_nonneg n d Hd Hn) as Hm.
      pose proof (nearest_eq n Hpos Hge) as Hnear. fold d in Hnear.
      destruct (Z.leb_spec (2 ^ 1024) (nearest n)) as [Hinf|Hfin].
      * rewrite Z.min_r by lia. split; [exact I|]. destruct neg; simpl; lia.
      * rewrite Z.min_l by lia.
        destruct (mk_fin_Fin neg (JS.round_half_even n d) (Z.log2 n - 52) Hm ltac:(lia))
          as (m1 & e1 & -> & He1 & Hm1 & Hv).
        fold d in Hv. rewrite <- Hnear in Hv.
        split.
        -- simpl. split; [assumption|]. destruct neg.
           ++ rewrite Z.mul_opp_l, Z.abs_opp, Hv. nia.
           ++ rewrite Hv. nia.
        -- simpl. destruct neg; rewrite ?Z.mul_opp_l, Hv; lia.
Qed.

Lemma nearest_exact n : 0 <= n -> n < 2 ^ 53 -> nearest n = n.
Proof.
  intros Hn Hlt. unfold nearest.
  destruct (Z.eq_dec n 0) as [->|Hne]; [reflexivity|].
  destruct (Z.ltb_spec (Z.log2 n) 53) as [|Hge]; [reflexivity|].
  exfalso. apply Z.log2_lt_pow2 in Hlt; lia.
Qed.

Lemma nearest_mono n n' : 0 <= n -> n <= n' -> nearest n <= nearest n'.
Proof.
  intros Hn Hle.
  destruct (Z.eq_dec n 0) as [->|Hne].
  { change (nearest 0) with 0. unfold nearest.
    destruct (Z.log2 n' <? 53); [assumption|].
    destruct (Z.eq_dec n' 0) as [->|Hne']; [reflexivity|].
    assert (0 < 2 ^ (Z.log2 n' - 52) \/ Z.log2 n' - 52 < 0) as [Hd|Hd] by apply pow2_pos.
    - pose proof (round_half_even_nonneg n' _ Hd Hle). nia.
    - rewrite (Z.pow_neg_r _ _ Hd). lia. }
  assert (Hpos : 0 < n) by lia. assert (Hpos' : 0 < n') by lia.
  pose proof (Z.log2_le_mono n n' Hle) as Hlog.
  destruct (Z.log2_spec n Hpos) as [Hlo Hhi].
  destruct (Z.log2_spec n' Hpos') as [Hlo' Hhi'].
  pose proof (Z.log2_nonneg n) as He.
  set (e := Z.log2 n) in *. set (e' := Z.log2 n') in *.
  (* bounds of the rounding within one binade *)
  assert (Hup : 52 <= e -> nearest n <= 2 ^ (e + 1)).
  { intros H52. rewrite (nearest_eq n Hpos H52). fold e.
    set (d := 2 ^ (e - 52)). assert (Hd : 0 < d) by (apply Z.pow_pos_nonneg; lia).
    assert (E : 2 ^ (e + 1) = 2 ^ 53 * d).
    { unfold d. rewrite <- Z.pow_add_r by lia. f_equal. lia. }
    rewrite E.
    pose proof (round_half_even_mono n (2 ^ 53 * d) d Hd ltac:(rewrite <- E; fold (Z.succ e); lia)) as H.
    rewrite round_half_even_exact in H by assumption. nia. }
  assert (Hdown : 52 <= e' -> 2 ^ e' <= nearest n').
  { intros H52. rewrite (nearest_eq n' Hpos' H52). fold e'.
    set (d := 2 ^ (e' - 52)). assert (Hd : 0 < d) by (apply Z.pow_pos_nonneg; lia).
    assert (E : 2 ^ e' = 2 ^ 52 * d).
    { unfold d. rewrite <- Z.pow_add_r by lia. f_equal. lia. }
    rewrite E.
    pose proof (round_half_even_mono (2 ^ 52 * d) n' d Hd ltac:(rewrite <- E; lia)) as H.
    rewrite round_half_even_exact in H by assumption. nia. }
  destruct (Z_lt_le_dec e 52) as [Hs|Hb].
  - assert (Hnear : nearest n = n).
    { unfold nearest. fold e. destruct (Z.ltb_spec e 53); [reflexivity | lia]. }
    rewrite Hnear. destruct (Z_lt_le_dec e' 52) as [Hs'|Hb'].
    + assert (Hnear' : nearest n' = n').
      { unfold nearest. fold e'. destruct (Z.ltb_spec e' 53); [reflexivity | lia]. }
      now rewrite Hnear'.
    + specialize (Hdown Hb').
      assert (2 ^ (Z.succ e) <= 2 ^ e') by (apply Z.pow_le_mono_r; lia). lia.
  - assert (Hb' : 52 <= e') by lia.
    destruct (Z.eq_dec e e') as [Heq|Hneq].
    + rewrite (nearest_eq n Hpos Hb), (nearest_eq n' Hpos' Hb'). fold e e'. rewrite <- Heq.
      set (d := 2 ^ (e - 52)). assert (Hd : 0 < d) by (apply Z.pow_pos_nonneg; lia).
      pose proof (round_half_even_mono n n' d Hd Hle). nia.
    + specialize (Hup Hb). specialize (Hdown Hb').
      assert (2 ^ (e + 1) <= 2 ^ e') by (apply Z.pow_le_mono_r; lia). lia.
Qed.

Lemma nearest_nonneg n : 0 <= n -> 0 <= nearest n.
Proof. intros Hn. exact (nearest_mono 0 n (Z.le_refl 0) Hn). Qed.

Lemma rounded_mono z z' : z <= z' -> rounded z <= rounded z'.
Proof.
  intros Hle. unfold rounded. pose proof huge_pos as Hhuge.
  pose proof (nearest_nonneg (Z.abs z) (Z.abs_nonneg z)) as Hz.
  pose proof (nearest_nonneg (Z.abs z') (Z.abs_nonneg z')) as Hz'.
  destruct (Z.sgn_spec z) as [[Hs ->]|[[Hs ->]|[Hs ->]]];
    destruct (Z.sgn_spec z') as [[Hs' ->]|[[Hs' ->]|[Hs' ->]]]; try lia.
  - pose proof (nearest_mono (Z.abs z) (Z.abs z') (Z.abs_nonneg z) ltac:(lia)). lia.
  - pose proof (nearest_mono (Z.abs z') (Z.abs z) (Z.abs_nonneg z') ltac:(lia)). lia.
Qed.

Lemma rounded_exact z : Z.abs z < 2 ^ 53 -> rounded z = z.
Proof.
  intros H. unfold rounded. rewrite (nearest_exact _ (Z.abs_nonneg z) H).
  assert (2 ^ 53 < 2 ^ 1024) by (apply Z.pow_lt_mono_r; lia).
  rewrite Z.min_l by lia. rewrite Z.mul_comm. apply Z.abs_sgn.
Qed.

Lemma of_Z_integral z : integral (JS.of_Z z) /\ rank (JS.of_Z z) = rounded z.
Proof.
  unfold JS.of_Z, rounded.
  destruct (round_double_integral (z <? 0) (Z.abs z) (Z.abs_nonneg z)) as [Hi Hr].
  split; [assumption|]. rewrite Hr.
  pose proof (nearest_nonneg (Z.abs z) (Z.abs_nonneg z)) as Hn.
  destruct (Z.ltb_spec z 0) as [Hlt|Hge].
  - rewrite (Z.sgn_neg z Hlt). reflexivity.
  - destruct (Z.eq_dec z 0) as [->|Hne].
    + change (nearest (Z.abs 0)) with 0. pose proof huge_pos. rewrite Z.min_l by lia. reflexivity.
    + rewrite (Z.sgn_pos z) by lia. reflexivity.
Qed.

Lemma leb_rank x y : integral x -> integral y -> JS.leb x y = (rank x <=? rank y).
Proof.
  pose proof huge_pos as Hhuge.
  destruct x as [|s|m e], y as [|s'|m' e']; simpl; try contradiction.
  - intros _ _. destruct s, s'; symmetry; [apply Z.leb_le | apply Z.leb_le | apply Z.leb_gt | apply Z.leb_le]; lia.
  - intros _ [He Hb]. destruct s; symmetry; [apply Z.leb_le | apply Z.leb_gt]; lia.
  - intros [He Hb] _. destruct s'; symmetry; [apply Z.leb_gt | apply Z.leb_le]; lia.
  - intros [He Hb] [He' Hb'].
    set (k := Z.min e e'). assert (Hk : 0 <= k) by (unfold k; lia).
    assert (Hk1 : k <= e) by (unfold k; lia). assert (Hk2 : k <= e') by (unfold k; lia).
    assert (E : m * 2 ^ e = m * 2 ^ (e - k) * 2 ^ k).
    { rewrite <- Z.mul_assoc, <- Z.pow_add_r by lia. do 2 f_equal. lia. }
    assert (E' : m' * 2 ^ e' = m' * 2 ^ (e' - k) * 2 ^ k).
    { rewrite <- Z.mul_assoc, <- Z.pow_add_r by lia. do 2 f_equal. lia. }
    rewrite E, E'. assert (Hp : 0 < 2 ^ k) by (apply Z.pow_pos_nonneg; lia).
    apply eq_iff_eq_true. rewrite !Z.leb_le. split; intros H.
    + now apply Z.mul_le_mono_pos_r.
    + now apply Z.mul_le_mono_pos_r in H.
Qed.

Lemma nearest_lower n : 0 < n -> 52 <= Z.log2 n -> 2 ^ Z.log2 n <= nearest n.
Proof.
  intros Hpos H52. destruct (Z.log2_spec n Hpos) as [Hlo Hhi].
  rewrite (nearest_eq n Hpos H52).
  set (d := 2 ^ (Z.log2 n - 52)). assert (Hd : 0 < d) by (apply Z.pow_pos_nonneg; lia).
  assert (E : 2 ^ Z.log2 n = 2 ^ 52 * d).
  { unfold d. rewrite <- Z.pow_add_r by lia. f_equal. lia. }
  rewrite E.
  pose proof (round_half_even_mono (2 ^ 52 * d) n d Hd ltac:(rewrite <- E; lia)) as H.
  rewrite round_half_even_exact in H by assumption. nia.
Qed.

Lemma rounded_huge z : 2 ^ 1024 <= Z.abs z -> rounded z = Z.sgn z * 2 ^ 1024.
Proof.
  intros H. unfold rounded. f_equal. apply Z.min_r.
  pose proof huge_pos as Hhuge.
  assert (Hpos : 0 < Z.abs z) by lia.
  assert (Hlog : 1024 <= Z.log2 (Z.abs z)).
  { apply Z.log2_le_pow2; lia. }
  pose proof (nearest_lower (Z.abs z) Hpos ltac:(lia)) as Hl.
  assert (2 ^ 1024 <= 2 ^ Z.log2 (Z.abs z)) by (apply Z.pow_le_mono_r; lia). lia.
Qed.

(** The product of an integer-valued number with the number 1000. *)
Lemma mul_1000_integral x :
  integral x ->
  integral (JS.mul x (JS.of_Z 1000)) /\
  rank (JS.mul x (JS.of_Z 1000)) = rounded (rank x * 1000).
Proof.
  change (JS.of_Z 1000) with (JS.Fin 125 3). pose proof huge_pos as Hhuge.
  destruct x as [|s|m e]; simpl; [contradiction | |].
  - intros _. rewrite xorb_false_r. split; [exact I|].
    destruct s.
    + rewrite rounded_huge by lia. rewrite Z.sgn_neg by lia. lia.
    + rewrite rounded_huge by lia. rewrite Z.sgn_pos by lia. lia.
  - intros [He Hb].
    replace (0 <=? e + 3) with true by (symmetry; apply Z.leb_le; lia).
    rewrite xorb_false_r.
    assert (Hn : 0 <= Z.abs m * 125 * 2 ^ (e + 3)).
    { assert (0 < 2 ^ (e + 3)) by (apply Z.pow_pos_nonneg; lia).
      pose proof (Z.abs_nonneg m). nia. }
    destruct (round_double_integral (m <? 0) _ Hn) as [Hi Hr].
    split; [assumption|]. rewrite Hr. unfold rounded.
    assert (Hv : Z.abs m * 125 * 2 ^ (e + 3) = Z.abs (m * 2 ^ e * 1000)).
    { rewrite Z.pow_add_r by lia. change (2 ^ 3) with 8.
      rewrite !Z.abs_mul. rewrite (Z.abs_eq (2 ^ e)) by (apply Z.pow_nonneg; lia).
      change (Z.abs 1000) with 1000. ring. }
    rewrite Hv.
    assert (Hp : 0 < 2 ^ e) by (apply Z.pow_pos_nonneg; lia).
    destruct (Z.ltb_spec m 0) as [Hlt|Hge].
    + rewrite Z.sgn_neg by nia. reflexivity.
    + destruct (Z.eq_dec m 0) as [->|Hne].
      * rewrite !Z.mul_0_l. change (nearest (Z.abs 0)) with 0.
        rewrite Z.min_l by lia. reflexivity.
      * rewrite Z.sgn_pos by nia. reflexivity.
Qed.

(** [seconds * 1000 >= cutoff] on integers read as numbers. *)
Lemma geb_in_ms seconds cutoff :
  JS.geb (JS.mul (JS.of_Z seconds) (JS.of_Z 1000)) (JS.of_Z cutoff)
  = (rounded cutoff <=? rounded (rounded seconds * 1000)).
Proof.
  destruct (of_Z_integral seconds) as [Hs Hrs].
  destruct (of_Z_integral cutoff) as [Hc Hrc].
  destruct (mul_1000_integral _ Hs) as [Hp Hrp].
  unfold JS.geb. rewrite (leb_rank _ _ Hc Hp), Hrc, Hrp, Hrs. reflexivity.
Qed.

(** ** Pruning *)

Lemma retained_false_iff minTimeStamp txn :
  retained minTimeStamp txn = false <-> pruned minTimeStamp txn.
Proof.
  unfold retained, pruned, status_is. rewrite geb_in_ms.
  destruct (Transaction.finalityStatus txn) as [v|]; simpl.
  - destruct (String.eqb_spec v TransactionStatus.ACCEPTED_ON_L2) as [->|H2].
    + simpl. rewrite Z.leb_gt. split.
      * intros H. right. auto.
      * intros [H|[_ H]]; [discriminate H | exact H].
    + destruct (String.eqb_spec v TransactionStatus.ACCEPTED_ON_L1) as [->|H1]; simpl.
      * split; auto.
      * split; [discriminate|]. intros [[= H]|[[= H] _]]; contradiction.
  - split; [discriminate|]. intros [H|[H _]]; discriminate.
Qed.

Lemma removeAcceptedTransaction_run minTimeStamp w st s :
  document w st = Some s ->
  call (removeAcceptedTransaction minTimeStamp) w st
  = match transactions s with
    | None => leaves (Throw TypeError) w st s
    | Some txns =>
        writesBack w st (set_transactions s (filter (retained minTimeStamp) txns))
    end.
Proof.
  intros Hdoc. unfold call, removeAcceptedTransaction, runExclusive.
  unfold mbind at 1. unfold emit at 1. cbn [wallet events state app].
  unfold mbind at 1.
  rewrite (fetchState_run _ s) by exact Hdoc. cbn [wallet events state].
  destruct (transactions s) as [txns|]; [|reflexivity].
  unfold mbind at 1, setState at 1. cbn [wallet events state].
  erewrite writeBack_run by reflexivity. cbn [wallet events state].
  unfold writesBack.
  destruct (serve _ _) as [res w']. cbn. now rewrite <- app_assoc.
Qed.

(** C1, as the code has it: on a document that holds a transaction
    collection, pruning removes exactly the transactions accepted on L1,
    whatever their timestamp, and the transactions accepted on L2 whose
    timestamp in seconds, multiplied by 1000 in binary64 arithmetic, is
    below the cutoff; for a timestamp in milliseconds and a cutoff within
    the safe integers this is the exact comparison of integers.  A
    transaction accepted on L2 with a timestamp (in ms) at or above the
    cutoff stays, and so does every transaction whose finality status is
    neither of the two, whatever its age.  The document is written back
    once. *)
Theorem removeAcceptedTransaction_prunes :
  forall minTimeStamp w st s txns,
    document w st = Some s ->
    transactions s = Some txns ->
    let kept := filter (retained minTimeStamp) txns in
    let env := snd (call (removeAcceptedTransaction minTimeStamp) w st) in
    (forall txn, retained minTimeStamp txn = true <-> ~ pruned minTimeStamp txn) /\
    (forall txn,
        Z.abs (Transaction.timestamp txn * 1000) < 2 ^ 53 ->
        Z.abs minTimeStamp < 2 ^ 53 ->
        (pruned minTimeStamp txn <->
         Transaction.finalityStatus txn = Some TransactionStatus.ACCEPTED_ON_L1
         \/ (Transaction.finalityStatus txn = Some TransactionStatus.ACCEPTED_ON_L2
             /\ Transaction.timestamp txn * 1000 < minTimeStamp))) /\
    (forall txn, In txn kept <-> In txn txns /\ ~ pruned minTimeStamp txn) /\
    subseq kept txns /\
    state env = Some (set_transactions s kept) /\
    writeBacks (events env) = [set_transactions s kept].
Proof.
  intros m w st s txns Hdoc Htx kept env.
  assert (Hret : forall txn, retained m txn = true <-> ~ pruned m txn).
  { intros txn. rewrite <- retained_false_iff.
    destruct (retained m txn); intuition congruence. }
  split; [exact Hret|].
  split; [|split; [|split; [apply subseq_filter|]]].
  - intros txn Hts Hm. unfold pruned.
    assert (Hsec : Z.abs (Transaction.timestamp txn) < 2 ^ 53) by lia.
    rewrite (rounded_exact _ Hsec), (rounded_exact _ Hts), (rounded_exact _ Hm).
    reflexivity.
  - intros txn. unfold kept. rewrite filter_In, Hret. reflexivity.
  - subst env. rewrite (removeAcceptedTransaction_run m w st s Hdoc), Htx.
    destruct (writesBack_outcome w st (set_transactions s kept)) as (Hs & _ & Hw).
    auto.
Qed.

Lemma removeAcceptedTransaction_prunes_witness :
  (pruned 100000 Sample.old_l2 <->
   Transaction.finalityStatus Sample.old_l2 = Some TransactionStatus.ACCEPTED_ON_L1
   \/ (Transaction.finalityStatus Sample.old_l2 = Some TransactionStatus.ACCEPTED_ON_L2
       /\ Transaction.timestamp Sample.old_l2 * 1000 < 100000)) /\
  state (snd (call (removeAcceptedTransaction 100000) (Sample.host Sample.withTransactions) None))
  = Some (set_transactions Sample.withTransactions [Sample.recent_l2; Sample.pending]) /\
  writeBacks (events (snd (call (removeAcceptedTransaction 100000)
                                (Sample.host Sample.withTransactions) None)))
  = [set_transactions Sample.withTransactions [Sample.recent_l2; Sample.pending]].
Proof.
  destruct (removeAcceptedTransaction_prunes 100000 (Sample.host Sample.withTransactions) None
              Sample.withTransactions
              [Sample.old_l2; Sample.recent_l2; Sample.pending; Sample.recent_l1]
              eq_refl eq_refl) as (_ & Hexact & _ & _ & Hstate & Hwritten).
  split; [|split; [exact Hstate | exact Hwritten]].
  apply Hexact; vm_compute; reflexivity.
Defined.

(** Beyond the safe integers the product is rounded: a transaction accepted
    on L2 whose exact timestamp in milliseconds is below the cutoff stays
    when the rounded product reaches the cutoff. *)
Example retained_rounds_the_product :
  100000000000003 * 1000 < 100000000000003008 /\
  retained 100000000000003008
           (Sample.txn "0x14" "1" "0xa" "ACCEPTED_ON_L2" 100000000000003) = true.
Proof. split; [lia | vm_compute; reflexivity]. Qed.

(** C1, as the specification states it, fails: the transaction accepted on
    L1 at 150 s is not older than the cutoff of 100000 ms, and is removed. *)
Lemma pruning_removes_recent_l1 :
  In Sample.recent_l1 (collection (transactions Sample.withTransactions)) /\
  ~ accepted_before 100000 Sample.recent_l1 /\
  state (snd (call (removeAcceptedTransaction 100000) (Sample.host Sample.withTransactions) None))
  = Some (mkSnapState None None None (Some [Sample.recent_l2; Sample.pending])) /\
  ~ In Sample.recent_l1 [Sample.recent_l2; Sample.pending].
Proof.
  split; [simpl; auto|]. split; [|split; [reflexivity|]].
  - unfold accepted_before. simpl. lia.
  - simpl. intros [H|[H|[]]]; discriminate H.
Qed.

(** ** Assignment through a reference *)

Lemma assign_length {A} i (x : A) l : List.length (assign i x l) = List.length l.
Proof.
  revert i. induction l as [|y l IH]; intros [|i]; simpl; auto.
Qed.

Lemma nth_error_assign_same {A} i (x : A) l :
  (i < List.length l)%nat -> nth_error (assign i x l) i = Some x.
Proof.
  revert i. induction l as [|y l IH]; intros [|i] H; simpl in *; try lia; auto.
  apply IH. lia.
Qed.

Lemma nth_error_assign_other {A} i j (x : A) l :
  j <> i -> nth_error (assign i x l) j = nth_error l j.
Proof.
  revert i j. induction l as [|y l IH]; intros [|i] [|j] H; simpl; auto.
  congruence.
Qed.

(** ** Upserts *)

Lemma upsertAccount_run userAccount w st s :
  document w st = Some s ->
  call (upsertAccount userAccount) w st
  = match getAccount s (AccContract.address userAccount)
                       (AccContract.chainId userAccount) with
    | Throw e => leaves (Throw e) w st s
    | Ok None =>
        writesBack w st (set_accContracts s (collection (accContracts s) ++ [userAccount]))
    | Ok (Some (i, stored)) =>
        if sameJson AccContract.eq_dec stored userAccount then leaves (Ok tt) w st s
        else writesBack w st
               (set_accContracts s
                  (assign i (mergeAccount stored userAccount) (collection (accContracts s))))
    end.
Proof.
  exact (upsertRecord_run AccContract.t AccContract.eq_dec
           (fun s r => getAccount s (AccContract.address r) (AccContract.chainId r))
           mergeAccount accContracts set_accContracts userAccount w st s).
Qed.

Lemma upsertTransaction_run txn w st s :
  document w st = Some s ->
  call (upsertTransaction txn) w st
  = match getTransaction s (Transaction.txnHash txn) (Transaction.chainId txn) with
    | Throw e => leaves (Throw e) w st s
    | Ok None =>
        writesBack w st (set_transactions s (collection (transactions s) ++ [txn]))
    | Ok (Some (i, stored)) =>
        if sameJson Transaction.eq_dec stored txn then leaves (Ok tt) w st s
        else writesBack w st
               (set_transactions s
                  (assign i (mergeTransaction stored txn) (collection (transactions s))))
    end.
Proof.
  exact (upsertRecord_run Transaction.t Transaction.eq_dec
           (fun s r => getTransaction s (Transaction.txnHash r) (Transaction.chainId r))
           mergeTransaction transactions set_transactions txn w st s).
Qed.

Lemma sameJson_true {A} (eq_dec : forall a b : A, {a = b} + {a <> b}) a b :
  sameJson eq_dec a b = true <-> a = b.
Proof.
  unfold sameJson. destruct (eq_dec a b); split; congruence.
Qed.

(** C3: when an account with the natural key of the incoming one is stored,
    [upsertAccount] leaves the stored address and chain id as they are,
    takes [addressSalt], [addressIndex], [derivationPath] and [publicKey]
    from the incoming account, and sets [deployTxnHash] to the incoming
    value when there is one, to the stored value otherwise; nothing else in
    the document changes. *)
Theorem upsertAccount_merges_mutable_fields :
  forall userAccount w st s i storedAccount,
    document w st = Some s ->
    getAccount s (AccContract.address userAccount) (AccContract.chainId userAccount)
    = Ok (Some (i, storedAccount)) ->
    exists s' merged,
      state (snd (call (upsertAccount userAccount) w st)) = Some s' /\
      nth_error (collection (accContracts s')) i = Some merged /\
      AccContract.address merged = AccContract.address storedAccount /\
      AccContract.chainId merged = AccContract.chainId storedAccount /\
      AccContract.addressSalt merged = AccContract.addressSalt userAccount /\
      AccContract.addressIndex merged = AccContract.addressIndex userAccount /\
      AccContract.derivationPath merged = AccContract.derivationPath userAccount /\
      AccContract.publicKey merged = AccContract.publicKey userAccount /\
      AccContract.deployTxnHash merged
      = (if JS.truthy (AccContract.deployTxnHash userAccount)
         then AccContract.deployTxnHash userAccount
         else AccContract.deployTxnHash storedAccount) /\
      List.length (collection (accContracts s')) = List.length (collection (accContracts s)) /\
      (forall j, j <> i ->
                 nth_error (collection (accContracts s')) j
                 = nth_error (collection (accContracts s)) j) /\
      erc20Tokens s' = erc20Tokens s /\
      networks s' = networks s /\
      transactions s' = transactions s.
Proof.
  intros r w st s i a Hdoc Hget.
  rewrite (upsertAccount_run r w st s Hdoc), Hget.
  unfold getAccount in Hget.
  destruct (JS.BigInt (AccContract.address r)) as [k|]; [|discriminate].
  apply find_opt_Some in Hget. destruct Hget as (Hnth & _ & _).
  assert (Hi : (i < List.length (collection (accContracts s)))%nat)
    by (apply nth_error_Some; congruence).
  destruct (sameJson AccContract.eq_dec a r) eqn:Heq.
  - apply sameJson_true in Heq. subst r.
    exists s, a. destruct (leaves_outcome (Ok tt) w st s) as (_ & Hs & _).
    repeat split; auto.
    now destruct (JS.truthy (AccContract.deployTxnHash a)).
  - set (l' := assign i (mergeAccount a r) (collection (accContracts s))).
    exists (set_accContracts s l'), (mergeAccount a r).
    destruct (writesBack_outcome w st (set_accContracts s l')) as (Hs & _).
    repeat split; auto; simpl; unfold l'.
    + now apply nth_error_assign_same.
    + apply assign_length.
    + intros j Hj. now apply nth_error_assign_other.
Qed.

(** ** The batch upsert *)

Lemma Forall_assign {A} (P : A -> Prop) i x l :
  Forall P l -> P x -> Forall P (assign i x l).
Proof.
  intros Hl Hx. revert i. induction Hl as [|y l Hy Hl IH]; intros [|i]; simpl;
    try constructor; auto.
Qed.

Lemma upsertInto_numeric txn s :
  numeric (Transaction.txnHash txn) ->
  Forall (fun t => numeric (Transaction.txnHash t)) (collection (transactions s)) ->
  exists s',
    upsertInto txn s = Ok s' /\
    Forall (fun t => numeric (Transaction.txnHash t)) (collection (transactions s')).
Proof.
  intros Hn Hall. unfold upsertInto.
  destruct (getTransaction_returns s _ (Transaction.chainId txn) Hn Hall) as [r Hr].
  rewrite Hr. simpl. destruct r as [[i stored]|]; eexists; split; try reflexivity; simpl.
  - apply Forall_assign; [assumption|]. simpl.
    unfold getTransaction in Hr.
    destruct (JS.BigInt (Transaction.txnHash txn)); [|discriminate].
    apply find_opt_Some in Hr. destruct Hr as (Hnth & _).
    rewrite Forall_forall in Hall. apply Hall. eapply nth_error_In; eassumption.
  - apply Forall_app. split; [assumption | now constructor].
Qed.

Lemma upsertAll_numeric txns : forall s,
  Forall (fun t => numeric (Transaction.txnHash t)) txns ->
  Forall (fun t => numeric (Transaction.txnHash t)) (collection (transactions s)) ->
  exists s', upsertAll txns s = Ok s'.
Proof.
  induction txns as [|txn txns IH]; intros s Htx Hall; simpl; [eauto|].
  inversion Htx as [|? ? Hn Hrest]; subst.
  destruct (upsertInto_numeric txn s Hn Hall) as (s1 & -> & Hall1). simpl.
  now apply IH.
Qed.

(** *** The batch *)

Lemma upsertTransactionObjects_run held txns w st s :
  document w st = Some s ->
  call (upsertTransactionObjects held txns) w st
  = match forEach txns (mkLoop s (match st with Some _ => held | None => [] end) []) with
    | (Ok _, loop) => writesBack w st (doc loop)
    | (Throw e, loop) => leaves (Throw e) w st (doc loop)
    end.
Proof.
  intros Hdoc. unfold call, upsertTransactionObjects, runExclusive.
  unfold mbind at 1. unfold emit at 1. cbn [wallet events state app].
  unfold mbind at 1.
  rewrite (fetchState_run _ s) by exact Hdoc. cbn [wallet events state].
  destruct (forEach txns _) as [[[]|e] loop].
  - unfold mbind at 1, setState at 1. cbn [wallet events state].
    unfold mbind at 1, lift at 1.
    erewrite writeBack_run by reflexivity. cbn [wallet events state].
    unfold writesBack.
    destruct (serve _ _) as [res w']. cbn. now rewrite <- app_assoc.
  - unfold mbind at 1, setState at 1. cbn [wallet events state].
    unfold mbind at 1, lift at 1. reflexivity.
Qed.

Lemma lookupObject_fresh k changed :
  (forall t x, In (t, x) changed -> (t < k)%nat) -> lookupObject k changed = None.
Proof.
  induction changed as [|[t x] rest IH]; intros H; simpl; [reflexivity|].
  destruct (Nat.eqb_spec t k) as [->|Hne].
  - specialize (H k x (or_introl eq_refl)). lia.
  - apply IH. intros t' x' Hin. apply (H t' x'). now right.
Qed.

Lemma nth_pad_push n who x i :
  (List.length who <= n)%nat ->
  nth i (pad n who ++ [x]) None = if (i =? n)%nat then x else nth i who None.
Proof.
  intros Hlen. unfold pad. rewrite firstn_all2 by exact Hlen.
  assert (Hpad : List.length (who ++ repeat None (n - List.length who)) = n).
  { rewrite length_app, repeat_length. lia. }
  destruct (Nat.eqb_spec i n) as [->|Hne].
  - rewrite app_nth2 by lia. rewrite Hpad, Nat.sub_diag. reflexivity.
  - destruct (Nat.lt_ge_cases i n) as [Hlt|Hge].
    + rewrite app_nth1 by lia.
      destruct (Nat.lt_ge_cases i (List.length who)) as [Hi|Hi].
      * now rewrite app_nth1.
      * rewrite app_nth2 by exact Hi. rewrite nth_repeat.
        symmetry. now apply nth_overflow.
    + rewrite nth_overflow by (rewrite length_app, Hpad; simpl; lia).
      symmetry. apply nth_overflow. lia.
Qed.

Lemma assignObject_none t x who : forall l,
  (forall j, nth j who None <> Some t) -> assignObject t x who l = l.
Proof.
  induction who as [|w who IH]; intros l H; [now destruct l|].
  destruct l as [|y l]; [now destruct w|].
  assert (Hrest : forall j, nth j who None <> Some t) by (intros j; apply (H (S j))).
  destruct w as [t'|]; simpl.
  - destruct (Nat.eqb_spec t' t) as [->|Hne]; [now specialize (H 0%nat)|].
    now rewrite IH.
  - now rewrite IH.
Qed.

Lemma assignObject_at t x who : forall l i,
  nth i who None = Some t ->
  (forall j, nth j who None = Some t -> j = i) ->
  assignObject t x who l = assign i x l.
Proof.
  induction who as [|w who IH]; intros l i Hi Huniq; [now destruct i|].
  destruct l as [|y l]; [now destruct w, i|].
  destruct i as [|i]; simpl in Hi.
  - subst w. simpl. rewrite Nat.eqb_refl. f_equal. apply assignObject_none.
    intros j Hj. specialize (Huniq (S j) Hj). discriminate.
  - assert (Hw : w <> Some t) by (intros ->; now specialize (Huniq 0%nat eq_refl)).
    assert (Hrest : assignObject t x who l = assign i x l).
    { apply IH; [assumption|]. intros j Hj. specialize (Huniq (S j) Hj). lia. }
    destruct w as [t'|]; simpl.
    + destruct (Nat.eqb_spec t' t) as [->|Hne]; [congruence|]. now rewrite Hrest.
    + now rewrite Hrest.
Qed.

(** On an object that the loop has not met, the callback is [upsertInto]. *)
Lemma upsertObject_distinct k txn st :
  fresh_from k st ->
  match upsertInto txn (doc st) with
  | Ok s1 =>
      exists st', upsertObject (mkTxnObject k txn) st = Ok st' /\
                  doc st' = s1 /\ fresh_from (S k) st'
  | Throw e => upsertObject (mkTxnObject k txn) st = Throw e
  end.
Proof.
  intros (Hlt & Huniq & Hch & Hlen). unfold upsertInto, upsertObject, current.
  cbn [identity fields]. rewrite (lookupObject_fresh k _ Hch).
  destruct (getTransaction (doc st) (Transaction.txnHash txn) (Transaction.chainId txn))
    as [[[i stored]|]|e] eqn:Hget; simpl; [| |reflexivity].
  - assert (Hnth : nth_error (collection (transactions (doc st))) i = Some stored).
    { unfold getTransaction in Hget.
      destruct (JS.BigInt (Transaction.txnHash txn)); [|discriminate].
      now apply find_opt_Some in Hget. }
    destruct (nth i (who st) None) as [t|] eqn:Hwho.
    + eexists. split; [reflexivity|]. cbn [doc who changed]. split.
      * f_equal. apply assignObject_at; [assumption|].
        intros j Hj. now apply (Huniq j i t).
      * repeat split; cbn [doc who changed].
        -- intros j t' Hj. specialize (Hlt j t' Hj). lia.
        -- assumption.
        -- intros t' x [[= <- <-]|Hin]; [specialize (Hlt i t Hwho) | specialize (Hch t' x Hin)]; lia.
        -- simpl. rewrite (assignObject_at t _ (who st) _ i Hwho)
             by (intros j Hj; now apply (Huniq j i t)).
           now rewrite assign_length.
    + eexists. split; [reflexivity|]. cbn [doc who changed]. split; [reflexivity|].
      repeat split; cbn [doc who changed].
      * intros j t' Hj. specialize (Hlt j t' Hj). lia.
      * assumption.
      * intros t' x Hin. specialize (Hch t' x Hin). lia.
      * simpl. now rewrite assign_length.
  - eexists. split; [reflexivity|]. cbn [doc who changed]. split; [reflexivity|].
    set (n := List.length (collection (transactions (doc st)))) in *.
    repeat split; cbn [doc who changed].
    + intros j t Hj. rewrite nth_pad_push in Hj by exact Hlen.
      destruct (j =? n)%nat; [injection Hj as <-; lia | specialize (Hlt j t Hj); lia].
    + intros j j' t Hj Hj'. rewrite nth_pad_push in Hj, Hj' by exact Hlen.
      destruct (Nat.eqb_spec j n) as [->|Hne]; destruct (Nat.eqb_spec j' n) as [->|Hne'].
      * reflexivity.
      * injection Hj as <-. specialize (Hlt j' k Hj'). lia.
      * injection Hj' as <-. specialize (Hlt j k Hj). lia.
      * now apply (Huniq j j' t).
    + intros t x Hin. specialize (Hch t x Hin). lia.
    + simpl. rewrite !length_app. unfold pad. rewrite firstn_all2 by exact Hlen.
      rewrite length_app, repeat_length. simpl. fold n. lia.
Qed.

Lemma forEach_distinct txns : forall k st,
  fresh_from k st ->
  match upsertAll txns (doc st) with
  | Ok s' => exists st', forEach (distinct k txns) st = (Ok tt, st') /\ doc st' = s'
  | Throw e => exists st', forEach (distinct k txns) st = (Throw e, st')
  end.
Proof.
  induction txns as [|txn txns IH]; intros k st Hfresh; simpl; [eauto|].
  pose proof (upsertObject_distinct k txn st Hfresh) as Hstep.
  destruct (upsertInto txn (doc st)) as [s1|e]; simpl.
  - destruct Hstep as (st1 & -> & <- & Hfresh1). apply (IH (S k) st1 Hfresh1).
  - rewrite Hstep. eauto.
Qed.

Lemma fresh_from_start s : fresh_from 0 (mkLoop s [] []).
Proof.
  unfold fresh_from. cbn [doc who changed]. split; [|split; [|split]].
  - intros [|i] t H; discriminate H.
  - intros [|i] j t H; discriminate H.
  - intros t x [].
  - simpl. lia.
Qed.

Lemma upsertTransactions_call txns w st s :
  document w st = Some s ->
  call (upsertTransactions txns) w st
  = match forEach (distinct 0 txns) (mkLoop s [] []) with
    | (Ok _, loop) => writesBack w st (doc loop)
    | (Throw e, loop) => leaves (Throw e) w st (doc loop)
    end.
Proof.
  intros Hdoc. unfold upsertTransactions.
  rewrite (upsertTransactionObjects_run [] (distinct 0 txns) w st s Hdoc).
  now destruct st.
Qed.

Lemma upsertTransactions_run txns w st s s' :
  document w st = Some s ->
  upsertAll txns s = Ok s' ->
  call (upsertTransactions txns) w st = writesBack w st s'.
Proof.
  intros Hdoc Hall. rewrite (upsertTransactions_call txns w st s Hdoc).
  pose proof (forEach_distinct txns 0 (mkLoop s [] []) (fresh_from_start s)) as H.
  cbn [doc] in H. rewrite Hall in H. destruct H as (st' & -> & <-). reflexivity.
Qed.

Lemma upsertTransactions_raises txns w st s e :
  document w st = Some s ->
  upsertAll txns s = Throw e ->
  exists s0, call (upsertTransactions txns) w st = leaves (Throw e) w st s0.
Proof.
  intros Hdoc Hall. rewrite (upsertTransactions_call txns w st s Hdoc).
  pose proof (forEach_distinct txns 0 (mkLoop s [] []) (fresh_from_start s)) as H.
  cbn [doc] in H. rewrite Hall in H. destruct H as (st' & ->). eauto.
Qed.

(** A batch of one transaction whose lookup raises leaves the document. *)
Lemma upsertTransactions_one_raises txn w st s e :
  document w st = Some s ->
  upsertInto txn s = Throw e ->
  call (upsertTransactions [txn]) w st = leaves (Throw e) w st s.
Proof.
  intros Hdoc Hinto. rewrite (upsertTransactions_call [txn] w st s Hdoc).
  pose proof (upsertObject_distinct 0 txn (mkLoop s [] []) (fresh_from_start s)) as H.
  cbn [doc] in H. rewrite Hinto in H. simpl. now rewrite H.
Qed.

Lemma BigInt_raises str e : JS.BigInt str = Throw e -> e = SyntaxError.
Proof.
  unfold JS.BigInt, JS.BigInt_literal, JS.to_SyntaxError.
  repeat match goal with
         | |- context [match ?x with _ => _ end] => destruct x
         end; congruence.
Qed.

Lemma find_raises {A} (p : A -> result bool) l e :
  (forall x e', p x = Throw e' -> e' = SyntaxError) ->
  find p l = Throw e -> e = SyntaxError.
Proof.
  intros Hp. unfold find. generalize 0%nat.
  induction l as [|x l IH]; intros i; simpl; [discriminate|].
  destruct (p x) as [[|]|e'] eqn:Ex; [discriminate | apply IH |].
  intros [= <-]. now apply (Hp x).
Qed.

Lemma getTransaction_raises s txnHash chainId e :
  getTransaction s txnHash chainId = Throw e -> e = SyntaxError.
Proof.
  unfold getTransaction. destruct (JS.BigInt txnHash) as [n|e'] eqn:Hn; simpl.
  - destruct (transactions s) as [l|]; simpl; [|discriminate].
    apply find_raises. intros x e'. unfold key_matches, bigint_is.
    destruct (JS.BigInt (Transaction.txnHash x)) eqn:Hx; simpl; [discriminate|].
    intros [= <-]. now apply (BigInt_raises _ _ Hx).
  - intros [= <-]. now apply (BigInt_raises _ _ Hn).
Qed.

Lemma key_matches_false stored key chain chainId :
  key_matches stored key chain chainId = Ok false <->
  exists v, JS.BigInt stored = Ok v /\ ~ (v = key /\ same_chain chain chainId = true).
Proof.
  unfold key_matches, bigint_is. destruct (JS.BigInt stored) as [v|e]; simpl.
  - destruct (Z.eqb_spec v key) as [->|Hne]; simpl.
    + destruct (same_chain chain chainId).
      * split; [discriminate|]. intros (v & [= <-] & H). elim H. auto.
      * split; [|reflexivity]. intros _. exists key. split; [reflexivity|].
        intros [_ H]. discriminate H.
    + split; [|reflexivity]. intros _. exists v. split; [reflexivity|]. tauto.
  - split; [discriminate|]. intros (v & H & _). discriminate H.
Qed.

Lemma other_key_iff txn n stored :
  JS.BigInt (Transaction.txnHash txn) = Ok n ->
  (key_matches (Transaction.txnHash stored) n (Transaction.chainId stored)
               (Transaction.chainId txn) = Ok false
   <-> other_key txn stored).
Proof.
  intros Hn. rewrite key_matches_false. unfold other_key, same_key, same_integer, numeric.
  split.
  - intros (v & Hv & Hne). split; [eauto|].
    intros [(k & Hk1 & Hk2) Hc]. apply Hne. split; [congruence|].
    now apply same_chain_iff.
  - intros [(v & Hv) Hne]. exists v. split; [assumption|].
    intros [-> Hc]. apply Hne. split; [eauto|]. now apply same_chain_iff.
Qed.

Lemma same_key_iff txn n stored :
  JS.BigInt (Transaction.txnHash txn) = Ok n ->
  (key_matches (Transaction.txnHash stored) n (Transaction.chainId stored)
               (Transaction.chainId txn) = Ok true
   <-> same_key Transaction.txnHash Transaction.chainId stored txn).
Proof.
  intros Hn. rewrite key_matches_true, same_chain_iff.
  unfold same_key, same_integer. split.
  - intros [Hk Hc]. split; [eauto | assumption].
  - intros [(k & Hk1 & Hk2) Hc]. split; [congruence | assumption].
Qed.

Lemma merged_with_iff stored txn r :
  merged_with stored txn r <-> r = mergeTransaction stored txn.
Proof.
  unfold merged_with, mergeTransaction. split.
  - destruct r; simpl. intros (-> & -> & -> & -> & -> & -> & -> & -> & -> & -> & -> & -> & ->).
    reflexivity.
  - intros ->. simpl. repeat split.
Qed.

Lemma assign_middle {A} (before after : list A) x y :
  assign (List.length before) y (before ++ x :: after) = before ++ y :: after.
Proof. induction before as [|b before IH]; simpl; [reflexivity | now rewrite IH]. Qed.

Lemma nth_error_split_at {A} (l : list A) i x :
  nth_error l i = Some x ->
  exists before after, l = before ++ x :: after /\ List.length before = i.
Proof.
  intros H. destruct (nth_error_split l i H) as (before & after & -> & <-). eauto.
Qed.

(** The callback refines the step of the specification. *)
Lemma upsertInto_upserted txn s s1 :
  upsertInto txn s = Ok s1 ->
  upserted txn (collection (transactions s)) (collection (transactions s1)) /\
  s1 = set_transactions s (collection (transactions s1)).
Proof.
  unfold upsertInto, getTransaction.
  destruct (JS.BigInt (Transaction.txnHash txn)) as [n|] eqn:Hn; [|discriminate]. simpl.
  destruct (find_opt _ (transactions s)) as [[[i stored]|]|] eqn:Hf; simpl; try discriminate;
    intros [= <-]; simpl; (split; [|reflexivity]).
  - apply find_opt_Some in Hf. destruct Hf as (Hnth & Hp & Hlt).
    destruct (nth_error_split_at _ _ _ Hnth) as (before & after & E & Hlen).
    rewrite E, <- Hlen, assign_middle. apply upserted_merge.
    + apply Forall_forall. intros y Hy. apply (other_key_iff txn n y Hn).
      destruct (In_nth_error _ _ Hy) as [j Hj].
      apply (Hlt j y).
      * rewrite <- Hlen. apply nth_error_Some. congruence.
      * rewrite E, nth_error_app1; [assumption|]. apply nth_error_Some. congruence.
    + now apply (same_key_iff txn n stored Hn).
    + now apply merged_with_iff.
  - apply upserted_insert; [now exists n|].
    assert (Hall : Forall (fun y => key_matches (Transaction.txnHash y) n
                                      (Transaction.chainId y) (Transaction.chainId txn)
                                    = Ok false)
                          (collection (transactions s))).
    { destruct (transactions s) as [l|]; simpl in *; [now apply find_None | constructor]. }
    eapply Forall_impl; [|exact Hall]. intros y. apply (other_key_iff txn n y Hn).
Qed.

Lemma upserted_upsertInto txn s l1 :
  upserted txn (collection (transactions s)) l1 ->
  upsertInto txn s = Ok (set_transactions s l1).
Proof.
  intros H. unfold upsertInto, getTransaction.
  remember (collection (transactions s)) as l eqn:El.
  destruct H as [l [n Hn] Hall | before stored after r Hall Hsame Hmerged].
  - rewrite Hn. simpl.
    assert (Hf : find_opt (fun y => key_matches (Transaction.txnHash y) n
                                      (Transaction.chainId y) (Transaction.chainId txn))
                          (transactions s) = Ok None).
    { destruct (transactions s) as [l0|]; simpl in *; [|reflexivity]. subst l0.
      apply find_None. eapply Forall_impl; [|exact Hall].
      intros y. apply (other_key_iff txn n y Hn). }
    rewrite Hf. reflexivity.
  - destruct Hsame as [(n & Hs & Hn) Hc]. rewrite Hn. simpl.
    assert (Hf : find_opt (fun y => key_matches (Transaction.txnHash y) n
                                      (Transaction.chainId y) (Transaction.chainId txn))
                          (transactions s) = Ok (Some (List.length before, stored))).
    { destruct (transactions s) as [l0|]; simpl in *; [|now destruct before].
      subst l0. apply find_first.
      - rewrite nth_error_app2, Nat.sub_diag by lia. reflexivity.
      - apply (same_key_iff txn n stored Hn). split; [exists n; auto | assumption].
      - intros j y Hj Hy. rewrite nth_error_app1 in Hy by exact Hj.
        apply (other_key_iff txn n y Hn). rewrite Forall_forall in Hall.
        apply Hall. eapply nth_error_In; eassumption. }
    rewrite Hf. cbn [rmap]. rewrite assign_middle.
    apply merged_with_iff in Hmerged. now subst r.
Qed.

Lemma set_transactions_twice s l1 l2 :
  set_transactions (set_transactions s l1) l2 = set_transactions s l2.
Proof. reflexivity. Qed.

Lemma upsertAll_upsertedAll txns : forall s s',
  upsertAll txns s = Ok s' ->
  upsertedAll txns (collection (transactions s)) (collection (transactions s')) /\
  s' = written s txns (collection (transactions s')).
Proof.
  induction txns as [|txn txns IH]; intros s s' H; simpl in H.
  - injection H as <-. split; [constructor | reflexivity].
  - destruct (upsertInto txn s) as [s1|] eqn:Hinto; [|discriminate]. simpl in H.
    destruct (upsertInto_upserted txn s s1 Hinto) as [Hstep Hs1].
    destruct (IH s1 s' H) as [Hrest Hs'].
    split; [econstructor; eassumption|].
    simpl. rewrite Hs' at 1. destruct txns; simpl.
    + rewrite Hs' at 1. simpl. exact Hs1.
    + rewrite Hs1. reflexivity.
Qed.

Lemma upsertedAll_upsertAll txns : forall s l',
  upsertedAll txns (collection (transactions s)) l' ->
  upsertAll txns s = Ok (written s txns l').
Proof.
  induction txns as [|txn txns IH]; intros s l' H; inversion H; subst; simpl.
  - reflexivity.
  - match goal with Hstep : upserted txn _ ?l1 |- _ =>
      rewrite (upserted_upsertInto txn s l1 Hstep); simpl;
      rewrite (IH (set_transactions s l1) l') by assumption
    end.
    destruct txns; simpl; [|reflexivity].
    match goal with Hrest : upsertedAll [] _ _ |- _ => inversion Hrest; subst end.
    reflexivity.
Qed.

Lemma upsertAll_raises txns : forall s e, upsertAll txns s = Throw e -> e = SyntaxError.
Proof.
  induction txns as [|txn txns IH]; intros s e H; simpl in H; [discriminate|].
  destruct (upsertInto txn s) as [s1|e1] eqn:Hinto; simpl in H.
  - now apply (IH s1).
  - injection H as <-. unfold upsertInto in Hinto.
    destruct (getTransaction s _ _) as [r|e2] eqn:Hget; simpl in Hinto; [discriminate|].
    injection Hinto as <-. now apply (getTransaction_raises _ _ _ _ Hget).
Qed.

(** C7: [upsertTransactions] takes the lock once, fetches the document at
    most once (only when the caller supplies none) and applies the
    locate-then-insert-or-merge step of the specification to every
    transaction of the batch in turn on that one document.  When every step
    is defined, which is the case when the hashes of the batch and of the
    stored transactions are integer literals, it then issues exactly one
    write-back, of the resulting document, whether or not any record changed.
    Otherwise a hash cannot be converted: the call raises the error of the
    conversion, the lock is released and nothing is written back.  (The
    batch consists of distinct objects that the document does not hold.) *)
Theorem upsertTransactions_writes_back_once :
  forall txns w st s,
    document w st = Some s ->
    (Forall (fun t => numeric (Transaction.txnHash t)) txns ->
     Forall (fun t => numeric (Transaction.txnHash t)) (collection (transactions s)) ->
     exists l', upsertedAll txns (collection (transactions s)) l') /\
    ((exists l',
         upsertedAll txns (collection (transactions s)) l' /\
         events (snd (call (upsertTransactions txns) w st))
         = Acquire :: fetched st ++ [Request (Update (written s txns l')); Release] /\
         state (snd (call (upsertTransactions txns) w st)) = Some (written s txns l') /\
         (faults w = [] ->
          fst (call (upsertTransactions txns) w st) = Ok tt /\
          persisted (wallet (snd (call (upsertTransactions txns) w st)))
          = written s txns l'))
     \/
     ((forall l', ~ upsertedAll txns (collection (transactions s)) l') /\
      fst (call (upsertTransactions txns) w st) = Throw SyntaxError /\
      events (snd (call (upsertTransactions txns) w st))
      = Acquire :: fetched st ++ [Release] /\
      persisted (wallet (snd (call (upsertTransactions txns) w st))) = persisted w)).
Proof.
  intros txns w st s Hdoc. split.
  - intros Htx Hall. destruct (upsertAll_numeric txns s Htx Hall) as [s' Hs'].
    exists (collection (transactions s')). now apply upsertAll_upsertedAll.
  - destruct (upsertAll txns s) as [s'|e] eqn:Hall.
    + left. destruct (upsertAll_upsertedAll txns s s' Hall) as [Hrel Hs'].
      exists (collection (transactions s')). rewrite <- Hs'.
      split; [assumption|].
      rewrite (upsertTransactions_run txns w st s s' Hdoc Hall).
      destruct (writesBack_outcome w st s') as (Hst & Hev & Hwb).
      split; [assumption|]. split; [assumption|].
      intros Hf. destruct (writesBack_accepted w st s' Hf) as [Hr Hw].
      split; [assumption|]. now rewrite Hw.
    + right. split.
      * intros l' Hrel. rewrite (upsertedAll_upsertAll txns s l' Hrel) in Hall.
        discriminate.
      * rewrite (upsertAll_raises txns s e Hall) in Hall.
        destruct (upsertTransactions_raises txns w st s _ Hdoc Hall) as [s0 ->].
        destruct (leaves_outcome (@Throw unit SyntaxError) w st s0) as (Hr & _ & Hev & _).
        split; [assumption|]. split; [assumption|].
        unfold leaves, afterFetch. simpl. now destruct st.
Qed.

(** ** Upserting the same record twice *)

Lemma find_opt_push {A} (p : A -> result bool) l r :
  find_opt p l = Ok None -> p r = Ok true ->
  find_opt p (Some (collection l ++ [r])) = Ok (Some (List.length (collection l), r)).
Proof.
  intros Hnone Hr.
  assert (Hall : Forall (fun y => p y = Ok false) (collection l)).
  { destruct l as [xs|]; simpl in *; [now apply find_None | constructor]. }
  apply find_first.
  - rewrite nth_error_app2, Nat.sub_diag by lia. reflexivity.
  - exact Hr.
  - intros j y Hj Hy. rewrite nth_error_app1 in Hy by exact Hj.
    rewrite Forall_forall in Hall. apply Hall. eapply nth_error_In; eassumption.
Qed.

Lemma find_opt_assign {A} (p : A -> result bool) l i a m :
  find_opt p l = Ok (Some (i, a)) -> p m = p a ->
  find_opt p (Some (assign i m (collection l))) = Ok (Some (i, m)).
Proof.
  intros Hfound Hm.
  apply find_opt_Some in Hfound. destruct Hfound as (Hnth & Hp & Hlt).
  apply find_first.
  - apply nth_error_assign_same. apply nth_error_Some. congruence.
  - congruence.
  - intros j y Hj Hy. rewrite nth_error_assign_other in Hy by lia. eauto.
Qed.

Section Keyed.

Context {R : Type}.
Variables key chain : R -> string.

Lemma locateBy_push l r :
  locateBy key chain l (key r) (chain r) = Ok None ->
  same_chain (chain r) (chain r) = true ->
  locateBy key chain (Some (collection l ++ [r])) (key r) (chain r)
  = Ok (Some (List.length (collection l), r)).
Proof.
  unfold locateBy. destruct (JS.BigInt (key r)) as [k|] eqn:Hk; [|discriminate].
  simpl. intros Hnone Hself.
  apply (find_opt_push _ l r Hnone). apply key_matches_true. auto.
Qed.

Lemma locateBy_assign l r i a m :
  locateBy key chain l (key r) (chain r) = Ok (Some (i, a)) ->
  key m = key a -> chain m = chain a ->
  locateBy key chain (Some (assign i m (collection l))) (key r) (chain r)
  = Ok (Some (i, m)).
Proof.
  unfold locateBy. destruct (JS.BigInt (key r)) as [k|] eqn:Hk; [|discriminate].
  simpl. intros Hfound Hkey Hchain.
  apply (find_opt_assign _ l i a m Hfound). now rewrite Hkey, Hchain.
Qed.

End Keyed.

Lemma getNetwork_push s network :
  getNetwork s (Network.chainId network) = Ok None ->
  current_for (Network.chainId network) network ->
  getNetwork (set_networks s (collection (networks s) ++ [network]))
             (Network.chainId network)
  = Ok (Some (List.length (collection (networks s)), network)).
Proof.
  unfold getNetwork. intros Hnone Hcur.
  apply (find_opt_push _ (networks s) network Hnone).
  f_equal. now apply current_for_iff.
Qed.

Lemma getNetwork_assign s network i stored :
  getNetwork s (Network.chainId network) = Ok (Some (i, stored)) ->
  getNetwork (set_networks s (assign i (mergeNetwork stored network)
                                     (collection (networks s))))
             (Network.chainId network)
  = Ok (Some (i, mergeNetwork stored network)).
Proof.
  unfold getNetwork. intros Hfound.
  now apply (find_opt_assign _ (networks s) i stored _ Hfound).
Qed.

Section UpsertTwice.

Variable R : Type.
Variable eq_dec : forall a b : R, {a = b} + {a <> b}.
Variable locate : SnapState -> R -> result (option (ref R)).
Variable merge : R -> R -> R.
Variable getC : SnapState -> option (list R).
Variable setC : SnapState -> list R -> SnapState.

(** The record finds itself once it is stored. *)
Variable locatable : R -> Prop.

Hypothesis locate_push : forall s r,
  locate s r = Ok None -> locatable r ->
  locate (setC s (collection (getC s) ++ [r])) r
  = Ok (Some (List.length (collection (getC s)), r)).
Hypothesis locate_assign : forall s r i a,
  locate s r = Ok (Some (i, a)) ->
  locate (setC s (assign i (merge a r) (collection (getC s)))) r
  = Ok (Some (i, merge a r)).
Hypothesis merge_same : forall r, merge r r = r.

#[local] Abbreviation upsert := (upsertRecord eq_dec locate merge getC setC).

(** After a call that wrote [s'] back to a host without faults, the next
    call works on [s']. *)
Lemma document_after_write w st s' :
  faults w = [] ->
  document (wallet (snd (writesBack w st s')))
           (match st with
            | Some _ => state (snd (writesBack w st s'))
            | None => None
            end) = Some s'.
Proof.
  intros Hf. destruct (writesBack_accepted w st s' Hf) as [_ Hw].
  destruct (writesBack_outcome w st s') as (Hs & _).
  rewrite Hw, Hs. now destruct st.
Qed.

Lemma document_after_leave {A} (res : result A) w st s :
  faults w = [] -> document w st = Some s ->
  document (wallet (snd (leaves res w st s)))
           (match st with
            | Some _ => state (snd (leaves res w st s))
            | None => None
            end) = Some s.
Proof.
  intros Hf Hdoc. unfold leaves. cbn. destruct st as [s0|]; cbn in *.
  - reflexivity.
  - now rewrite Hf in *.
Qed.

(** A record that is not stored is inserted by the first call and found
    unchanged by the second: one write-back in all. *)
Lemma upsertRecord_fresh_twice r w st s :
  faults w = [] -> document w st = Some s ->
  locate s r = Ok None ->
  locatable r ->
  once_then_skip (upsert r) w st.
Proof.
  intros Hf Hdoc Hloc Hself. unfold once_then_skip, no_write_back, again.
  rewrite (upsertRecord_run R eq_dec locate merge getC setC r w st s Hdoc), Hloc.
  set (s1 := setC s (collection (getC s) ++ [r])).
  rewrite (upsertRecord_run R eq_dec locate merge getC setC r _ _ s1
             (document_after_write w st s1 Hf)).
  assert (Hloc1 : locate s1 r = Ok (Some (List.length (collection (getC s)), r)))
    by (apply locate_push; assumption).
  rewrite Hloc1.
  replace (sameJson eq_dec r r) with true by (symmetry; now apply sameJson_true).
  destruct (writesBack_accepted w st s1 Hf) as [Hres _].
  destruct (writesBack_outcome w st s1) as (_ & _ & Hwb).
  rewrite Hwb. repeat split; try assumption;
    match goal with |- context [leaves ?a ?b ?c ?d] =>
      now destruct (leaves_outcome a b c d) as (? & ? & ? & ?) end.
Qed.

(** When a record with the key is stored, the second call skips the
    write-back exactly when the stored record, after the merge of the first
    call, equals the incoming one. *)
Lemma upsertRecord_stored_twice r w st s i a :
  faults w = [] -> document w st = Some s ->
  locate s r = Ok (Some (i, a)) ->
  (no_write_back (call (upsert r) w st) <-> a = r) /\
  (no_write_back (again (upsert r) w st) <-> merge a r = r).
Proof.
  intros Hf Hdoc Hloc. unfold no_write_back, again.
  rewrite (upsertRecord_run R eq_dec locate merge getC setC r w st s Hdoc), Hloc.
  destruct (sameJson eq_dec a r) eqn:Heq.
  - apply sameJson_true in Heq. subst a.
    rewrite (upsertRecord_run R eq_dec locate merge getC setC r _ _ s
               (document_after_leave (Ok tt) w st s Hf Hdoc)), Hloc.
    replace (sameJson eq_dec r r) with true by (symmetry; now apply sameJson_true).
    split; (split; [intros _; auto |]); intros _;
      match goal with |- context [leaves ?a ?b ?c ?d] =>
        now destruct (leaves_outcome a b c d) as (? & ? & ? & ?) end.
  - assert (Hne : a <> r).
    { intros E. apply (sameJson_true eq_dec) in E. congruence. }
    set (s1 := setC s (assign i (merge a r) (collection (getC s)))).
    split.
    + destruct (writesBack_outcome w st s1) as (_ & _ & Hwb). rewrite Hwb.
      split; [discriminate | contradiction].
    + rewrite (upsertRecord_run R eq_dec locate merge getC setC r _ _ s1
                 (document_after_write w st s1 Hf)).
      assert (Hloc1 : locate s1 r = Ok (Some (i, merge a r)))
        by (apply locate_assign; assumption).
      rewrite Hloc1.
      destruct (sameJson eq_dec (merge a r) r) eqn:Heq2.
      * apply sameJson_true in Heq2. split; [auto|]. intros _.
        match goal with |- context [leaves ?a ?b ?c ?d] =>
          now destruct (leaves_outcome a b c d) as (? & ? & ? & ?) end.
      * match goal with |- context [writesBack ?a ?b ?c] =>
          destruct (writesBack_outcome a b c) as (_ & _ & Hwb) end.
        rewrite Hwb. split; [discriminate|].
        intros E. apply (sameJson_true eq_dec) in E. congruence.
Qed.

End UpsertTwice.

Lemma mergeAccount_same r : mergeAccount r r = r.
Proof.
  destruct r as [salt pk addr idx path deploy chain]. unfold mergeAccount. simpl.
  now destruct (JS.truthy deploy).
Qed.

Lemma mergeNetwork_same network : mergeNetwork network network = network.
Proof. now destruct network. Qed.

Lemma mergeErc20Token_same token : mergeErc20Token token token = token.
Proof. now destruct token. Qed.

Lemma mergeTransaction_same txn : mergeTransaction txn txn = txn.
Proof. now destruct txn. Qed.


(** C2, as the code has it: upserting the same record twice in succession,
    on a host that answers.  When the first call inserts the record (no
    stored record has its natural key, and the record is one its locator
    finds: its chain id is a number and, for a network, it is not flagged as
    using old accounts), it performs the one host write-back: the second
    call finds the stored record structurally equal to the incoming one and
    skips the update.  When a record with that key is already stored, the
    first call writes back unless the stored record equals the incoming one,
    and the second call skips the update exactly when the stored record,
    after the merge, is structurally equal to the incoming one. *)
Theorem upsert_twice :
  forall w st s,
    faults w = [] ->
    document w st = Some s ->
    (forall userAccount,
        (getAccount s (AccContract.address userAccount) (AccContract.chainId userAccount)
         = Ok None ->
         same_chain (AccContract.chainId userAccount) (AccContract.chainId userAccount) = true ->
         once_then_skip (upsertAccount userAccount) w st) /\
        (forall i storedAccount,
            getAccount s (AccContract.address userAccount) (AccContract.chainId userAccount)
            = Ok (Some (i, storedAccount)) ->
            (no_write_back (call (upsertAccount userAccount) w st)
             <-> storedAccount = userAccount) /\
            (no_write_back (again (upsertAccount userAccount) w st)
             <-> mergeAccount storedAccount userAccount = userAccount))) /\
    (forall network,
        (getNetwork s (Network.chainId network) = Ok None ->
         current_for (Network.chainId network) network ->
         once_then_skip (upsertNetwork network) w st) /\
        (forall i storedNetwork,
            getNetwork s (Network.chainId network) = Ok (Some (i, storedNetwork)) ->
            (no_write_back (call (upsertNetwork network) w st)
             <-> storedNetwork = network) /\
            (no_write_back (again (upsertNetwork network) w st)
             <-> mergeNetwork storedNetwork network = network))) /\
    (forall erc20Token,
        (getErc20Token s (Erc20Token.address erc20Token) (Erc20Token.chainId erc20Token)
         = Ok None ->
         same_chain (Erc20Token.chainId erc20Token) (Erc20Token.chainId erc20Token) = true ->
         once_then_skip (upsertErc20Token erc20Token) w st) /\
        (forall i storedErc20Token,
            getErc20Token s (Erc20Token.address erc20Token) (Erc20Token.chainId erc20Token)
            = Ok (Some (i, storedErc20Token)) ->
            (no_write_back (call (upsertErc20Token erc20Token) w st)
             <-> storedErc20Token = erc20Token) /\
            (no_write_back (again (upsertErc20Token erc20Token) w st)
             <-> mergeErc20Token storedErc20Token erc20Token = erc20Token))) /\
    (forall txn,
        (getTransaction s (Transaction.txnHash txn) (Transaction.chainId txn) = Ok None ->
         same_chain (Transaction.chainId txn) (Transaction.chainId txn) = true ->
         once_then_skip (upsertTransaction txn) w st) /\
        (forall i storedTxn,
            getTransaction s (Transaction.txnHash txn) (Transaction.chainId txn)
            = Ok (Some (i, storedTxn)) ->
            (no_write_back (call (upsertTransaction txn) w st)
             <-> storedTxn = txn) /\
            (no_write_back (again (upsertTransaction txn) w st)
             <-> mergeTransaction storedTxn txn = txn))).
Proof.
  intros w st s Hf Hdoc. split; [|split; [|split]].
  - intros r. split.
    + exact (upsertRecord_fresh_twice AccContract.t AccContract.eq_dec
               (fun s r => getAccount s (AccContract.address r) (AccContract.chainId r))
               mergeAccount accContracts set_accContracts
               (fun r => same_chain (AccContract.chainId r) (AccContract.chainId r) = true)
               (fun s r => locateBy_push AccContract.address AccContract.chainId
                                         (accContracts s) r)
               r w st s Hf Hdoc).
    + intros i a.
      exact (upsertRecord_stored_twice AccContract.t AccContract.eq_dec
               (fun s r => getAccount s (AccContract.address r) (AccContract.chainId r))
               mergeAccount accContracts set_accContracts
               (fun s r i a H => locateBy_assign AccContract.address AccContract.chainId
                                   (accContracts s) r i a (mergeAccount a r) H
                                   eq_refl eq_refl)
               mergeAccount_same r w st s i a Hf Hdoc).
  - intros r. split.
    + exact (upsertRecord_fresh_twice Network.t Network.eq_dec
               (fun s r => getNetwork s (Network.chainId r))
               mergeNetwork networks set_networks
               (fun r => current_for (Network.chainId r) r)
               getNetwork_push
               r w st s Hf Hdoc).
    + intros i a.
      exact (upsertRecord_stored_twice Network.t Network.eq_dec
               (fun s r => getNetwork s (Network.chainId r))
               mergeNetwork networks set_networks
               getNetwork_assign
               mergeNetwork_same r w st s i a Hf Hdoc).
  - intros r. split.
    + exact (upsertRecord_fresh_twice Erc20Token.t Erc20Token.eq_dec
               (fun s r => getErc20Token s (Erc20Token.address r) (Erc20Token.chainId r))
               mergeErc20Token erc20Tokens set_erc20Tokens
               (fun r => same_chain (Erc20Token.chainId r) (Erc20Token.chainId r) = true)
               (fun s r => locateBy_push Erc20Token.address Erc20Token.chainId
                                         (erc20Tokens s) r)
               r w st s Hf Hdoc).
    + intros i a.
      exact (upsertRecord_stored_twice Erc20Token.t Erc20Token.eq_dec
               (fun s r => getErc20Token s (Erc20Token.address r) (Erc20Token.chainId r))
               mergeErc20Token erc20Tokens set_erc20Tokens
               (fun s r i a H => locateBy_assign Erc20Token.address Erc20Token.chainId
                                   (erc20Tokens s) r i a (mergeErc20Token a r) H
                                   eq_refl eq_refl)
               mergeErc20Token_same r w st s i a Hf Hdoc).
  - intros r. split.
    + exact (upsertRecord_fresh_twice Transaction.t Transaction.eq_dec
               (fun s r => getTransaction s (Transaction.txnHash r) (Transaction.chainId r))
               mergeTransaction transactions set_transactions
               (fun r => same_chain (Transaction.chainId r) (Transaction.chainId r) = true)
               (fun s r => locateBy_push Transaction.txnHash Transaction.chainId
                                         (transactions s) r)
               r w st s Hf Hdoc).
    + intros i a.
      exact (upsertRecord_stored_twice Transaction.t Transaction.eq_dec
               (fun s r => getTransaction s (Transaction.txnHash r) (Transaction.chainId r))
               mergeTransaction transactions set_transactions
               (fun s r i a H => locateBy_assign Transaction.txnHash Transaction.chainId
                                   (transactions s) r i a (mergeTransaction a r) H
                                   eq_refl eq_refl)
               mergeTransaction_same r w st s i a Hf Hdoc).
Qed.

Lemma upsert_twice_witness :
  once_then_skip (upsertAccount Sample.account) (Sample.host Sample.empty) None /\
  (no_write_back (call (upsertAccount Sample.account_hex)
                       (Sample.host Sample.withAccount) None)
   <-> Sample.account = Sample.account_hex) /\
  (no_write_back (again (upsertAccount Sample.account_hex)
                        (Sample.host Sample.withAccount) None)
   <-> mergeAccount Sample.account Sample.account_hex = Sample.account_hex).
Proof.
  split.
  - destruct (upsert_twice (Sample.host Sample.empty) None Sample.empty
                eq_refl eq_refl) as (Hacc & _).
    apply (proj1 (Hacc Sample.account)); reflexivity.
  - destruct (upsert_twice (Sample.host Sample.withAccount) None Sample.withAccount
                eq_refl eq_refl) as (Hacc & _).
    apply (proj2 (Hacc Sample.account_hex) 0%nat Sample.account). reflexivity.
Defined.

(** C2, as the specification states it, fails: the stored account has the
    natural key of the incoming one under another spelling of the address;
    the merge leaves the stored address as it is, so the stored record never
    becomes equal to the incoming one and both calls write back. *)
Lemma upsert_twice_writes_back_twice :
  getAccount Sample.withAccount (AccContract.address Sample.account_hex)
             (AccContract.chainId Sample.account_hex)
  = Ok (Some (0%nat, Sample.account)) /\
  List.length (writeBacks (events (snd (call (upsertAccount Sample.account_hex)
                                             (Sample.host Sample.withAccount) None)))) = 1%nat /\
  List.length (writeBacks (events (snd (again (upsertAccount Sample.account_hex)
                                              (Sample.host Sample.withAccount) None)))) = 1%nat.
Proof. repeat split. Qed.

(** A record that is stored unchanged is written back by neither call. *)
Example upsert_twice_unchanged :
  writeBacks (events (snd (call (upsertAccount Sample.account)
                                (Sample.host Sample.withAccount) None))) = [] /\
  writeBacks (events (snd (again (upsertAccount Sample.account)
                                 (Sample.host Sample.withAccount) None))) = [].
Proof. split; reflexivity. Qed.

Lemma upsertAccount_merges_mutable_fields_witness :
  exists s' merged,
    state (snd (call (upsertAccount Sample.account_hex) (Sample.host Sample.withAccount) None))
    = Some s' /\
    nth_error (collection (accContracts s')) 0 = Some merged /\
    AccContract.address merged = AccContract.address Sample.account /\
    AccContract.chainId merged = AccContract.chainId Sample.account /\
    AccContract.addressSalt merged = AccContract.addressSalt Sample.account_hex /\
    AccContract.addressIndex merged = AccContract.addressIndex Sample.account_hex /\
    AccContract.derivationPath merged = AccContract.derivationPath Sample.account_hex /\
    AccContract.publicKey merged = AccContract.publicKey Sample.account_hex /\
    AccContract.deployTxnHash merged
    = (if JS.truthy (AccContract.deployTxnHash Sample.account_hex)
       then AccContract.deployTxnHash Sample.account_hex
       else AccContract.deployTxnHash Sample.account) /\
    List.length (collection (accContracts s'))
    = List.length (collection (accContracts Sample.withAccount)) /\
    (forall j, j <> 0%nat ->
               nth_error (collection (accContracts s')) j
               = nth_error (collection (accContracts Sample.withAccount)) j) /\
    erc20Tokens s' = erc20Tokens Sample.withAccount /\
    networks s' = networks Sample.withAccount /\
    transactions s' = transactions Sample.withAccount.
Proof.
  apply (upsertAccount_merges_mutable_fields Sample.account_hex
           (Sample.host Sample.withAccount) None Sample.withAccount 0%nat Sample.account);
    reflexivity.
Defined.

Lemma upsertTransactions_writes_back_once_witness :
  exists l',
    upsertedAll [Sample.old_l2;
                 Sample.txn "0x20" "1" "0xc" "RECEIVED" 200;
                 Sample.txn "17" "0x1" "0xb" "ACCEPTED_ON_L1" 160]
                [Sample.old_l2; Sample.recent_l2; Sample.pending; Sample.recent_l1] l'.
Proof.
  apply (proj1 (upsertTransactions_writes_back_once
                  [Sample.old_l2;
                   Sample.txn "0x20" "1" "0xc" "RECEIVED" 200;
                   Sample.txn "17" "0x1" "0xb" "ACCEPTED_ON_L1" 160]
                  (Sample.host Sample.withTransactions) None Sample.withTransactions
                  eq_refl)).
  - repeat constructor; eexists; reflexivity.
  - repeat constructor; eexists; reflexivity.
Defined.

(** The batch of the example: the first transaction is stored unchanged,
    the second one is new, the third one updates a stored transaction under
    another spelling of its key. *)
Example upsertTransactions_batch :
  events (snd (call (upsertTransactions
                       [Sample.old_l2;
                        Sample.txn "0x20" "1" "0xc" "RECEIVED" 200;
                        Sample.txn "17" "0x1" "0xb" "ACCEPTED_ON_L1" 160])
                    (Sample.host Sample.withTransactions) None))
  = [Acquire; Request Get;
     Request (Update (set_transactions Sample.withTransactions
                        [Sample.old_l2;
                         Sample.txn "0x11" "1" "0xb" "ACCEPTED_ON_L1" 160;
                         Sample.pending; Sample.recent_l1;
                         Sample.txn "0x20" "1" "0xc" "RECEIVED" 200]));
     Release].
Proof. reflexivity. Qed.

(** A hash that is no integer literal makes the call raise before any
    write-back; the transactions before it have been stored in the
    caller's document. *)
Example upsertTransactions_bad_hash :
  call (upsertTransactions [Sample.old_l2; Sample.txn "zz" "1" "0xa" "RECEIVED" 1])
       (Sample.host Sample.empty) (Some Sample.empty)
  = (Throw SyntaxError,
     mkEnv (Sample.host Sample.empty) [Acquire; Release]
           (Some (set_transactions Sample.empty [Sample.old_l2]))).
Proof. reflexivity. Qed.

(** When an object occurs twice in the batch, or is held by the supplied
    document, an assignment to the stored object shows in the batch: the
    later occurrence merges the fields the object has by then, not the ones
    it had at the call. *)
Example upsertTransactionObjects_shared_object :
  let a := Sample.old_l2 in
  let b := Sample.txn "16" "0x1" "0xa" "PENDING" 60 in
  state (snd (call (upsertTransactionObjects []
                      [mkTxnObject 0 a; mkTxnObject 1 b; mkTxnObject 0 a])
                   (Sample.host Sample.empty) None))
  = Some (set_transactions Sample.empty [mergeTransaction a b]) /\
  state (snd (call (upsertTransactions [a; b; a]) (Sample.host Sample.empty) None))
  = Some (set_transactions Sample.empty [a]) /\
  state (snd (call (upsertTransactionObjects [Some 0%nat]
                      [mkTxnObject 1 b; mkTxnObject 0 a])
                   (Sample.host Sample.empty)
                   (Some (set_transactions Sample.empty [a]))))
  = Some (set_transactions Sample.empty [mergeTransaction a b]) /\
  mergeTransaction a b <> a.
Proof. repeat split; try reflexivity. discriminate. Qed.

(** A batch that changes no record is written back all the same. *)
Example upsertTransactions_unchanged_batch :
  events (snd (call (upsertTransactions [Sample.old_l2])
                    (Sample.host Sample.withTransactions) None))
  = [Acquire; Request Get; Request (Update Sample.withTransactions); Release].
Proof. reflexivity. Qed.

(** * Further properties *)

(** ** The shape of every operation *)

Lemma document_None w st :
  document w st = None -> st = None /\ exists fs, faults w = true :: fs.
Proof.
  destruct st as [s|]; simpl; [discriminate|].
  destruct (faults w) as [|[|] fs]; try discriminate. eauto.
Qed.

Lemma fetch_rejected {A} (k : SnapState -> M A) w fs :
  faults w = true :: fs ->
  call (runExclusive (mbind fetchState k)) w None = fetchFails w.
Proof.
  intros Hf. destruct w as [pw fl]. simpl in Hf. subst fl. reflexivity.
Qed.

Lemma upsertRecord_critical R eq_dec locate merge getC setC (r : R) :
  critical (upsertRecord eq_dec locate merge getC setC r).
Proof.
  intros w st. destruct (document w st) as [s|] eqn:Hdoc.
  - rewrite (upsertRecord_run R eq_dec locate merge getC setC r w st s Hdoc).
    destruct (locate s r) as [[[i old]|]|e]; eauto.
    destruct (sameJson eq_dec old r); eauto.
  - destruct (document_None w st Hdoc) as (-> & fs & Hf).
    apply (fetch_rejected _ w fs Hf).
Qed.

Lemma upsertAccount_critical userAccount : critical (upsertAccount userAccount).
Proof.
  exact (upsertRecord_critical AccContract.t AccContract.eq_dec
           (fun s r => getAccount s (AccContract.address r) (AccContract.chainId r))
           mergeAccount accContracts set_accContracts userAccount).
Qed.

Lemma upsertNetwork_critical network : critical (upsertNetwork network).
Proof.
  exact (upsertRecord_critical Network.t Network.eq_dec
           (fun s r => getNetwork s (Network.chainId r))
           mergeNetwork networks set_networks network).
Qed.

Lemma upsertErc20Token_critical erc20Token : critical (upsertErc20Token erc20Token).
Proof.
  exact (upsertRecord_critical Erc20Token.t Erc20Token.eq_dec
           (fun s r => getErc20Token s (Erc20Token.address r) (Erc20Token.chainId r))
           mergeErc20Token erc20Tokens set_erc20Tokens erc20Token).
Qed.

Lemma upsertTransaction_critical txn : critical (upsertTransaction txn).
Proof.
  exact (upsertRecord_critical Transaction.t Transaction.eq_dec
           (fun s r => getTransaction s (Transaction.txnHash r) (Transaction.chainId r))
           mergeTransaction transactions set_transactions txn).
Qed.

Lemma removeAcceptedTransaction_critical minTimeStamp :
  critical (removeAcceptedTransaction minTimeStamp).
Proof.
  intros w st. destruct (document w st) as [s|] eqn:Hdoc.
  - rewrite (removeAcceptedTransaction_run minTimeStamp w st s Hdoc).
    destruct (transactions s); eauto.
  - destruct (document_None w st Hdoc) as (-> & fs & Hf).
    apply (fetch_rejected _ w fs Hf).
Qed.

Lemma upsertTransactions_critical txns : critical (upsertTransactions txns).
Proof.
  intros w st. destruct (document w st) as [s|] eqn:Hdoc.
  - destruct (upsertAll txns s) as [s'|e] eqn:Hall.
    + right. right. exists s'. now apply (upsertTransactions_run txns w st s s').
    + left. destruct (upsertTransactions_raises txns w st s e Hdoc Hall) as [s0 H].
      exists e, s0. exact H.
  - destruct (document_None w st Hdoc) as (-> & fs & Hf).
    destruct w as [pw fl]. simpl in Hf. subst fl. reflexivity.
Qed.

Lemma perform_critical o : critical (perform o).
Proof.
  destruct o; simpl.
  - apply upsertAccount_critical.
  - apply upsertNetwork_critical.
  - apply upsertErc20Token_critical.
  - apply upsertTransaction_critical.
  - apply upsertTransactions_critical.
  - apply removeAcceptedTransaction_critical.
Qed.

(** ** The lock and the host requests *)

(** Every mutating operation, on every path (normal return, no-op, error
    raised by a lookup, request rejected by the host): takes the lock first,
    issues a [get] request exactly when it is given no document, then at
    most one [update] request, and releases the lock last. *)
Theorem operation_events :
  forall o w st,
    exists written,
      events (snd (call (perform o) w st))
      = Acquire :: fetched st ++ map (fun s => Request (Update s)) written ++ [Release]
      /\ (List.length written <= 1)%nat
      /\ writeBacks (events (snd (call (perform o) w st))) = written.
Proof.
  intros o w st. pose proof (perform_critical o w st) as H.
  destruct (document w st) as [s|] eqn:Hdoc.
  - destruct H as [(e & s0 & ->)|[->|(s' & ->)]].
    + exists []. destruct (leaves_outcome (@Throw unit e) w st s0) as (_ & _ & -> & ?).
      repeat split; simpl; auto.
      all: try (now rewrite writeBacks_app, writeBacks_fetched).
    + exists []. destruct (leaves_outcome (Ok tt) w st s) as (_ & _ & -> & ?).
      repeat split; simpl; auto.
      all: try (now rewrite writeBacks_app, writeBacks_fetched).
    + exists [s']. destruct (writesBack_outcome w st s') as (_ & -> & ?).
      repeat split; simpl; auto.
      all: try (now rewrite writeBacks_app, writeBacks_fetched).
  - destruct (document_None w st Hdoc) as (-> & fs & Hf). rewrite H.
    exists []. repeat split; simpl; auto.
Qed.

(** When the host rejects the [get] request, the operation raises the
    host's error, issues no write-back and leaves the persisted document as
    it is. *)
Theorem rejected_fetch_changes_nothing :
  forall o w fs,
    faults w = true :: fs ->
    fst (call (perform o) w None) = Throw HostError /\
    events (snd (call (perform o) w None)) = [Acquire; Request Get; Release] /\
    wallet (snd (call (perform o) w None)) = mkWallet (persisted w) fs /\
    state (snd (call (perform o) w None)) = None.
Proof.
  intros o w fs Hf. pose proof (perform_critical o w None) as H.
  simpl in H. rewrite Hf in H. rewrite H. unfold fetchFails. simpl.
  rewrite Hf. auto.
Qed.

Lemma rejected_fetch_changes_nothing_witness :
  fst (call (perform (UpsertAccount Sample.account))
            (mkWallet Sample.empty [true]) None) = Throw HostError /\
  events (snd (call (perform (UpsertAccount Sample.account))
                    (mkWallet Sample.empty [true]) None))
  = [Acquire; Request Get; Release] /\
  wallet (snd (call (perform (UpsertAccount Sample.account))
                    (mkWallet Sample.empty [true]) None)) = mkWallet Sample.empty [] /\
  state (snd (call (perform (UpsertAccount Sample.account))
                   (mkWallet Sample.empty [true]) None)) = None.
Proof.
  apply (rejected_fetch_changes_nothing (UpsertAccount Sample.account)
           (mkWallet Sample.empty [true]) []).
  reflexivity.
Defined.

(** When the host rejects the [update] request of an operation that was
    given a document, the operation raises the host's error and the
    persisted document stays as it was, but the caller's document has
    already been modified: it is the document the operation tried to
    write. *)
Theorem rejected_update_leaves_documents_apart :
  forall o w fs s s',
    faults w = true :: fs ->
    writeBacks (events (snd (call (perform o) w (Some s)))) = [s'] ->
    fst (call (perform o) w (Some s)) = Throw HostError /\
    persisted (wallet (snd (call (perform o) w (Some s)))) = persisted w /\
    state (snd (call (perform o) w (Some s))) = Some s'.
Proof.
  intros o w fs s s' Hf Hwb. pose proof (perform_critical o w (Some s)) as H.
  simpl in H. destruct H as [(e & s0 & H)|[H|(s1 & H)]]; rewrite H in *.
  - destruct (leaves_outcome (@Throw unit e) w (Some s) s0) as (_ & _ & _ & E).
    rewrite E in Hwb. discriminate.
  - destruct (leaves_outcome (Ok tt) w (Some s) s) as (_ & _ & _ & E).
    rewrite E in Hwb. discriminate.
  - destruct (writesBack_outcome w (Some s) s1) as (_ & _ & E).
    rewrite E in Hwb. injection Hwb as ->.
    unfold writesBack, serve, afterFetch. rewrite Hf. simpl. auto.
Qed.

Lemma rejected_update_leaves_documents_apart_witness :
  fst (call (perform (UpsertAccount Sample.account))
            (mkWallet Sample.empty [true]) (Some Sample.empty)) = Throw HostError /\
  persisted (wallet (snd (call (perform (UpsertAccount Sample.account))
                               (mkWallet Sample.empty [true]) (Some Sample.empty))))
  = Sample.empty /\
  state (snd (call (perform (UpsertAccount Sample.account))
                   (mkWallet Sample.empty [true]) (Some Sample.empty)))
  = Some Sample.withAccount.
Proof.
  apply (rejected_update_leaves_documents_apart (UpsertAccount Sample.account)
           (mkWallet Sample.empty [true]) [] Sample.empty Sample.withAccount);
    reflexivity.
Defined.

(** What an operation writes back is the document it ends with; when it
    returns without writing back, the document is as it was. *)
Theorem written_document_is_final :
  forall o w st s,
    document w st = Some s ->
    (forall s', writeBacks (events (snd (call (perform o) w st))) = [s'] ->
                state (snd (call (perform o) w st)) = Some s') /\
    (fst (call (perform o) w st) = Ok tt ->
     writeBacks (events (snd (call (perform o) w st))) = [] ->
     state (snd (call (perform o) w st)) = Some s).
Proof.
  intros o w st s Hdoc. pose proof (perform_critical o w st) as H.
  rewrite Hdoc in H. destruct H as [(e & s0 & H)|[H|(s1 & H)]]; rewrite H.
  - destruct (leaves_outcome (@Throw unit e) w st s0) as (Hr & _ & _ & E).
    rewrite E, Hr. split; [discriminate|discriminate].
  - destruct (leaves_outcome (Ok tt) w st s) as (_ & Hs & _ & E).
    rewrite E. split; [discriminate | auto].
  - destruct (writesBack_outcome w st s1) as (Hs & _ & E).
    rewrite E. split; [now intros s' [= <-] | discriminate].
Qed.

Lemma written_document_is_final_witness :
  (forall s', writeBacks (events (snd (call (perform (UpsertAccount Sample.account))
                                            (Sample.host Sample.empty) None))) = [s'] ->
              state (snd (call (perform (UpsertAccount Sample.account))
                               (Sample.host Sample.empty) None)) = Some s') /\
  (fst (call (perform (UpsertAccount Sample.account)) (Sample.host Sample.empty) None)
   = Ok tt ->
   writeBacks (events (snd (call (perform (UpsertAccount Sample.account))
                                 (Sample.host Sample.empty) None))) = [] ->
   state (snd (call (perform (UpsertAccount Sample.account))
                    (Sample.host Sample.empty) None)) = Some Sample.empty).
Proof.
  apply (written_document_is_final (UpsertAccount Sample.account)
           (Sample.host Sample.empty) None Sample.empty).
  reflexivity.
Defined.

(** On a host that answers, an operation that is given no document and
    returns normally leaves the host with the document it ends with. *)
Theorem host_and_document_agree :
  forall o w,
    faults w = [] ->
    fst (call (perform o) w None) = Ok tt ->
    state (snd (call (perform o) w None))
    = Some (persisted (wallet (snd (call (perform o) w None)))).
Proof.
  intros o w Hf. pose proof (perform_critical o w None) as H.
  simpl in H. rewrite Hf in H.
  destruct H as [(e & s0 & H)|[H|(s1 & H)]]; rewrite H.
  - destruct (leaves_outcome (@Throw unit e) w None s0) as (Hr & _).
    rewrite Hr. discriminate.
  - intros _. unfold leaves. simpl. reflexivity.
  - intros _. destruct (writesBack_outcome w None s1) as (Hs & _).
    destruct (writesBack_accepted w None s1 Hf) as (_ & Hw).
    now rewrite Hs, Hw.
Qed.

Lemma host_and_document_agree_witness :
  state (snd (call (perform (UpsertAccount Sample.account)) (Sample.host Sample.empty) None))
  = Some (persisted (wallet (snd (call (perform (UpsertAccount Sample.account))
                                       (Sample.host Sample.empty) None)))).
Proof.
  apply (host_and_document_agree (UpsertAccount Sample.account) (Sample.host Sample.empty));
    reflexivity.
Defined.

(** ** What an upsert does to the collection *)

Lemma assign_same {A} i (x : A) l : nth_error l i = Some x -> assign i x l = l.
Proof.
  revert i. induction l as [|y l IH]; intros [|i] H; simpl in *; try discriminate.
  - now injection H as ->.
  - f_equal. now apply IH.
Qed.

Lemma nth_error_assign {A} i j (x : A) l y :
  nth_error (assign i x l) j = Some y ->
  (j = i /\ y = x /\ (i < List.length l)%nat) \/ (j <> i /\ nth_error l j = Some y).
Proof.
  intros H. destruct (Nat.eq_dec j i) as [->|Hne].
  - left. assert (Hi : (i < List.length l)%nat).
    { rewrite <- (assign_length i x l). apply nth_error_Some. congruence. }
    rewrite nth_error_assign_same in H by exact Hi. now injection H as <-.
  - right. now rewrite nth_error_assign_other in H.
Qed.

Section UpsertRecordFacts.

Variable R : Type.
Variable eq_dec : forall a b : R, {a = b} + {a <> b}.
Variable locate : SnapState -> R -> result (option (ref R)).
Variable merge : R -> R -> R.
Variable getC : SnapState -> option (list R).
Variable setC : SnapState -> list R -> SnapState.

Hypothesis getC_setC : forall s l, getC (setC s l) = Some l.
Hypothesis locate_nth : forall s r i a,
  locate s r = Ok (Some (i, a)) -> nth_error (collection (getC s)) i = Some a.

#[local] Abbreviation upsert := (upsertRecord eq_dec locate merge getC setC).

(** The document an upsert ends with, by cases on what the locator
    returns. *)
Lemma upsertRecord_final r w st s s' :
  document w st = Some s ->
  state (snd (call (upsert r) w st)) = Some s' ->
  (s' = s /\ ((exists e, locate s r = Throw e) \/ (exists i, locate s r = Ok (Some (i, r)))))
  \/ (locate s r = Ok None /\ s' = setC s (collection (getC s) ++ [r]))
  \/ (exists i a, locate s r = Ok (Some (i, a)) /\ a <> r /\
                  s' = setC s (assign i (merge a r) (collection (getC s)))).
Proof.
  intros Hdoc. rewrite (upsertRecord_run R eq_dec locate merge getC setC r w st s Hdoc).
  destruct (locate s r) as [[[i a]|]|e] eqn:Hloc.
  - destruct (sameJson eq_dec a r) eqn:Heq.
    + apply sameJson_true in Heq. subst a.
      destruct (leaves_outcome (Ok tt) w st s) as (_ & -> & _).
      intros [= <-]. left. eauto.
    + match goal with |- context [writesBack ?a ?b ?c] =>
        destruct (writesBack_outcome a b c) as (-> & _) end.
      intros [= <-]. right. right. exists i, a. repeat split.
      intros E. apply (sameJson_true eq_dec) in E. congruence.
  - match goal with |- context [writesBack ?a ?b ?c] =>
      destruct (writesBack_outcome a b c) as (-> & _) end.
    intros [= <-]. right. left. auto.
  - destruct (leaves_outcome (@Throw unit e) w st s) as (_ & -> & _).
    intros [= <-]. left. eauto.
Qed.

(** A property of the records that the merge keeps. *)
Lemma upsertRecord_Forall (P : R -> Prop) r w st s s' :
  (forall a x, P a -> P (merge a x)) ->
  document w st = Some s ->
  state (snd (call (upsert r) w st)) = Some s' ->
  P r -> Forall P (collection (getC s)) -> Forall P (collection (getC s')).
Proof.
  intros Hmerge Hdoc Hs' Hr Hall.
  destruct (upsertRecord_final r w st s s' Hdoc Hs')
    as [[-> _]|[[Hloc ->]|(i & a & Hloc & _ & ->)]].
  - assumption.
  - rewrite getC_setC. simpl. apply Forall_app. split; [assumption | now constructor].
  - rewrite getC_setC. simpl. apply Forall_assign; [assumption|].
    apply Hmerge. apply locate_nth in Hloc. rewrite Forall_forall in Hall.
    apply Hall. eapply nth_error_In; eassumption.
Qed.


Variable same_identity : R -> R -> Prop.
Hypothesis same_identity_refl : forall x, same_identity x x.
Hypothesis same_identity_merge : forall a r, same_identity a (merge a r).

(** Every stored record keeps its place and its identity; at most one
    record is appended. *)
Lemma upsertRecord_extends r w st s s' :
  document w st = Some s ->
  state (snd (call (upsert r) w st)) = Some s' ->
  extends_by 1 same_identity (collection (getC s)) (collection (getC s')).
Proof.
  intros Hdoc Hs'.
  destruct (upsertRecord_final r w st s s' Hdoc Hs')
    as [[-> _]|[[Hloc ->]|(i & a & Hloc & _ & ->)]].
  - split; [lia|]. intros j x Hj. eauto.
  - rewrite getC_setC. simpl. split.
    + rewrite length_app. simpl. lia.
    + intros j x Hj. exists x. split; [|auto].
      rewrite nth_error_app1; [assumption|]. apply nth_error_Some. congruence.
  - rewrite getC_setC. simpl. apply locate_nth in Hloc. split.
    + rewrite assign_length. lia.
    + intros j x Hj. destruct (Nat.eq_dec j i) as [->|Hne].
      * exists (merge a r). split.
        -- apply nth_error_assign_same. apply nth_error_Some. congruence.
        -- assert (x = a) by congruence. subst x. auto.
      * exists x. split; [|auto]. now rewrite nth_error_assign_other.
Qed.

Variable rel : R -> R -> Prop.
Hypothesis rel_merge_l : forall a r z, rel (merge a r) z <-> rel a z.
Hypothesis rel_merge_r : forall a r z, rel z (merge a r) <-> rel z a.
Hypothesis locate_none : forall s r y,
  locate s r = Ok None -> In y (collection (getC s)) -> ~ rel y r.

(** An upsert keeps the stored records pairwise unrelated. *)
Lemma upsertRecord_unique r w st s s' :
  document w st = Some s ->
  state (snd (call (upsert r) w st)) = Some s' ->
  unique_by rel (collection (getC s)) ->
  unique_by rel (collection (getC s')).
Proof.
  intros Hdoc Hs' Huniq.
  destruct (upsertRecord_final r w st s s' Hdoc Hs')
    as [[-> _]|[[Hloc ->]|(i & a & Hloc & _ & ->)]].
  - assumption.
  - rewrite getC_setC. simpl. intros j k x y Hjk Hx Hy.
    assert (Hk : (k < List.length (collection (getC s) ++ [r]))%nat)
      by (apply nth_error_Some; congruence).
    rewrite length_app in Hk. simpl in Hk.
    rewrite nth_error_app1 in Hx by lia.
    destruct (Nat.eq_dec k (List.length (collection (getC s)))) as [->|Hne].
    + rewrite nth_error_app2, Nat.sub_diag in Hy by lia. injection Hy as <-.
      apply (locate_none s r x Hloc). eapply nth_error_In; eassumption.
    + rewrite nth_error_app1 in Hy by lia. apply (Huniq j k x y Hjk Hx Hy).
  - rewrite getC_setC. simpl. apply locate_nth in Hloc.
    intros j k x y Hjk Hx Hy Hrel.
    apply nth_error_assign in Hx. apply nth_error_assign in Hy.
    destruct Hx as [(-> & -> & _)|(Hj & Hx)]; destruct Hy as [(-> & -> & _)|(Hk & Hy)].
    + lia.
    + apply rel_merge_l in Hrel. apply (Huniq i k a y Hjk Hloc Hy Hrel).
    + apply rel_merge_r in Hrel. apply (Huniq j i x a Hjk Hx Hloc Hrel).
    + apply (Huniq j k x y Hjk Hx Hy Hrel).
Qed.

End UpsertRecordFacts.

Section KeyedFacts.

Context {R : Type}.
Variables key chain : R -> string.

Lemma locateBy_nth l r i a :
  locateBy key chain l (key r) (chain r) = Ok (Some (i, a)) ->
  nth_error (collection l) i = Some a /\ same_key key chain a r.
Proof.
  unfold locateBy. destruct (JS.BigInt (key r)) as [k|] eqn:Hk; [|discriminate].
  simpl. intros H. apply find_opt_Some in H. destruct H as (Hn & Hp & _).
  apply key_matches_true in Hp. destruct Hp as [Ha Hc].
  split; [assumption|]. split; [exists k; auto | now apply same_chain_iff].
Qed.

Lemma locateBy_none l r y :
  locateBy key chain l (key r) (chain r) = Ok None ->
  In y (collection l) -> ~ same_key key chain y r.
Proof.
  unfold locateBy. destruct (JS.BigInt (key r)) as [k|] eqn:Hk; [|discriminate].
  simpl. intros H Hy [(k' & Hy1 & Hy2) Hc].
  assert (k' = k) by congruence. subst k'.
  assert (Hall : Forall (fun y => key_matches (key y) k (chain y) (chain r) = Ok false)
                        (collection l)).
  { destruct l as [xs|]; simpl in *; [now apply find_None | constructor]. }
  rewrite Forall_forall in Hall. specialize (Hall y Hy).
  assert (Ht : key_matches (key y) k (chain y) (chain r) = Ok true)
    by (apply key_matches_true; split; [assumption | now apply same_chain_iff]).
  congruence.
Qed.

End KeyedFacts.

Lemma getNetwork_nth s chainId i a :
  getNetwork s chainId = Ok (Some (i, a)) ->
  nth_error (collection (networks s)) i = Some a /\ current_for chainId a.
Proof.
  unfold getNetwork. intros H. apply find_opt_Some in H. destruct H as (Hn & Hp & _).
  split; [assumption|]. apply current_for_iff. congruence.
Qed.

Lemma getNetwork_none s chainId y :
  getNetwork s chainId = Ok None ->
  In y (collection (networks s)) -> ~ current_for chainId y.
Proof.
  unfold getNetwork. intros H Hy Hc.
  assert (Hall : Forall (fun y => Ok (same_chain (Network.chainId y) chainId
                           && negb (match Network.useOldAccounts y with
                                    | Some b => b | None => false end)) = Ok false)
                        (collection (networks s))).
  { destruct (networks s) as [xs|]; simpl in *; [now apply find_None | constructor]. }
  rewrite Forall_forall in Hall. specialize (Hall y Hy).
  apply current_for_iff in Hc. congruence.
Qed.

(** ** Uniqueness of natural keys *)


Section DistinctKeys.

Context {R : Type}.
Variables key chain : R -> string.

Lemma distinct_unique l :
  distinct_keys key chain l -> unique_by (same_key key chain) l.
Proof.
  intros H i j x y Hij Hx Hy [(n & Hkx & Hky) [Hc _]].
  apply (H i j x y Hij Hx Hy). split; congruence.
Qed.

Lemma unique_distinct l :
  Forall (well_keyed key chain) l ->
  unique_by (same_key key chain) l -> distinct_keys key chain l.
Proof.
  intros Hall H i j x y Hij Hx Hy [Hk Hc].
  apply (H i j x y Hij Hx Hy).
  rewrite Forall_forall in Hall.
  destruct (Hall y (nth_error_In _ _ Hy)) as [[n Hn] Hnum].
  split; [exists n; split; congruence | split; assumption].
Qed.

End DistinctKeys.






(** ** What an upsert leaves alone *)

(** An upsert changes no collection but its own, and in its own collection
    it removes and moves nothing: every stored record stays at its index
    with its identity fields (address or hash, chain id, and the fields the
    merge does not copy), and at most one record is appended. *)
Theorem upsert_leaves_the_rest :
  forall w st s,
    document w st = Some s ->
    (forall userAccount s',
        state (snd (call (upsertAccount userAccount) w st)) = Some s' ->
        extends_by 1 account_identity
                   (collection (accContracts s)) (collection (accContracts s')) /\
        erc20Tokens s' = erc20Tokens s /\ networks s' = networks s /\
        transactions s' = transactions s) /\
    (forall network s',
        state (snd (call (upsertNetwork network) w st)) = Some s' ->
        extends_by 1 network_identity
                   (collection (networks s)) (collection (networks s')) /\
        accContracts s' = accContracts s /\ erc20Tokens s' = erc20Tokens s /\
        transactions s' = transactions s) /\
    (forall erc20Token s',
        state (snd (call (upsertErc20Token erc20Token) w st)) = Some s' ->
        extends_by 1 token_identity
                   (collection (erc20Tokens s)) (collection (erc20Tokens s')) /\
        accContracts s' = accContracts s /\ networks s' = networks s /\
        transactions s' = transactions s) /\
    (forall txn s',
        state (snd (call (upsertTransaction txn) w st)) = Some s' ->
        extends_by 1 transaction_identity
                   (collection (transactions s)) (collection (transactions s')) /\
        accContracts s' = accContracts s /\ erc20Tokens s' = erc20Tokens s /\
        networks s' = networks s).
Proof.
  intros w st s Hdoc. split; [|split; [|split]].
  - intros r s' Hs'. split.
    + apply (upsertRecord_extends AccContract.t AccContract.eq_dec
               (fun s r => getAccount s (AccContract.address r) (AccContract.chainId r))
               mergeAccount accContracts set_accContracts (fun _ _ => eq_refl)
               (fun s r i a H => proj1 (locateBy_nth AccContract.address AccContract.chainId
                                          (accContracts s) r i a H))
               account_identity (fun x => conj eq_refl eq_refl)
               (fun a r => conj eq_refl eq_refl) r w st s s' Hdoc Hs').
    + destruct (upsertRecord_final AccContract.t AccContract.eq_dec
                  (fun s r => getAccount s (AccContract.address r) (AccContract.chainId r))
                  mergeAccount accContracts set_accContracts r w st s s' Hdoc Hs')
        as [[-> _]|[[_ ->]|(i & a & _ & _ & ->)]]; auto.
  - intros r s' Hs'. split.
    + apply (upsertRecord_extends Network.t Network.eq_dec
               (fun s r => getNetwork s (Network.chainId r))
               mergeNetwork networks set_networks (fun _ _ => eq_refl)
               (fun s r i a H => proj1 (getNetwork_nth s (Network.chainId r) i a H))
               network_identity (fun x => conj eq_refl eq_refl)
               (fun a r => conj eq_refl eq_refl) r w st s s' Hdoc Hs').
    + destruct (upsertRecord_final Network.t Network.eq_dec
                  (fun s r => getNetwork s (Network.chainId r))
                  mergeNetwork networks set_networks r w st s s' Hdoc Hs')
        as [[-> _]|[[_ ->]|(i & a & _ & _ & ->)]]; auto.
  - intros r s' Hs'. split.
    + apply (upsertRecord_extends Erc20Token.t Erc20Token.eq_dec
               (fun s r => getErc20Token s (Erc20Token.address r) (Erc20Token.chainId r))
               mergeErc20Token erc20Tokens set_erc20Tokens (fun _ _ => eq_refl)
               (fun s r i a H => proj1 (locateBy_nth Erc20Token.address Erc20Token.chainId
                                          (erc20Tokens s) r i a H))
               token_identity (fun x => conj eq_refl eq_refl)
               (fun a r => conj eq_refl eq_refl) r w st s s' Hdoc Hs').
    + destruct (upsertRecord_final Erc20Token.t Erc20Token.eq_dec
                  (fun s r => getErc20Token s (Erc20Token.address r) (Erc20Token.chainId r))
                  mergeErc20Token erc20Tokens set_erc20Tokens r w st s s' Hdoc Hs')
        as [[-> _]|[[_ ->]|(i & a & _ & _ & ->)]]; auto.
  - intros r s' Hs'. split.
    + apply (upsertRecord_extends Transaction.t Transaction.eq_dec
               (fun s r => getTransaction s (Transaction.txnHash r) (Transaction.chainId r))
               mergeTransaction transactions set_transactions (fun _ _ => eq_refl)
               (fun s r i a H => proj1 (locateBy_nth Transaction.txnHash Transaction.chainId
                                          (transactions s) r i a H))
               transaction_identity
               (fun x => ltac:(repeat split))
               (fun a r => ltac:(repeat split)) r w st s s' Hdoc Hs').
    + destruct (upsertRecord_final Transaction.t Transaction.eq_dec
                  (fun s r => getTransaction s (Transaction.txnHash r) (Transaction.chainId r))
                  mergeTransaction transactions set_transactions r w st s s' Hdoc Hs')
        as [[-> _]|[[_ ->]|(i & a & _ & _ & ->)]]; auto.
Qed.

Lemma upsert_leaves_the_rest_witness :
  extends_by 1 account_identity
             (collection (accContracts Sample.withAccount))
             (collection (accContracts
                (set_accContracts Sample.withAccount
                   [mergeAccount Sample.account Sample.account_hex]))) /\
  erc20Tokens (set_accContracts Sample.withAccount
                 [mergeAccount Sample.account Sample.account_hex])
  = erc20Tokens Sample.withAccount /\
  networks (set_accContracts Sample.withAccount
              [mergeAccount Sample.account Sample.account_hex])
  = networks Sample.withAccount /\
  transactions (set_accContracts Sample.withAccount
                  [mergeAccount Sample.account Sample.account_hex])
  = transactions Sample.withAccount.
Proof.
  apply (proj1 (upsert_leaves_the_rest (Sample.host Sample.withAccount) None
                  Sample.withAccount eq_refl) Sample.account_hex).
  reflexivity.
Defined.

(** ** Upsert, then look up *)

Section UpsertThenLocate.

Variable R : Type.
Variable eq_dec : forall a b : R, {a = b} + {a <> b}.
Variable locate : SnapState -> R -> result (option (ref R)).
Variable merge : R -> R -> R.
Variable getC : SnapState -> option (list R).
Variable setC : SnapState -> list R -> SnapState.
Variable locatable : R -> Prop.

Hypothesis locate_push : forall s r,
  locate s r = Ok None -> locatable r ->
  locate (setC s (collection (getC s) ++ [r])) r
  = Ok (Some (List.length (collection (getC s)), r)).
Hypothesis locate_assign : forall s r i a,
  locate s r = Ok (Some (i, a)) ->
  locate (setC s (assign i (merge a r) (collection (getC s)))) r
  = Ok (Some (i, merge a r)).

Lemma upsertRecord_then_locate r w st s s' :
  document w st = Some s ->
  state (snd (call (upsertRecord eq_dec locate merge getC setC r) w st)) = Some s' ->
  (exists o, locate s r = Ok o) ->
  locatable r ->
  exists i x, locate s' r = Ok (Some (i, x)) /\ (x = r \/ exists a, x = merge a r).
Proof.
  intros Hdoc Hs' [o Ho] Hr.
  destruct (upsertRecord_final R eq_dec locate merge getC setC r w st s s' Hdoc Hs')
    as [[-> [[e He]|[i Hi]]]|[[Hloc ->]|(i & a & Hloc & _ & ->)]].
  - congruence.
  - exists i, r. auto.
  - rewrite (locate_push s r Hloc Hr). eexists _, r. auto.
  - rewrite (locate_assign s r i a Hloc). exists i, (merge a r). eauto.
Qed.

End UpsertThenLocate.

(** After an upsert of an account, a token or a transaction whose lookup
    does not raise and whose chain id is a number, the lookup by its address
    (hash) and chain id finds a record, and that record carries the mutable
    fields of the upserted one. *)
Theorem upsert_then_lookup :
  forall w st s,
    document w st = Some s ->
    (forall userAccount s',
        state (snd (call (upsertAccount userAccount) w st)) = Some s' ->
        (exists o, getAccount s (AccContract.address userAccount)
                              (AccContract.chainId userAccount) = Ok o) ->
        same_chain (AccContract.chainId userAccount) (AccContract.chainId userAccount) = true ->
        exists i found,
          getAccount s' (AccContract.address userAccount) (AccContract.chainId userAccount)
          = Ok (Some (i, found)) /\
          AccContract.addressSalt found = AccContract.addressSalt userAccount /\
          AccContract.addressIndex found = AccContract.addressIndex userAccount /\
          AccContract.derivationPath found = AccContract.derivationPath userAccount /\
          AccContract.publicKey found = AccContract.publicKey userAccount /\
          (JS.truthy (AccContract.deployTxnHash userAccount) = true ->
           AccContract.deployTxnHash found = AccContract.deployTxnHash userAccount)) /\
    (forall erc20Token s',
        state (snd (call (upsertErc20Token erc20Token) w st)) = Some s' ->
        (exists o, getErc20Token s (Erc20Token.address erc20Token)
                                 (Erc20Token.chainId erc20Token) = Ok o) ->
        same_chain (Erc20Token.chainId erc20Token) (Erc20Token.chainId erc20Token) = true ->
        exists i found,
          getErc20Token s' (Erc20Token.address erc20Token) (Erc20Token.chainId erc20Token)
          = Ok (Some (i, found)) /\
          Erc20Token.name found = Erc20Token.name erc20Token /\
          Erc20Token.symbol found = Erc20Token.symbol erc20Token /\
          Erc20Token.decimals found = Erc20Token.decimals erc20Token) /\
    (forall txn s',
        state (snd (call (upsertTransaction txn) w st)) = Some s' ->
        (exists o, getTransaction s (Transaction.txnHash txn) (Transaction.chainId txn)
                   = Ok o) ->
        same_chain (Transaction.chainId txn) (Transaction.chainId txn) = true ->
        exists i found,
          getTransaction s' (Transaction.txnHash txn) (Transaction.chainId txn)
          = Ok (Some (i, found)) /\
          Transaction.status found = Transaction.status txn /\
          Transaction.executionStatus found = Transaction.executionStatus txn /\
          Transaction.finalityStatus found = Transaction.finalityStatus txn /\
          Transaction.failureReason found = Transaction.failureReason txn /\
          Transaction.timestamp found = Transaction.timestamp txn).
Proof.
  intros w st s Hdoc. split; [|split].
  - intros r s' Hs' Ho Hc.
    destruct (upsertRecord_then_locate AccContract.t AccContract.eq_dec
                (fun s r => getAccount s (AccContract.address r) (AccContract.chainId r))
                mergeAccount accContracts set_accContracts
                (fun r => same_chain (AccContract.chainId r) (AccContract.chainId r) = true)
                (fun s r => locateBy_push AccContract.address AccContract.chainId
                                          (accContracts s) r)
                (fun s r i a H => locateBy_assign AccContract.address AccContract.chainId
                                    (accContracts s) r i a (mergeAccount a r) H
                                    eq_refl eq_refl)
                r w st s s' Hdoc Hs' Ho Hc) as (i & x & Hx & Hcase).
    exists i, x. split; [exact Hx|].
    destruct Hcase as [->|[a ->]]; simpl; repeat split; auto.
    intros Ht. now rewrite Ht.
  - intros r s' Hs' Ho Hc.
    destruct (upsertRecord_then_locate Erc20Token.t Erc20Token.eq_dec
                (fun s r => getErc20Token s (Erc20Token.address r) (Erc20Token.chainId r))
                mergeErc20Token erc20Tokens set_erc20Tokens
                (fun r => same_chain (Erc20Token.chainId r) (Erc20Token.chainId r) = true)
                (fun s r => locateBy_push Erc20Token.address Erc20Token.chainId
                                          (erc20Tokens s) r)
                (fun s r i a H => locateBy_assign Erc20Token.address Erc20Token.chainId
                                    (erc20Tokens s) r i a (mergeErc20Token a r) H
                                    eq_refl eq_refl)
                r w st s s' Hdoc Hs' Ho Hc) as (i & x & Hx & Hcase).
    exists i, x. split; [exact Hx|].
    destruct Hcase as [->|[a ->]]; simpl; repeat split; auto.
  - intros r s' Hs' Ho Hc.
    destruct (upsertRecord_then_locate Transaction.t Transaction.eq_dec
                (fun s r => getTransaction s (Transaction.txnHash r) (Transaction.chainId r))
                mergeTransaction transactions set_transactions
                (fun r => same_chain (Transaction.chainId r) (Transaction.chainId r) = true)
                (fun s r => locateBy_push Transaction.txnHash Transaction.chainId
                                          (transactions s) r)
                (fun s r i a H => locateBy_assign Transaction.txnHash Transaction.chainId
                                    (transactions s) r i a (mergeTransaction a r) H
                                    eq_refl eq_refl)
                r w st s s' Hdoc Hs' Ho Hc) as (i & x & Hx & Hcase).
    exists i, x. split; [exact Hx|].
    destruct Hcase as [->|[a ->]]; simpl; repeat split; auto.
Qed.

Lemma upsert_then_lookup_witness :
  exists i found,
    getAccount (set_accContracts Sample.withAccount
                  [mergeAccount Sample.account Sample.account_hex])
               (AccContract.address Sample.account_hex)
               (AccContract.chainId Sample.account_hex)
    = Ok (Some (i, found)) /\
    AccContract.addressSalt found = AccContract.addressSalt Sample.account_hex /\
    AccContract.addressIndex found = AccContract.addressIndex Sample.account_hex /\
    AccContract.derivationPath found = AccContract.derivationPath Sample.account_hex /\
    AccContract.publicKey found = AccContract.publicKey Sample.account_hex /\
    (JS.truthy (AccContract.deployTxnHash Sample.account_hex) = true ->
     AccContract.deployTxnHash found = AccContract.deployTxnHash Sample.account_hex).
Proof.
  apply (proj1 (upsert_then_lookup (Sample.host Sample.withAccount) None
                  Sample.withAccount eq_refl) Sample.account_hex).
  - reflexivity.
  - eexists. reflexivity.
  - reflexivity.
Defined.

(** The same for a network that is not flagged as using old accounts and
    whose chain id is a number.  A flagged network is never found again: when
    no current network is stored for its chain, the upsert appends it and
    the lookup for the chain still finds nothing, so that upserting it again
    appends it again. *)
Theorem upsertNetwork_then_getNetwork :
  forall w st s network s',
    document w st = Some s ->
    state (snd (call (upsertNetwork network) w st)) = Some s' ->
    (current_for (Network.chainId network) network ->
     exists i found,
       getNetwork s' (Network.chainId network) = Ok (Some (i, found)) /\
       Network.name found = Network.name network /\
       Network.baseUrl found = Network.baseUrl network /\
       Network.nodeUrl found = Network.nodeUrl network /\
       Network.voyagerUrl found = Network.voyagerUrl network /\
       Network.accountClassHash found = Network.accountClassHash network) /\
    (Network.useOldAccounts network = Some true ->
     getNetwork s (Network.chainId network) = Ok None ->
     networks s' = Some (collection (networks s) ++ [network]) /\
     getNetwork s' (Network.chainId network) = Ok None).
Proof.
  intros w st s n s' Hdoc Hs'. split.
  - intros Hc.
    destruct (upsertRecord_then_locate Network.t Network.eq_dec
                (fun s r => getNetwork s (Network.chainId r))
                mergeNetwork networks set_networks
                (fun r => current_for (Network.chainId r) r)
                getNetwork_push getNetwork_assign
                n w st s s' Hdoc Hs' (getNetwork_returns s _) Hc) as (i & x & Hx & Hcase).
    exists i, x. split; [exact Hx|].
    destruct Hcase as [->|[a ->]]; simpl; repeat split; auto.
  - intros Hflag Hnone.
    destruct (upsertRecord_final Network.t Network.eq_dec
                (fun s r => getNetwork s (Network.chainId r))
                mergeNetwork networks set_networks n w st s s' Hdoc Hs')
      as [[-> [[e He]|[i Hi]]]|[[_ ->]|(i & a & Hloc & _)]]; try congruence.
    split; [reflexivity|].
    unfold getNetwork. simpl. apply find_None. apply Forall_app. split.
    + apply Forall_forall. intros y Hy.
      pose proof (getNetwork_none s (Network.chainId n) y Hnone Hy) as Hnot.
      f_equal. apply not_true_is_false. intros E. apply Hnot. now apply current_for_iff.
    + constructor; [|constructor]. rewrite Hflag. simpl. now rewrite andb_false_r.
Qed.

Lemma upsertNetwork_then_getNetwork_witness :
  (exists i found,
     getNetwork (mkSnapState None None
                   (Some [Network.mk "main" "0x1" "b" "n" "v" "0x2" None]) None) "0x1"
     = Ok (Some (i, found)) /\
     Network.name found = "main"%string /\
     Network.baseUrl found = "b"%string /\
     Network.nodeUrl found = "n"%string /\
     Network.voyagerUrl found = "v"%string /\
     Network.accountClassHash found = "0x2"%string) /\
  (networks (mkSnapState None None
               (Some [Network.mk "old" "0x1" "" "" "" "" (Some true)]) None)
   = Some ([] ++ [Network.mk "old" "0x1" "" "" "" "" (Some true)]) /\
   getNetwork (mkSnapState None None
                 (Some [Network.mk "old" "0x1" "" "" "" "" (Some true)]) None) "0x1"
   = Ok None).
Proof.
  split.
  - apply (proj1 (upsertNetwork_then_getNetwork (Sample.host Sample.empty) None
                    Sample.empty (Network.mk "main" "0x1" "b" "n" "v" "0x2" None)
                    (mkSnapState None None
                       (Some [Network.mk "main" "0x1" "b" "n" "v" "0x2" None]) None)
                    eq_refl eq_refl)).
    split; [split; [reflexivity | discriminate] | discriminate].
  - apply (proj2 (upsertNetwork_then_getNetwork (Sample.host Sample.empty) None
                    Sample.empty (Network.mk "old" "0x1" "" "" "" "" (Some true))
                    (mkSnapState None None
                       (Some [Network.mk "old" "0x1" "" "" "" "" (Some true)]) None)
                    eq_refl eq_refl)); reflexivity.
Defined.

(** ** The batch upsert and the single one *)

Lemma set_transactions_same s l : transactions s = Some l -> set_transactions s l = s.
Proof. destruct s. simpl. now intros ->. Qed.

(** One step of the batch ends with the document the single upsert ends
    with. *)
Lemma upsertInto_single txn s w :
  match upsertInto txn s with
  | Ok s' => state (snd (call (upsertTransaction txn) w (Some s))) = Some s'
  | Throw e => fst (call (upsertTransaction txn) w (Some s)) = Throw e
  end.
Proof.
  rewrite (upsertTransaction_run txn w (Some s) s eq_refl). unfold upsertInto.
  destruct (getTransaction s (Transaction.txnHash txn) (Transaction.chainId txn))
    as [[[i a]|]|e] eqn:Hget; simpl.
  - destruct (sameJson Transaction.eq_dec a txn) eqn:Heq.
    + apply sameJson_true in Heq. subst a.
      destruct (leaves_outcome (Ok tt) w (Some s) s) as (_ & -> & _). f_equal.
      destruct (locateBy_nth Transaction.txnHash Transaction.chainId
                  (transactions s) txn i txn Hget) as [Hn _].
      rewrite mergeTransaction_same, (assign_same _ _ _ Hn).
      symmetry. apply set_transactions_same.
      destruct (transactions s); [reflexivity | now destruct i].
    + match goal with |- context [writesBack ?a ?b ?c] =>
        now destruct (writesBack_outcome a b c) as (-> & _) end.
  - match goal with |- context [writesBack ?a ?b ?c] =>
      now destruct (writesBack_outcome a b c) as (-> & _) end.
  - reflexivity.
Qed.

Lemma upsertTransactions_written txns w st s s' :
  document w st = Some s ->
  writeBacks (events (snd (call (upsertTransactions txns) w st))) = [s'] ->
  upsertAll txns s = Ok s'.
Proof.
  intros Hdoc Hwb. destruct (upsertAll txns s) as [s1|e] eqn:Hall.
  - rewrite (upsertTransactions_run txns w st s s1 Hdoc Hall) in Hwb.
    destruct (writesBack_outcome w st s1) as (_ & _ & E). congruence.
  - destruct (upsertTransactions_raises txns w st s e Hdoc Hall) as [s0 H].
    rewrite H in Hwb.
    destruct (leaves_outcome (@Throw unit e) w st s0) as (_ & _ & _ & E). congruence.
Qed.

(** A batch of one transaction ends with the document the single upsert
    ends with.  The two differ in the write-back only: when the transaction
    is stored unchanged the single upsert issues none, the batch writes the
    unchanged document back. *)
Theorem upsertTransactions_of_one :
  forall txn w st s,
    document w st = Some s ->
    state (snd (call (upsertTransactions [txn]) w st))
    = state (snd (call (upsertTransaction txn) w st)) /\
    (forall i,
        getTransaction s (Transaction.txnHash txn) (Transaction.chainId txn)
        = Ok (Some (i, txn)) ->
        writeBacks (events (snd (call (upsertTransaction txn) w st))) = [] /\
        writeBacks (events (snd (call (upsertTransactions [txn]) w st))) = [s]) /\
    ((forall i, getTransaction s (Transaction.txnHash txn) (Transaction.chainId txn)
                <> Ok (Some (i, txn))) ->
     events (snd (call (upsertTransactions [txn]) w st))
     = events (snd (call (upsertTransaction txn) w st))).
Proof.
  intros txn w st s Hdoc.
  pose proof (upsertInto_single txn s w) as Hone.
  rewrite (upsertTransaction_run txn w (Some s) s eq_refl) in Hone.
  rewrite (upsertTransaction_run txn w st s Hdoc).
  destruct (upsertInto txn s) as [s1|e] eqn:Hinto.
  - assert (Hall : upsertAll [txn] s = Ok s1) by (simpl; now rewrite Hinto).
    rewrite (upsertTransactions_run [txn] w st s s1 Hdoc Hall).
    destruct (writesBack_outcome w st s1) as (Hs1 & Hev1 & Hwb1).
    unfold upsertInto in Hinto.
    destruct (getTransaction s (Transaction.txnHash txn) (Transaction.chainId txn))
      as [[[i a]|]|e] eqn:Hget; simpl in Hinto; try discriminate.
    + destruct (sameJson Transaction.eq_dec a txn) eqn:Heq.
      * apply sameJson_true in Heq. subst a.
        destruct (leaves_outcome (Ok tt) w st s) as (_ & Hs & _ & Hwb).
        destruct (leaves_outcome (Ok tt) w (Some s) s) as (_ & Hs0 & _).
        rewrite Hs0 in Hone. injection Hone as <-.
        rewrite Hs1, Hs. split; [reflexivity|]. split.
        -- intros _ _. now rewrite Hwb1.
        -- intros Hne. now elim (Hne i).
      * injection Hinto as <-. rewrite Hs1. split; [reflexivity|]. split.
        -- intros j [= -> ->].
           assert (E : sameJson Transaction.eq_dec txn txn = true)
             by now apply sameJson_true.
           congruence.
        -- reflexivity.
    + injection Hinto as <-. rewrite Hs1. split; [reflexivity|]. split.
      * intros j. discriminate.
      * reflexivity.
  - pose proof (upsertTransactions_one_raises txn w st s e Hdoc Hinto) as Hb.
    unfold upsertInto in Hinto.
    destruct (getTransaction s (Transaction.txnHash txn) (Transaction.chainId txn))
      as [r|e'] eqn:Hget; simpl in Hinto; [discriminate|]. injection Hinto as ->.
    rewrite Hb. split; [reflexivity|]. split.
    + intros j. discriminate.
    + reflexivity.
Qed.

Lemma upsertTransactions_of_one_witness :
  state (snd (call (upsertTransactions [Sample.old_l2])
                   (Sample.host Sample.withTransactions) None))
  = state (snd (call (upsertTransaction Sample.old_l2)
                     (Sample.host Sample.withTransactions) None)) /\
  writeBacks (events (snd (call (upsertTransaction Sample.old_l2)
                                (Sample.host Sample.withTransactions) None))) = [] /\
  writeBacks (events (snd (call (upsertTransactions [Sample.old_l2])
                                (Sample.host Sample.withTransactions) None)))
  = [Sample.withTransactions].
Proof.
  destruct (upsertTransactions_of_one Sample.old_l2 (Sample.host Sample.withTransactions)
              None Sample.withTransactions eq_refl) as (H1 & H2 & _).
  split; [exact H1|]. apply (H2 0%nat). reflexivity.
Defined.

Lemma extends_by_trans {A} (same_identity : A -> A -> Prop) n m l1 l2 l3 :
  (forall x y z, same_identity x y -> same_identity y z -> same_identity x z) ->
  extends_by n same_identity l1 l2 ->
  extends_by m same_identity l2 l3 ->
  extends_by (n + m) same_identity l1 l3.
Proof.
  intros Htrans [Hl12 H12] [Hl23 H23]. split; [lia|].
  intros j x Hx. destruct (H12 j x Hx) as (y & Hy & Hxy).
  destruct (H23 j y Hy) as (z & Hz & Hyz). eauto.
Qed.

Lemma transaction_identity_trans x y z :
  transaction_identity x y -> transaction_identity y z -> transaction_identity x z.
Proof.
  unfold transaction_identity. intros H1 H2.
  repeat match goal with H : _ /\ _ |- _ => destruct H end.
  repeat split; congruence.
Qed.

(** What one step of the batch keeps. *)
Lemma upsertInto_keeps txn s s' :
  upsertInto txn s = Ok s' ->
  (unique_by (same_key Transaction.txnHash Transaction.chainId)
             (collection (transactions s)) ->
   unique_by (same_key Transaction.txnHash Transaction.chainId)
             (collection (transactions s'))) /\
  extends_by 1 transaction_identity
             (collection (transactions s)) (collection (transactions s')) /\
  accContracts s' = accContracts s /\ erc20Tokens s' = erc20Tokens s /\
  networks s' = networks s.
Proof.
  intros Hinto. pose proof (upsertInto_single txn s (mkWallet s [])) as Hone.
  rewrite Hinto in Hone. split; [|split].
  - apply (upsertRecord_unique Transaction.t Transaction.eq_dec
             (fun s r => getTransaction s (Transaction.txnHash r) (Transaction.chainId r))
             mergeTransaction transactions set_transactions (fun _ _ => eq_refl)
             (fun s r i a H => proj1 (locateBy_nth Transaction.txnHash Transaction.chainId
                                        (transactions s) r i a H))
             (same_key Transaction.txnHash Transaction.chainId)
             (fun a r z => iff_refl _) (fun a r z => iff_refl _)
             (fun s r y => locateBy_none Transaction.txnHash Transaction.chainId
                             (transactions s) r y)
             txn (mkWallet s []) (Some s) s s' eq_refl Hone).
  - apply (upsertRecord_extends Transaction.t Transaction.eq_dec
             (fun s r => getTransaction s (Transaction.txnHash r) (Transaction.chainId r))
             mergeTransaction transactions set_transactions (fun _ _ => eq_refl)
             (fun s r i a H => proj1 (locateBy_nth Transaction.txnHash Transaction.chainId
                                        (transactions s) r i a H))
             transaction_identity
             (fun x => ltac:(repeat split))
             (fun a r => ltac:(repeat split))
             txn (mkWallet s []) (Some s) s s' eq_refl Hone).
  - destruct (upsertRecord_final Transaction.t Transaction.eq_dec
                (fun s r => getTransaction s (Transaction.txnHash r) (Transaction.chainId r))
                mergeTransaction transactions set_transactions
                txn (mkWallet s []) (Some s) s s' eq_refl Hone)
      as [[-> _]|[[_ ->]|(i & a & _ & _ & ->)]]; auto.
Qed.

Lemma upsertAll_keeps txns : forall s s',
  upsertAll txns s = Ok s' ->
  (unique_by (same_key Transaction.txnHash Transaction.chainId)
             (collection (transactions s)) ->
   unique_by (same_key Transaction.txnHash Transaction.chainId)
             (collection (transactions s'))) /\
  extends_by (List.length txns) transaction_identity
             (collection (transactions s)) (collection (transactions s')) /\
  accContracts s' = accContracts s /\ erc20Tokens s' = erc20Tokens s /\
  networks s' = networks s.
Proof.
  induction txns as [|txn txns IH]; intros s s' Hall; simpl in Hall.
  - injection Hall as <-. repeat split; auto; try lia.
    intros j x Hx. exists x. split; [assumption | repeat split].
  - destruct (upsertInto txn s) as [s1|] eqn:Hinto; [|discriminate]. simpl in Hall.
    destruct (upsertInto_keeps txn s s1 Hinto) as (Hu1 & He1 & Ha1 & Ht1 & Hn1).
    destruct (IH s1 s' Hall) as (Hu & He & Ha & Ht & Hn).
    split; [auto|]. split; [|repeat split; congruence].
    change (List.length (txn :: txns)) with (1 + List.length txns)%nat.
    apply (extends_by_trans transaction_identity 1 (List.length txns) _ _ _
             transaction_identity_trans He1 He).
Qed.

Lemma upsertAll_well_keyed txns : forall s s',
  upsertAll txns s = Ok s' ->
  Forall (well_keyed Transaction.txnHash Transaction.chainId) txns ->
  Forall (well_keyed Transaction.txnHash Transaction.chainId) (collection (transactions s)) ->
  Forall (well_keyed Transaction.txnHash Transaction.chainId) (collection (transactions s')).
Proof.
  induction txns as [|txn txns IH]; intros s s' Hall Htx Hs; simpl in Hall.
  - now injection Hall as <-.
  - destruct (upsertInto txn s) as [s1|] eqn:Hinto; [|discriminate]. simpl in Hall.
    inversion Htx as [|? ? Htxn Hrest]; subst.
    apply (IH s1 s' Hall Hrest).
    pose proof (upsertInto_single txn s (mkWallet s [])) as Hone. rewrite Hinto in Hone.
    apply (upsertRecord_Forall Transaction.t Transaction.eq_dec
             (fun s r => getTransaction s (Transaction.txnHash r) (Transaction.chainId r))
             mergeTransaction transactions set_transactions (fun _ _ => eq_refl)
             (fun s r i a H => proj1 (locateBy_nth Transaction.txnHash Transaction.chainId
                                        (transactions s) r i a H))
             (well_keyed Transaction.txnHash Transaction.chainId)
             txn (mkWallet s []) (Some s) s s1 (fun a x H => H) eq_refl Hone Htxn Hs).
Qed.

(** The document a batch upsert writes back.  When the transactions of the
    batch and the stored ones have hashes that are integer literals and
    chain ids that are numbers, and no two stored transactions have the same
    hash as an integer and the same chain id as a number, the same holds of
    the written document.  Every stored transaction keeps its index and its
    identity fields, at most as many transactions are appended as the batch
    has, and no other collection changes.  (The batch consists of distinct
    objects that the document does not hold.) *)
Theorem upsertTransactions_written_document :
  forall txns w st s s',
    document w st = Some s ->
    writeBacks (events (snd (call (upsertTransactions txns) w st))) = [s'] ->
    (Forall (well_keyed Transaction.txnHash Transaction.chainId) txns ->
     Forall (well_keyed Transaction.txnHash Transaction.chainId)
            (collection (transactions s)) ->
     distinct_keys Transaction.txnHash Transaction.chainId (collection (transactions s)) ->
     distinct_keys Transaction.txnHash Transaction.chainId (collection (transactions s')) /\
     Forall (well_keyed Transaction.txnHash Transaction.chainId)
            (collection (transactions s'))) /\
    extends_by (List.length txns) transaction_identity
               (collection (transactions s)) (collection (transactions s')) /\
    accContracts s' = accContracts s /\ erc20Tokens s' = erc20Tokens s /\
    networks s' = networks s.
Proof.
  intros txns w st s s' Hdoc Hwb.
  pose proof (upsertTransactions_written txns w st s s' Hdoc Hwb) as Hall.
  destruct (upsertAll_keeps txns s s' Hall) as (Hu & Hrest).
  split; [|exact Hrest].
  intros Htx Hs Hd.
  pose proof (upsertAll_well_keyed txns s s' Hall Htx Hs) as Hs'.
  split; [|exact Hs'].
  apply unique_distinct; [exact Hs'|]. apply Hu. now apply distinct_unique.
Qed.

Lemma upsertTransactions_written_document_witness :
  distinct_keys Transaction.txnHash Transaction.chainId
                [Sample.old_l2;
                 Sample.txn "0x11" "1" "0xb" "ACCEPTED_ON_L1" 170;
                 Sample.pending; Sample.recent_l1;
                 Sample.txn "0x20" "1" "0xc" "RECEIVED" 200] /\
  extends_by 3 transaction_identity
             [Sample.old_l2; Sample.recent_l2; Sample.pending; Sample.recent_l1]
             [Sample.old_l2;
              Sample.txn "0x11" "1" "0xb" "ACCEPTED_ON_L1" 170;
              Sample.pending; Sample.recent_l1;
              Sample.txn "0x20" "1" "0xc" "RECEIVED" 200].
Proof.
  destruct (upsertTransactions_written_document
              [Sample.txn "0x20" "1" "0xc" "RECEIVED" 200;
               Sample.txn "17" "0x1" "0xb" "ACCEPTED_ON_L1" 160;
               Sample.txn " 0X11 " "1.0" "0xb" "ACCEPTED_ON_L1" 170]
              (Sample.host Sample.withTransactions) None Sample.withTransactions
              (set_transactions Sample.withTransactions
                 [Sample.old_l2;
                  Sample.txn "0x11" "1" "0xb" "ACCEPTED_ON_L1" 170;
                  Sample.pending; Sample.recent_l1;
                  Sample.txn "0x20" "1" "0xc" "RECEIVED" 200])
              eq_refl eq_refl) as (Hkeys & Hextends & _).
  split; [|exact Hextends].
  apply Hkeys.
  - repeat constructor; solve [eexists; reflexivity | discriminate].
  - repeat constructor; solve [eexists; reflexivity | discriminate].
  - intros i j x y Hij Hx Hy [Hk Hc].
    destruct i as [|[|[|[|i]]]], j as [|[|[|[|[|j]]]]]; simpl in Hx, Hy;
      try lia; try discriminate;
      injection Hx as <-; injection Hy as <-;
      solve [discriminate Hk | discriminate Hc].
Defined.

(** A batch with the same transaction under two spellings of its key
    stores it once. *)
Example upsertTransactions_same_key_twice :
  writeBacks (events (snd (call (upsertTransactions
                                   [Sample.old_l2; Sample.txn "16" "0x1" "0xa" "PENDING" 60])
                                (Sample.host Sample.empty) None)))
  = [set_transactions Sample.empty
       [mergeTransaction Sample.old_l2 (Sample.txn "16" "0x1" "0xa" "PENDING" 60)]].
Proof. reflexivity. Qed.

(** ** Pruning *)

(** On a document without a transaction collection, pruning raises a
    [TypeError]: nothing is written back, the document is left as it is and
    the lock is released. *)
Theorem removeAcceptedTransaction_absent_collection :
  forall minTimeStamp w st s,
    document w st = Some s ->
    transactions s = None ->
    fst (call (removeAcceptedTransaction minTimeStamp) w st) = Throw TypeError /\
    events (snd (call (removeAcceptedTransaction minTimeStamp) w st))
    = Acquire :: fetched st ++ [Release] /\
    state (snd (call (removeAcceptedTransaction minTimeStamp) w st)) = Some s.
Proof.
  intros m w st s Hdoc Hnone.
  rewrite (removeAcceptedTransaction_run m w st s Hdoc), Hnone.
  destruct (leaves_outcome (@Throw unit TypeError) w st s) as (? & ? & ? & _). auto.
Qed.

Lemma removeAcceptedTransaction_absent_collection_witness :
  fst (call (removeAcceptedTransaction 100000) (Sample.host Sample.withAccount) None)
  = Throw TypeError /\
  events (snd (call (removeAcceptedTransaction 100000) (Sample.host Sample.withAccount) None))
  = Acquire :: fetched None ++ [Release] /\
  state (snd (call (removeAcceptedTransaction 100000) (Sample.host Sample.withAccount) None))
  = Some Sample.withAccount.
Proof.
  apply (removeAcceptedTransaction_absent_collection 100000
           (Sample.host Sample.withAccount) None Sample.withAccount);
    reflexivity.
Defined.

Lemma retained_max m1 m2 txn :
  retained m1 txn && retained m2 txn = retained (Z.max m1 m2) txn.
Proof.
  unfold retained. rewrite !geb_in_ms.
  set (p := rounded (rounded (Transaction.timestamp txn) * 1000)).
  assert (Hmax : rounded (Z.max m1 m2) = Z.max (rounded m1) (rounded m2)).
  { destruct (Z.max_spec m1 m2) as [[Hlt ->]|[Hle ->]].
    - pose proof (rounded_mono m1 m2 ltac:(lia)). lia.
    - pose proof (rounded_mono m2 m1 Hle). lia. }
  rewrite Hmax.
  destruct (status_is (Transaction.finalityStatus txn) TransactionStatus.ACCEPTED_ON_L2);
    destruct (status_is (Transaction.finalityStatus txn) TransactionStatus.ACCEPTED_ON_L1);
    simpl; try reflexivity;
    destruct (Z.leb_spec (rounded m1) p);
    destruct (Z.leb_spec (rounded m2) p);
    destruct (Z.leb_spec (Z.max (rounded m1) (rounded m2)) p);
    simpl; try reflexivity; lia.
Qed.

Lemma filter_filter {A} (p q : A -> bool) l :
  filter q (filter p l) = filter (fun x => p x && q x) l.
Proof.
  induction l as [|x l IH]; simpl; [reflexivity|].
  destruct (p x); simpl; [destruct (q x)|]; now rewrite IH.
Qed.

(** Pruning with one cutoff and then with another one leaves the document
    that pruning once with the larger cutoff leaves; in particular pruning
    twice with the same cutoff removes nothing more, and the order of two
    prunings does not matter. *)
Theorem removeAcceptedTransaction_twice :
  forall m1 m2 w1 w2 w s txns,
    transactions s = Some txns ->
    state (snd (call (removeAcceptedTransaction m2) w2
                     (state (snd (call (removeAcceptedTransaction m1) w1 (Some s))))))
    = state (snd (call (removeAcceptedTransaction (Z.max m1 m2)) w (Some s))).
Proof.
  intros m1 m2 w1 w2 w s txns Htx.
  rewrite (removeAcceptedTransaction_run m1 w1 (Some s) s eq_refl), Htx.
  rewrite (removeAcceptedTransaction_run (Z.max m1 m2) w (Some s) s eq_refl), Htx.
  match goal with |- context [writesBack w1 ?b ?c] =>
    destruct (writesBack_outcome w1 b c) as (-> & _) end.
  match goal with |- context [writesBack w ?b ?c] =>
    destruct (writesBack_outcome w b c) as (-> & _) end.
  erewrite (removeAcceptedTransaction_run m2 w2 (Some _)) by reflexivity. simpl.
  match goal with |- context [writesBack w2 ?b ?c] =>
    destruct (writesBack_outcome w2 b c) as (-> & _) end.
  unfold set_transactions. simpl. do 2 f_equal. f_equal.
  rewrite filter_filter. apply filter_ext. intros txn. apply retained_max.
Qed.

Lemma removeAcceptedTransaction_twice_witness :
  state (snd (call (removeAcceptedTransaction 160000) (Sample.host Sample.empty)
                   (state (snd (call (removeAcceptedTransaction 100000)
                                     (Sample.host Sample.withTransactions)
                                     (Some Sample.withTransactions))))))
  = state (snd (call (removeAcceptedTransaction (Z.max 100000 160000))
                     (Sample.host Sample.withTransactions)
                     (Some Sample.withTransactions))).
Proof.
  apply (removeAcceptedTransaction_twice 100000 160000
           (Sample.host Sample.withTransactions) (Sample.host Sample.empty)
           (Sample.host Sample.withTransactions) Sample.withTransactions
           [Sample.old_l2; Sample.recent_l2; Sample.pending; Sample.recent_l1]).
  reflexivity.
Defined.

(** ** The collection accessors *)

Section SortBy.

Context {A : Type}.
Variable key : A -> Z.

Lemma insert_by_perm x l : Permutation (insert_by key x l) (x :: l).
Proof.
  induction l as [|y l IH]; simpl; [reflexivity|].
  destruct (key x <=? key y); [reflexivity|].
  rewrite IH. apply perm_swap.
Qed.

Lemma sort_by_perm l : Permutation (sort_by key l) l.
Proof.
  induction l as [|x l IH]; simpl; [reflexivity|].
  rewrite insert_by_perm. now constructor.
Qed.

Lemma insert_by_sorted x l :
  StronglySorted (fun a b => key a <= key b) l ->
  StronglySorted (fun a b => key a <= key b) (insert_by key x l).
Proof.
  induction 1 as [|y l Hl IH Hy]; simpl.
  - repeat constructor.
  - destruct (Z.leb_spec (key x) (key y)) as [Hle|Hgt].
    + constructor; [now constructor|]. constructor; [assumption|].
      eapply Forall_impl; [|exact Hy]. simpl. intros z Hz. lia.
    + constructor; [assumption|].
      apply (Permutation_Forall (Permutation_sym (insert_by_perm x l))).
      constructor; [lia | assumption].
Qed.

Lemma sort_by_sorted l : StronglySorted (fun a b => key a <= key b) (sort_by key l).
Proof.
  induction l as [|x l IH]; simpl; [constructor | now apply insert_by_sorted].
Qed.

(** The sort is stable: the records with one value of the key stay in their
    order. *)
Lemma insert_by_stable v x l :
  filter (fun a => key a =? v) (insert_by key x l)
  = filter (fun a => key a =? v) (x :: l).
Proof.
  induction l as [|y l IH]; simpl; [reflexivity|].
  destruct (Z.leb_spec (key x) (key y)) as [Hle|Hgt]; [reflexivity|].
  simpl. rewrite IH. simpl.
  destruct (Z.eqb_spec (key x) v); destruct (Z.eqb_spec (key y) v);
    try reflexivity; lia.
Qed.

Lemma sort_by_stable v l :
  filter (fun a => key a =? v) (sort_by key l) = filter (fun a => key a =? v) l.
Proof.
  induction l as [|x l IH]; simpl; [reflexivity|].
  rewrite insert_by_stable. simpl. now rewrite IH.
Qed.

End SortBy.

(** On a document with an account collection, [getAccounts] returns the
    accounts whose chain id is, as a number, the requested one, each as
    often as it is stored, in ascending order of [addressIndex]; accounts
    with the same [addressIndex] stay in their stored order. *)
Theorem getAccounts_sorted :
  forall s accs chainId,
    accContracts s = Some accs ->
    exists l,
      getAccounts s chainId = Ok l /\
      Permutation l (filter (fun acc => same_chain (AccContract.chainId acc) chainId) accs) /\
      StronglySorted by_addressIndex l /\
      (forall index,
          filter (fun acc => AccContract.addressIndex acc =? index) l
          = filter (fun acc => AccContract.addressIndex acc =? index)
                   (filter (fun acc => same_chain (AccContract.chainId acc) chainId) accs)).
Proof.
  intros s accs chainId Hacc. unfold getAccounts. rewrite Hacc.
  eexists. split; [reflexivity|]. split; [apply sort_by_perm|]. split.
  - apply sort_by_sorted.
  - intros index. apply sort_by_stable.
Qed.

Lemma getAccounts_sorted_witness :
  exists l,
    getAccounts Sample.withAccount "0x1" = Ok l /\
    Permutation l (filter (fun acc => same_chain (AccContract.chainId acc) "0x1")
                          [Sample.account]) /\
    StronglySorted by_addressIndex l /\
    (forall index,
        filter (fun acc => AccContract.addressIndex acc =? index) l
        = filter (fun acc => AccContract.addressIndex acc =? index)
                 (filter (fun acc => same_chain (AccContract.chainId acc) "0x1")
                         [Sample.account])).
Proof.
  apply (getAccounts_sorted Sample.withAccount [Sample.account] "0x1"). reflexivity.
Defined.

(** An account that [getAccount] finds for a chain is among the accounts
    that [getAccounts] returns for that chain. *)
Theorem getAccount_among_getAccounts :
  forall s accountAddress chainId i acc,
    getAccount s accountAddress chainId = Ok (Some (i, acc)) ->
    exists l, getAccounts s chainId = Ok l /\ In acc l.
Proof.
  intros s a c i acc H. unfold getAccount in H.
  destruct (JS.BigInt a) as [k|]; [|discriminate]. simpl in H.
  unfold getAccounts. destruct (accContracts s) as [accs|]; [|discriminate].
  apply find_Some in H. destruct H as (Hn & Hp & _).
  apply key_matches_true in Hp. destruct Hp as [_ Hc].
  eexists. split; [reflexivity|].
  apply (Permutation_in _ (Permutation_sym (sort_by_perm _ _))).
  apply filter_In. split; [|assumption]. eapply nth_error_In; eassumption.
Qed.

Lemma getAccount_among_getAccounts_witness :
  exists l, getAccounts Sample.withAccount "0x1" = Ok l /\ In Sample.account l.
Proof.
  apply (getAccount_among_getAccounts Sample.withAccount "0x1" "0x1" 0%nat Sample.account).
  reflexivity.
Defined.

(** [getEtherErc20Token] never raises; what it returns is a stored token
    with symbol [ETH] that [getErc20Tokens] returns for the chain, the first
    one; it returns nothing exactly when no stored token of the chain has
    that symbol. *)
Theorem getEtherErc20Token_among_getErc20Tokens :
  forall s chainId,
    match getEtherErc20Token s chainId with
    | Ok (Some (i, token)) =>
        Erc20Token.symbol token = "ETH"%string /\
        nth_error (collection (erc20Tokens s)) i = Some token /\
        (exists l, getErc20Tokens s chainId = Some l /\ In token l) /\
        (forall j other, (j < i)%nat -> nth_error (collection (erc20Tokens s)) j = Some other ->
                         ~ (same_chain (Erc20Token.chainId other) chainId = true
                            /\ Erc20Token.symbol other = "ETH"%string))
    | Ok None =>
        forall token, In token (collection (erc20Tokens s)) ->
                      same_chain (Erc20Token.chainId token) chainId = true ->
                      Erc20Token.symbol token <> "ETH"%string
    | Throw _ => False
    end.
Proof.
  intros s chainId. unfold getEtherErc20Token, getErc20Tokens, find_opt.
  destruct (erc20Tokens s) as [l|]; simpl; [|intros token []].
  match goal with |- context [find ?p l] => destruct (find p l) as [[[i t]|]|e] eqn:Hf end.
  - apply find_Some in Hf. destruct Hf as (Hn & Hp & Hlt).
    injection Hp as Hp. apply andb_true_iff in Hp. destruct Hp as [Hc Hs].
    apply String.eqb_eq in Hs. repeat split; auto.
    + eexists. split; [reflexivity|]. apply filter_In. split; [|assumption].
      eapply nth_error_In; eassumption.
    + intros j other Hj Ho [Hc' Hs']. specialize (Hlt j other Hj Ho).
      injection Hlt as Hlt. rewrite Hc', Hs' in Hlt. discriminate.
  - apply find_None in Hf. rewrite Forall_forall in Hf.
    intros token Hin Hc Hs. specialize (Hf token Hin). injection Hf as Hf.
    rewrite Hc, Hs in Hf. discriminate.
  - assert (Ht : exists r, find (fun token : Erc20Token.t =>
                   Ok (same_chain (Erc20Token.chainId token) chainId
                       && (Erc20Token.symbol token =? "ETH")%string)) l = Ok r).
    { apply find_total. apply Forall_forall. eauto. }
    destruct Ht as [r Hr]. congruence.
Qed.

(** ** Validation *)

Lemma digit_in_nonneg base c d : JS.digit_in base c = Some d -> 0 <= d.
Proof.
  unfold JS.digit_in, JS.digit_val.
  destruct ((48 <=? JS.code c) && (JS.code c <=? 57)) eqn:E1.
  - apply andb_true_iff in E1. destruct E1 as [E1 _]. apply Z.leb_le in E1.
    destruct (JS.code c - 48 <? base); intros [= <-]. lia.
  - destruct ((97 <=? JS.code c) && (JS.code c <=? 102)) eqn:E2.
    + apply andb_true_iff in E2. destruct E2 as [E2 _]. apply Z.leb_le in E2.
      destruct (JS.code c - 87 <? base); intros [= <-]. lia.
    + destruct ((65 <=? JS.code c) && (JS.code c <=? 70)) eqn:E3; [|discriminate].
      apply andb_true_iff in E3. destruct E3 as [E3 _]. apply Z.leb_le in E3.
      destruct (JS.code c - 55 <? base); intros [= <-]. lia.
Qed.

Lemma digits_acc_hex cs : forall acc,
  forallb is_hex_digit cs = true -> 0 <= acc ->
  exists v, JS.digits_acc 16 acc cs = Some v /\ 0 <= v.
Proof.
  induction cs as [|c cs IH]; intros acc Hall Hacc; simpl in *; [eauto|].
  apply andb_true_iff in Hall. destruct Hall as [Hc Hcs]. unfold is_hex_digit in Hc.
  destruct (JS.digit_in 16 c) as [d|] eqn:Hd; [|discriminate].
  apply IH; [assumption|]. pose proof (digit_in_nonneg 16 c d Hd). lia.
Qed.

Lemma hex_digit_no_space c : is_hex_digit c = true -> no_space c.
Proof.
  destruct c as [[] [] [] [] [] [] [] []]; vm_compute; congruence.
Qed.

Lemma isHexWithPrefix_reads str :
  isHexWithPrefix str = true ->
  exists n, 0 <= n /\ JS.BigInt str = Ok n /\ JS.Number str = JS.of_Z n
            /\ same_chain str str = true.
Proof.
  intros H. unfold isHexWithPrefix in H. unfold JS.BigInt, JS.Number, same_chain, JS.Number.
  destruct (list_ascii_of_string str) as [|c0 [|c1 [|d ds]]] eqn:Hs; try discriminate;
    try (destruct c0 as [[] [] [] [] [] [] [] []]; discriminate).
  - destruct c0 as [[] [] [] [] [] [] [] []]; try discriminate;
      destruct c1 as [[] [] [] [] [] [] [] []]; discriminate.
  - assert (c0 = "0"%char /\ c1 = "x"%char) as [-> ->].
    { destruct c0 as [[] [] [] [] [] [] [] []]; try discriminate;
        destruct c1 as [[] [] [] [] [] [] [] []]; try discriminate; auto. }
    assert (Hsp : Forall no_space ("0"%char :: "x"%char :: d :: ds)).
    { constructor; [reflexivity|]. constructor; [reflexivity|].
      apply Forall_forall. intros c Hc. apply hex_digit_no_space.
      rewrite forallb_forall in H. now apply H. }
    rewrite (trim_no_space _ Hsp).
    destruct (digits_acc_hex (d :: ds) 0 H (Z.le_refl 0)) as (v & Hv & Hv0).
    unfold JS.BigInt_literal, JS.Number_literal.
    change (JS.radix_prefix ("0"%char :: "x"%char :: d :: ds))
      with (Some (16, d :: ds)). cbv iota.
    unfold JS.digits. rewrite Hv. simpl JS.to_SyntaxError.
    exists v. split; [assumption|]. split; [reflexivity|].
    assert (Hof : JS.round_double false v 1 = JS.of_Z v).
    { unfold JS.of_Z. rewrite Z.abs_eq by assumption.
      replace (v <? 0) with false; [reflexivity|]. symmetry. apply Z.ltb_ge. lia. }
    split; [assumption|]. apply number_eqb_refl, round_double_not_NaN.
Qed.

Lemma isHexWithPrefix_hexadecimal n : isHexWithPrefix (JS.hexadecimal n) = true.
Proof.
  unfold isHexWithPrefix, JS.hexadecimal. cbn [list_ascii_of_string].
  fold (hex_digits (N.to_hex_uint n)).
  assert (Hall : forall d, forallb is_hex_digit (hex_digits d) = true).
  { induction d; simpl; auto. }
  pose proof (Hall (N.to_hex_uint n)) as H.
  destruct (hex_digits (N.to_hex_uint n)) as [|c cs] eqn:E; [|exact H].
  exfalso. apply (to_hex_uint_not_nil n).
  destruct (N.to_hex_uint n); [reflexivity | discriminate E ..].
Qed.

(** A string that [isHexWithPrefix] accepts is one that [BigInt] reads, as a
    natural number, and that [Number] reads as the same number: it never
    makes a lookup raise and it is a chain id that equals itself.  The
    hexadecimal spelling of every natural number is accepted. *)
Theorem isHexWithPrefix_numeric :
  (forall str,
      isHexWithPrefix str = true ->
      exists n, 0 <= n /\ JS.BigInt str = Ok n /\ JS.Number str = JS.of_Z n
                /\ same_chain str str = true) /\
  (forall n, isHexWithPrefix (JS.hexadecimal n) = true).
Proof.
  split; [exact isHexWithPrefix_reads | exact isHexWithPrefix_hexadecimal].
Qed.

Lemma isHexWithPrefix_numeric_witness :
  exists n, 0 <= n /\ JS.BigInt "0x534e5f4d41494e"%string = Ok n
            /\ JS.Number "0x534e5f4d41494e"%string = JS.of_Z n
            /\ same_chain "0x534e5f4d41494e"%string "0x534e5f4d41494e"%string = true.
Proof.
  apply (proj1 isHexWithPrefix_numeric "0x534e5f4d41494e"%string). reflexivity.
Defined.

Lemma drop_spaces_nil cs :
  JS.drop_spaces cs = [] <-> Forall (fun c => JS.is_space c = true) cs.
Proof.
  induction cs as [|c cs IH]; simpl.
  - split; auto.
  - destruct (JS.is_space c) eqn:Hc.
    + rewrite IH. split; [now constructor | intros H; now inversion H].
    + split; [discriminate | intros H; inversion H; congruence].
Qed.

Lemma drop_spaces_head cs :
  JS.drop_spaces cs = [] \/ exists c cs', JS.drop_spaces cs = c :: cs' /\ JS.is_space c = false.
Proof.
  induction cs as [|c cs IH]; simpl; [auto|].
  destruct (JS.is_space c) eqn:Hc; [assumption | eauto].
Qed.

Lemma trim_nil cs : JS.trim cs = [] <-> Forall (fun c => JS.is_space c = true) cs.
Proof.
  unfold JS.trim. split.
  - intros H. apply (f_equal (@rev ascii)) in H. rewrite rev_involutive in H. simpl in H.
    apply drop_spaces_nil in H. apply Forall_rev in H. rewrite rev_involutive in H.
    destruct (drop_spaces_head cs) as [E|(c & cs' & E & Hc)].
    + now apply drop_spaces_nil.
    + rewrite E in H. inversion H; congruence.
  - intros H. apply drop_spaces_nil in H. now rewrite H.
Qed.

Lemma length_string_of_list_ascii l :
  String.length (string_of_list_ascii l) = List.length l.
Proof. induction l; simpl; congruence. Qed.

Lemma length_list_ascii_of_string s :
  List.length (list_ascii_of_string s) = String.length s.
Proof. induction s; simpl; congruence. Qed.

Lemma printable_space c :
  printable c = true -> (JS.is_space c = true <-> c = " "%char).
Proof.
  destruct c as [[] [] [] [] [] [] [] []]; vm_compute; intros H;
    split; intros E; congruence.
Qed.

(** [isValidAsciiStrField] accepts exactly the strings made of printable
    ASCII characters (space to tilde) that hold at least one character other
    than a space and are at most [maxLength] characters long; in particular
    it rejects the empty string and a string of spaces. *)
Theorem isValidAsciiStrField_iff :
  forall fieldStr maxLength,
    isValidAsciiStrField fieldStr maxLength = true <->
    Forall (fun c => printable c = true) (list_ascii_of_string fieldStr)
    /\ Exists (fun c => c <> " "%char) (list_ascii_of_string fieldStr)
    /\ Z.of_nat (String.length fieldStr) <= maxLength.
Proof.
  intros s max. unfold isValidAsciiStrField, hasOnlyAsciiChars, String_trim.
  rewrite !andb_true_iff, Z.ltb_lt, Z.leb_le, length_string_of_list_ascii.
  set (cs := list_ascii_of_string s).
  assert (Htrim : (0 < Z.of_nat (List.length (JS.trim cs)))
                  <-> ~ Forall (fun c => JS.is_space c = true) cs).
  { rewrite <- trim_nil. destruct (JS.trim cs); simpl; split; try lia; congruence. }
  rewrite Htrim. split.
  - intros [[Hall Hsp] Hlen].
    assert (Hp : Forall (fun c => printable c = true) cs).
    { destruct cs; [discriminate|]. apply Forall_forall. apply forallb_forall. exact Hall. }
    split; [exact Hp|]. split; [|exact Hlen].
    apply neg_Forall_Exists_neg in Hsp.
    + apply Exists_exists in Hsp. destruct Hsp as (c & Hc & Hns).
      apply Exists_exists. exists c. split; [assumption|].
      rewrite Forall_forall in Hp. intros E. apply Hns.
      now apply (printable_space c (Hp c Hc)).
    + intros c. destruct (JS.is_space c); [left | right]; congruence.
  - intros (Hp & Hex & Hlen). split; [split|exact Hlen].
    + destruct cs as [|c cs'] eqn:E; [inversion Hex|].
      apply forallb_forall. now apply Forall_forall.
    + intros Hsp. apply Exists_exists in Hex. destruct Hex as (c & Hc & Hne).
      rewrite Forall_forall in Hsp, Hp. apply Hne.
      now apply (printable_space c (Hp c Hc)), Hsp.
Qed.

Lemma found_total {A} (p : A -> result bool) xs :
  Forall (fun y => exists b, p y = Ok b) xs -> exists b, found p xs = Ok b.
Proof.
  intros H. unfold found. destruct (find_total p xs H) as [r ->]. simpl. eauto.
Qed.

Lemma found_false {A} (p : A -> result bool) xs :
  found p xs = Ok false -> Forall (fun y => p y = Ok false) xs.
Proof.
  unfold found. destruct (find p xs) as [[r|]|] eqn:Hf; simpl; try discriminate.
  intros _. now apply find_None.
Qed.

Section ValidationFacts.

Variable MAXIMUM_NETWORK_NAME_LENGTH : Z.
Variable MAXIMUM_TOKEN_NAME_LENGTH : Z.
Variable MAXIMUM_TOKEN_SYMBOL_LENGTH : Z.
Variable PRELOADED_NETWORKS : list Network.t.
Variable PRELOADED_TOKENS : list Erc20Token.t.
Variable URL_protocol : string -> option string.
Variable validateAndParseAddress : string -> bool.

(** When the chain ids of the preloaded networks are integer literals,
    [validateAddNetworkParams] lets no conversion error escape: it returns
    or throws one of its own errors, because the chain id is checked to be a
    prefixed hexadecimal literal before it is converted.  The parameters it
    accepts have a valid name, a chain id that [BigInt] reads and that
    differs, as an integer, from the chain id of every preloaded network, a
    name that differs, once trimmed, from every preloaded name, and URLs
    that are empty or valid. *)
Theorem validateAddNetworkParams_outcome :
  forall params,
    Forall (fun network => numeric (Network.chainId network)) PRELOADED_NETWORKS ->
    (forall e,
        validateAddNetworkParams MAXIMUM_NETWORK_NAME_LENGTH PRELOADED_NETWORKS
                                 URL_protocol validateAndParseAddress params
        <> Raised e) /\
    (validateAddNetworkParams MAXIMUM_NETWORK_NAME_LENGTH PRELOADED_NETWORKS
                              URL_protocol validateAndParseAddress params
     = Accepted ->
     isValidAsciiStrField (networkName params) MAXIMUM_NETWORK_NAME_LENGTH = true /\
     (exists n, 0 <= n /\ JS.BigInt (networkChainId params) = Ok n /\
                forall network, In network PRELOADED_NETWORKS ->
                                JS.BigInt (Network.chainId network) <> Ok n) /\
     (forall network, In network PRELOADED_NETWORKS ->
                      String_trim (Network.name network)
                      <> String_trim (networkName params)) /\
     (networkBaseUrl params = EmptyString
      \/ isValidHttpUrl URL_protocol (networkBaseUrl params) = true) /\
     (networkNodeUrl params = EmptyString
      \/ isValidHttpUrl URL_protocol (networkNodeUrl params) = true)).
Proof.
  intros params Hpre. unfold validateAddNetworkParams, isValidNetworkName, check, checkGiven.
  destruct (isValidAsciiStrField (networkName params) MAXIMUM_NETWORK_NAME_LENGTH) eqn:Hname;
    simpl; [|split; [discriminate | discriminate]].
  destruct (isHexWithPrefix (networkChainId params)) eqn:Hhex;
    simpl; [|split; [discriminate | discriminate]].
  destruct (isHexWithPrefix_reads _ Hhex) as (n & Hn0 & Hn & _).
  assert (Hurl : forall url,
             JS.truthy url && negb (isValidHttpUrl URL_protocol url) = false ->
             url = EmptyString \/ isValidHttpUrl URL_protocol url = true).
  { intros url H. destruct url; [now left|]. simpl in H.
    right. now apply negb_false_iff. }
  destruct (JS.truthy (networkBaseUrl params)
            && negb (isValidHttpUrl URL_protocol (networkBaseUrl params))) eqn:Hbase;
    [split; discriminate|].
  destruct (JS.truthy (networkNodeUrl params)
            && negb (isValidHttpUrl URL_protocol (networkNodeUrl params))) eqn:Hnode;
    [split; discriminate|].
  assert (Hlast :
    (forall e,
        match isPreloadedNetworkChainId PRELOADED_NETWORKS (networkChainId params) with
        | Ok preloadedChainId =>
            if preloadedChainId || isPreloadedNetworkName PRELOADED_NETWORKS (networkName params)
            then Rejected PreloadedNetwork else Accepted
        | Throw e => Raised e
        end <> Raised e) /\
    (match isPreloadedNetworkChainId PRELOADED_NETWORKS (networkChainId params) with
     | Ok preloadedChainId =>
         if preloadedChainId || isPreloadedNetworkName PRELOADED_NETWORKS (networkName params)
         then Rejected PreloadedNetwork else Accepted
     | Throw e => Raised e
     end = Accepted ->
     (forall network, In network PRELOADED_NETWORKS ->
                      JS.BigInt (Network.chainId network) <> Ok n) /\
     (forall network, In network PRELOADED_NETWORKS ->
                      String_trim (Network.name network)
                      <> String_trim (networkName params)))).
  { unfold isPreloadedNetworkChainId. rewrite Hn. simpl.
    destruct (found_total (fun network => bigint_is (Network.chainId network) n)
                PRELOADED_NETWORKS) as [b Hb].
    { eapply Forall_impl; [|exact Hpre]. intros p [z Hz].
      unfold bigint_is. rewrite Hz. simpl. eauto. }
    rewrite Hb. split.
    - intros e. destruct (b || _); discriminate.
    - destruct b; simpl; [discriminate|].
      destruct (isPreloadedNetworkName PRELOADED_NETWORKS (networkName params)) eqn:Hnm;
        [discriminate|]. intros _. split.
      + apply found_false in Hb. rewrite Forall_forall in Hb.
        intros p Hp E. specialize (Hb p Hp). unfold bigint_is in Hb.
        rewrite E in Hb. simpl in Hb. rewrite Z.eqb_refl in Hb. discriminate.
      + intros p Hp E. unfold isPreloadedNetworkName in Hnm.
        assert (Ht : existsb (fun network =>
                       (String_trim (Network.name network)
                        =? String_trim (networkName params))%string)
                             PRELOADED_NETWORKS = true).
        { apply existsb_exists. exists p. split; [assumption|]. now apply String.eqb_eq. }
        congruence. }
  destruct Hlast as [Hnoraise Hacc].
  assert (Hsplit : forall v : validation,
             (forall e, v <> Raised e) ->
             forall (o : option string) bad why,
               forall e, match o with
                         | Some x => if JS.truthy x && bad x then Rejected (why x) else v
                         | None => v
                         end <> Raised e).
  { intros v Hv o bad why e. destruct o as [x|]; [|apply Hv].
    destruct (JS.truthy x && bad x); [discriminate | apply Hv]. }
  split.
  - intros e. apply Hsplit. intros e'. apply Hsplit. exact Hnoraise.
  - intros H.
    assert (Hin : match isPreloadedNetworkChainId PRELOADED_NETWORKS (networkChainId params) with
                  | Ok preloadedChainId =>
                      if preloadedChainId
                         || isPreloadedNetworkName PRELOADED_NETWORKS (networkName params)
                      then Rejected PreloadedNetwork else Accepted
                  | Throw e => Raised e
                  end = Accepted).
    { destruct (networkVoyagerUrl params) as [x|];
        [destruct (JS.truthy x && _); [discriminate|]|];
        (destruct (accountClassHash params) as [y|];
         [destruct (JS.truthy y && _); [discriminate|]|]); exact H. }
    destruct (Hacc Hin) as [Hc Hnm].
    split; [reflexivity|]. split; [exists n; auto|]. split; [exact Hnm|]. auto.
Qed.

(** When [validateAndParseAddress] accepts only addresses that [BigInt]
    reads, and the addresses of the preloaded tokens are integer literals,
    [validateAddErc20TokenParams] lets no conversion error escape.  The
    parameters it accepts have an address that [validateAndParseAddress]
    accepts and a valid name and symbol, and no preloaded token of the
    network's chain has the same address as an integer, the same trimmed
    name or the same trimmed symbol. *)
Theorem validateAddErc20TokenParams_outcome :
  forall params network,
    (forall address, validateAndParseAddress address = true -> numeric address) ->
    Forall (fun token => numeric (Erc20Token.address token)) PRELOADED_TOKENS ->
    (forall e,
        validateAddErc20TokenParams MAXIMUM_TOKEN_NAME_LENGTH MAXIMUM_TOKEN_SYMBOL_LENGTH
                                    PRELOADED_TOKENS validateAndParseAddress params network
        <> Raised e) /\
    (validateAddErc20TokenParams MAXIMUM_TOKEN_NAME_LENGTH MAXIMUM_TOKEN_SYMBOL_LENGTH
                                 PRELOADED_TOKENS validateAndParseAddress params network
     = Accepted ->
     validateAndParseAddress (tokenAddress params) = true /\
     isValidAsciiStrField (tokenName params) MAXIMUM_TOKEN_NAME_LENGTH = true /\
     isValidAsciiStrField (tokenSymbol params) MAXIMUM_TOKEN_SYMBOL_LENGTH = true /\
     forall token,
       In token PRELOADED_TOKENS ->
       same_chain (Erc20Token.chainId token) (Network.chainId network) = true ->
       (forall n, JS.BigInt (tokenAddress params) = Ok n ->
                  JS.BigInt (Erc20Token.address token) <> Ok n) /\
       String_trim (Erc20Token.name token) <> String_trim (tokenName params) /\
       String_trim (Erc20Token.symbol token) <> String_trim (tokenSymbol params)).
Proof.
  intros params network Hparse Hpre.
  unfold validateAddErc20TokenParams, isValidTokenName, isValidTokenSymbol, check.
  destruct (validateAndParseAddress (tokenAddress params)) eqn:Haddr;
    simpl; [|split; discriminate].
  destruct (isValidAsciiStrField (tokenName params) MAXIMUM_TOKEN_NAME_LENGTH) eqn:Hname;
    simpl; [|split; discriminate].
  destruct (isValidAsciiStrField (tokenSymbol params) MAXIMUM_TOKEN_SYMBOL_LENGTH) eqn:Hsym;
    simpl; [|split; discriminate].
  destruct (Hparse _ Haddr) as [n Hn].
  unfold isPreloadedTokenAddress. rewrite Hn. simpl.
  destruct (found_total
              (fun token => key_matches (Erc20Token.address token) n
                                        (Erc20Token.chainId token) (Network.chainId network))
              PRELOADED_TOKENS) as [b Hb].
  { eapply Forall_impl; [|exact Hpre]. intros p [z Hz].
    unfold key_matches, bigint_is. rewrite Hz. simpl. eauto. }
  rewrite Hb. split.
  - intros e. destruct (b || _ || _); discriminate.
  - destruct b; simpl; [discriminate|].
    destruct (isPreloadedTokenName PRELOADED_TOKENS (tokenName params)
                                   (Network.chainId network)) eqn:Hnm;
      simpl; [discriminate|].
    destruct (isPreloadedTokenSymbol PRELOADED_TOKENS (tokenSymbol params)
                                     (Network.chainId network)) eqn:Hsy;
      simpl; [discriminate|].
    intros _. repeat (split; [reflexivity|]).
    intros token Hin Hchain. split; [|split].
    + intros n' Hn' E. assert (n' = n) by congruence. subst n'.
      apply found_false in Hb. rewrite Forall_forall in Hb. specialize (Hb token Hin).
      unfold key_matches, bigint_is in Hb. rewrite E in Hb. simpl in Hb.
      rewrite Z.eqb_refl, Hchain in Hb. discriminate.
    + intros E. unfold isPreloadedTokenName in Hnm.
      assert (Ht : existsb (fun token =>
                     (String_trim (Erc20Token.name token)
                      =? String_trim (tokenName params))%string
                     && same_chain (Erc20Token.chainId token) (Network.chainId network))
                           PRELOADED_TOKENS = true).
      { apply existsb_exists. exists token. split; [assumption|].
        rewrite Hchain, andb_true_r. now apply String.eqb_eq. }
      congruence.
    + intros E. unfold isPreloadedTokenSymbol in Hsy.
      assert (Ht : existsb (fun token =>
                     (String_trim (Erc20Token.symbol token)
                      =? String_trim (tokenSymbol params))%string
                     && same_chain (Erc20Token.chainId token) (Network.chainId network))
                           PRELOADED_TOKENS = true).
      { apply existsb_exists. exists token. split; [assumption|].
        rewrite Hchain, andb_true_r. now apply String.eqb_eq. }
      congruence.
Qed.

End ValidationFacts.

Lemma validateAddNetworkParams_outcome_witness :
  Forall (fun network => numeric (Network.chainId network))
         [Network.mk "Mainnet" "0x534e5f4d41494e" "" "" "" "" None] /\
  forall e,
    validateAddNetworkParams 64 [Network.mk "Mainnet" "0x534e5f4d41494e" "" "" "" "" None]
                             (fun _ => Some "https:"%string) isHexWithPrefix
                             (mkAddNetworkRequestParams "Devnet" "0x1" "https://a" ""
                                                        None (Some "0x2"%string))
    <> Raised e.
Proof.
  assert (H : Forall (fun network => numeric (Network.chainId network))
                     [Network.mk "Mainnet" "0x534e5f4d41494e" "" "" "" "" None]).
  { repeat constructor. exists 23448594291968334. reflexivity. }
  split; [exact H|].
  exact (proj1 (validateAddNetworkParams_outcome
                  64 [Network.mk "Mainnet" "0x534e5f4d41494e" "" "" "" "" None]
                  (fun _ => Some "https:"%string) isHexWithPrefix
                  (mkAddNetworkRequestParams "Devnet" "0x1" "https://a" ""
                                             None (Some "0x2"%string)) H)).
Defined.

Lemma validateAddErc20TokenParams_outcome_witness :
  Forall (fun token => numeric (Erc20Token.address token))
         [Erc20Token.mk "0x49" "Ether" "ETH" 18 "0x1"] /\
  forall e,
    validateAddErc20TokenParams 64 16 [Erc20Token.mk "0x49" "Ether" "ETH" 18 "0x1"]
                                isHexWithPrefix
                                (mkAddErc20TokenRequestParams "0x50" "Token" "TKN")
                                (Network.mk "Mainnet" "1" "" "" "" "" None)
    <> Raised e.
Proof.
  assert (H : Forall (fun token => numeric (Erc20Token.address token))
                     [Erc20Token.mk "0x49" "Ether" "ETH" 18 "0x1"]).
  { repeat constructor. exists 73. reflexivity. }
  split; [exact H|].
  refine (proj1 (validateAddErc20TokenParams_outcome
                   64 16 [Erc20Token.mk "0x49" "Ether" "ETH" 18 "0x1"] isHexWithPrefix
                   (mkAddErc20TokenRequestParams "0x50" "Token" "TKN")
                   (Network.mk "Mainnet" "1" "" "" "" "" None) _ H)).
  intros address Ha. destruct (isHexWithPrefix_reads address Ha) as (n & _ & Hn & _).
  now exists n.
Defined.

Section ToMapFacts.

Context {k v z : Type}.
Variable k_eq_dec : forall a b : k, {a = b} + {a <> b}.

Lemma Map_get_set (map : list (k * v)) key value x :
  Map_get k_eq_dec (Map_set k_eq_dec map key value) x
  = if k_eq_dec key x then Some value else Map_get k_eq_dec map x.
Proof.
  induction map as [|[key' value'] rest IH]; simpl.
  - reflexivity.
  - destruct (k_eq_dec key' key) as [->|Hne]; simpl.
    + destruct (k_eq_dec key x); reflexivity.
    + destruct (k_eq_dec key' x) as [->|Hx].
      * destruct (k_eq_dec key x); [congruence | reflexivity].
      * exact IH.
Qed.

Lemma Map_set_keys (map : list (k * v)) key value :
  List.map fst (Map_set k_eq_dec map key value)
  = if in_dec k_eq_dec key (List.map fst map) then List.map fst map
    else List.map fst map ++ [key].
Proof.
  induction map as [|[key' value'] rest IH]; simpl.
  - reflexivity.
  - destruct (k_eq_dec key' key) as [->|Hne]; simpl.
    + reflexivity.
    + rewrite IH. destruct (in_dec k_eq_dec key (List.map fst rest)); reflexivity.
Qed.

Lemma toMap_snoc (arr : list v) (key : v -> z) (keyConverter : z -> k) obj :
  toMap k_eq_dec (arr ++ [obj]) key keyConverter
  = Map_set k_eq_dec (toMap k_eq_dec arr key keyConverter) (keyConverter (key obj)) obj.
Proof. unfold toMap. now rewrite fold_left_app. Qed.

(** The map that [toMap] builds has one entry for every key that occurs in
    the array, in the order of the first occurrences, and the value of a
    key is the last element of the array with that key: of two elements
    with the same key the later one wins. *)
Theorem toMap_last_wins :
  forall (arr : list v) (key : v -> z) (keyConverter : z -> k),
    List.map fst (toMap k_eq_dec arr key keyConverter)
    = rev (nodup k_eq_dec (rev (List.map (fun obj => keyConverter (key obj)) arr))) /\
    (forall x, Map_get k_eq_dec (toMap k_eq_dec arr key keyConverter) x
               = List.find (fun obj => if k_eq_dec (keyConverter (key obj)) x
                                       then true else false)
                           (rev arr)).
Proof.
  intros arr key keyConverter.
  induction arr as [|obj arr (IHk & IHg)] using rev_ind.
  - split; reflexivity.
  - rewrite toMap_snoc. split.
    + rewrite Map_set_keys, map_app, rev_app_distr. simpl.
      destruct (in_dec k_eq_dec (keyConverter (key obj))
                       (List.map fst (toMap k_eq_dec arr key keyConverter))) as [Hin|Hout];
        destruct (in_dec k_eq_dec (keyConverter (key obj))
                         (rev (List.map (fun obj => keyConverter (key obj)) arr)))
        as [Hin'|Hout'].
      * exact IHk.
      * exfalso. apply Hout'. rewrite IHk in Hin. apply in_rev in Hin.
        now apply nodup_In in Hin.
      * exfalso. apply Hout. rewrite IHk. apply in_rev. rewrite rev_involutive.
        now apply nodup_In.
      * simpl. now rewrite IHk.
    + intros x. rewrite Map_get_set, rev_app_distr. simpl.
      destruct (k_eq_dec (keyConverter (key obj)) x); [reflexivity | apply IHg].
Qed.

End ToMapFacts.

